(** * AccessAI: capture stabilizer, retry wrapper, playback scheduler and
      turn accumulator

    A shallow embedding of the core of [src/components/VisualAssistant.tsx]
    (the [VisualAssistant] component, the [HearingAssistant] and [Creative]
    components that follow it in the same file, and the two helpers
    [KalmanFilter] and [retryTask]), of [src/services/geminiService.ts],
    of the chat tab [src/components/Assistant.tsx] and of the language
    list of [src/constants.ts].

    Conventions of the embedding.
    - A JavaScript [number] that carries a measurement, a time in seconds
      or a percentage is an exact rational ([Q]); rounding of IEEE doubles
      is outside the model.  Millisecond clock readings ([Date.now()]) and
      loop counters are integers ([Z]).
    - What the browser, the camera, the network or the remote service
      hands to the code (pixel buffers, encoded frames, clock readings,
      outcomes of remote calls, decoded durations) is an explicit input of
      the function that consumes it.
    - A JavaScript string is held as the bytes of its UTF-8 encoding
      ([string]); concatenation, emptiness and containment read the same
      on both, and white space is recognised by its encoding.
    - Mutable component state and refs are records threaded through the
      handlers.
    - Division by zero has no counterpart in [Q]; it does not arise where
      the properties apply (the covariance of the filter stays positive,
      the stability threshold is a constant, the playback rate is taken
      positive). *)

From Stdlib Require Import ZArith QArith Qminmax List Bool Lia Lqa.
From stdpp Require Import base gmap strings.
From Equations Require Import Equations.
Import ListNotations.

Local Open Scope Z_scope.

(* ===================================================================== *)
(** ** Scalar smoothing filter: [class KalmanFilter]                      *)
(* ===================================================================== *)

Module KalmanFilter.

(** The four private fields of the class. *)
Record t : Type := Build { x : Q; p : Q; q : Q; r : Q }.

(** Field initialisers: [x = 0], [p = 1], [q = 0.1], [r = 0.5]. *)
Definition new : t := {| x := 0; p := 1; q := 1 # 10; r := 1 # 2 |}.

Definition set_x (this : t) (v : Q) : t :=
  {| x := v; p := p this; q := q this; r := r this |}.
Definition set_p (this : t) (v : Q) : t :=
  {| x := x this; p := v; q := q this; r := r this |}.

(** [filter(measurement)], statement by statement; the result is the
    returned number together with the mutated object. *)
Definition filter (this : t) (measurement : Q) : Q * t :=
  let this := set_p this (p this + q this)%Q in
  let k := (p this / (p this + r this))%Q in
  let this := set_x this (x this + k * (measurement - x this))%Q in
  let this := set_p this ((1 - k) * p this)%Q in
  (x this, this).

(** The recursion as the specification words it: four simultaneous
    equations on the numbers, with [q] and [r] fixed. *)
Definition spec_p1 (p0 q0 : Q) : Q := (p0 + q0)%Q.
Definition spec_gain (p0 q0 r0 : Q) : Q :=
  (spec_p1 p0 q0 / (spec_p1 p0 q0 + r0))%Q.
Definition spec_x (x0 p0 q0 r0 m : Q) : Q :=
  (x0 + spec_gain p0 q0 r0 * (m - x0))%Q.
Definition spec_p (p0 q0 r0 : Q) : Q :=
  ((1 - spec_gain p0 q0 r0) * spec_p1 p0 q0)%Q.

(** Feeding a whole list of measurements, oldest first. *)
Definition feed (this : t) (ms : list Q) : t :=
  fold_left (fun s m => snd (filter s m)) ms this.

(** [(5/6)^n], the bound on what [n] zero measurements leave of an
    estimate. *)
Fixpoint decay (n : nat) : Q :=
  match n with O => 1 | S n' => ((5 # 6) * decay n')%Q end.

End KalmanFilter.

(* ===================================================================== *)
(** ** Motion scorer: the pixel loop of [checkMotion]                     *)
(* ===================================================================== *)

Module Motion.

Definition mSize : Z := 64.
Definition gridSize : Z := 4.
Definition blockSize : Z := mSize / gridSize.

(** [getImageData(0, 0, mSize, mSize).data]: an RGBA byte buffer whose
    length is always [mSize * mSize * 4]. *)
Definition dataLength : Z := mSize * mSize * 4.

Record ImageData : Type := MkImageData {
  data : list Z;
  data_length : (Z.of_nat (length data) =? dataLength) = true
}.

(** [buf[idx]].  The default is never used on an [ImageData]: see
    [index_in_range] and [read_in_range] below. *)
Definition read (buf : list Z) (idx : Z) : Z :=
  nth (Z.to_nat idx) buf 0.

(** The values [0, 2, 4, ...] below [n]: [for (v = 0; v < n; v += 2)]. *)
Definition evens_below (n : Z) : list Z :=
  map (fun i => 2 * Z.of_nat i) (seq 0 (Z.to_nat ((n + 1) / 2))).

(** The values [0, 1, ...] below [n]: [for (g = 0; g < n; g++)]. *)
Definition upto (n : Z) : list Z :=
  map Z.of_nat (seq 0 (Z.to_nat n)).

Definition index (gy gx y x : Z) : Z :=
  ((gy * blockSize + y) * mSize + (gx * blockSize + x)) * 4.

(** The two inner loops: [blockDiff] of one grid cell. *)
Definition blockDiff (curr prev : list Z) (gy gx : Z) : Z :=
  fold_left (fun acc y =>
    fold_left (fun acc x =>
      let idx := index gy gx y x in
      acc + Z.abs (read curr idx - read prev idx))
      (evens_below blockSize) acc)
    (evens_below blockSize) 0.

(** The two outer loops. *)
Definition gridDiff (curr prev : list Z) : Z :=
  fold_left (fun acc gy =>
    fold_left (fun acc gx => acc + blockDiff curr prev gy gx)
      (upto gridSize) acc)
    (upto gridSize) 0.

(** [rawMotionScore]: stays [0] when [prevData] is [null]. *)
Definition rawMotionScore (currData : ImageData)
    (prevData : option ImageData) : Z :=
  match prevData with
  | Some prev => gridDiff (data currData) (data prev)
  | None => 0
  end.

(** A buffer whose every byte is [v]. *)
Definition flat (v : Z) : ImageData :=
  {| data := repeat v (Z.to_nat dataLength); data_length := eq_refl |}.

End Motion.

(* ===================================================================== *)
(** ** Comparisons of JavaScript numbers                                  *)
(* ===================================================================== *)

(** [a < b] on numbers, as a test. *)
Definition Qltb (a b : Q) : bool := negb (Qle_bool b a).

(** [!s] on a string: true exactly for the empty string. *)
Definition is_empty (s : string) : bool :=
  match s with EmptyString => true | String _ _ => false end.

(* ===================================================================== *)
(** ** Capture stabilizer: [getStabilizedFrame] and [checkMotion]         *)
(* ===================================================================== *)

Module Stabilizer.

Definition MAX_DURATION : Z := 3000.
Definition SAMPLE_RATE : Z := 80.
Definition STABILITY_THRESHOLD : Q := 18000.

(** The variables the promise executor declares, together with the
    [stabilityLevel] state of the component that [checkMotion] sets.
    [minFilteredMotion = None] stands for [Infinity]. *)
Record Attempt : Type := MkAttempt {
  kFilter : KalmanFilter.t;
  bestFrame : string;
  minFilteredMotion : option Q;
  prevData : option Motion.ImageData;
  startTime : Z;
  stabilityLevel : Q
}.

(** What the page supplies to one run of [checkMotion]: whether the
    video and canvas refs and both 2d contexts are present, the 64x64
    pixel buffer, the JPEG payload of the full frame (the part of the
    data URL after the comma), and the reading of [Date.now()] taken
    after the frame was processed. *)
Record Tick : Type := MkTick {
  refsOk : bool;
  currData : Motion.ImageData;
  currentFrame : string;
  now : Z
}.

(** State on entry of the executor; [captureAndAnalyze] has set
    [stabilityLevel] to [0] just before. *)
Definition begin (startTime0 : Z) : Attempt :=
  {| kFilter := KalmanFilter.new; bestFrame := EmptyString;
     minFilteredMotion := None; prevData := None; startTime := startTime0;
     stabilityLevel := 0 |}.

(** [Math.max(0, Math.min(100, 100 - (filteredMotion / THRESHOLD * 100)))] *)
Definition stabilityOf (filteredMotion : Q) : Q :=
  Qmax 0 (Qmin 100 (100 - (filteredMotion / STABILITY_THRESHOLD * 100))).

(** [filteredMotion < minFilteredMotion], with [None] as [Infinity]. *)
Definition below_min (fm : Q) (m : option Q) : bool :=
  match m with None => true | Some v => Qltb fm v end.

(** The first disjunct of the exit test. *)
Definition lockTest (currentStability : Q) (timeElapsed : Z) : bool :=
  Qltb 95 currentStability && (400 <? timeElapsed).

(** The second disjunct of the exit test. *)
Definition timeoutTest (timeElapsed : Z) : bool :=
  MAX_DURATION <=? timeElapsed.

(** Outcome of one run of [checkMotion].  [Resolved] carries the value
    passed to [resolve], the level given to the first
    [setStabilityLevel] of the run, and a flag telling whether the first
    disjunct of the exit test held (the source runs the same statements
    for both disjuncts, so the flag is a derived observation).  The 400 ms
    pause between forcing the level to 100 and calling [resolve] changes
    none of the values and is left out. *)
Inductive Step : Type :=
| Abandoned                       (* the early [return]: nothing is rescheduled *)
| Resolved (frame : string) (locked : bool) (level : Q) (a : Attempt)
| Rescheduled (a : Attempt).      (* [setTimeout(checkMotion, SAMPLE_RATE)] *)

Definition checkMotion (a : Attempt) (t : Tick) : Step :=
  if negb (refsOk t) then Abandoned else
  let rawMotionScore := Motion.rawMotionScore (currData t) (prevData a) in
  let '(filteredMotion, kf) :=
    KalmanFilter.filter (kFilter a) (inject_Z rawMotionScore) in
  let currentStability := stabilityOf filteredMotion in
  let replace :=
    below_min filteredMotion (minFilteredMotion a) || is_empty (bestFrame a) in
  let a1 :=
    {| kFilter := kf;
       bestFrame := if replace then currentFrame t else bestFrame a;
       minFilteredMotion :=
         if replace then Some filteredMotion else minFilteredMotion a;
       prevData := Some (currData t);
       startTime := startTime a;
       stabilityLevel := currentStability |} in
  let timeElapsed := now t - startTime a in
  if lockTest currentStability timeElapsed || timeoutTest timeElapsed then
    Resolved (bestFrame a1) (lockTest currentStability timeElapsed)
      currentStability
      {| kFilter := kFilter a1; bestFrame := bestFrame a1;
         minFilteredMotion := minFilteredMotion a1; prevData := prevData a1;
         startTime := startTime a1; stabilityLevel := 100 |}
  else Rescheduled a1.

(** One observed sample: the clock reading and the stability level. *)
Definition Sample : Type := (Z * Q)%type.

(** How an attempt stands after a finite run of ticks.  The log lists
    the samples processed so far, most recent first. *)
Inductive Run : Type :=
| Hung (log : list Sample)        (* abandoned: the promise never settles *)
| Pending (a : Attempt) (log : list Sample)
| Done (frame : string) (locked : bool) (a : Attempt) (log : list Sample).

Fixpoint run (a : Attempt) (log : list Sample) (ticks : list Tick) : Run :=
  match ticks with
  | [] => Pending a log
  | t :: rest =>
      match checkMotion a t with
      | Abandoned => Hung log
      | Resolved frame locked level a' =>
          Done frame locked a' ((now t, level) :: log)
      | Rescheduled a' =>
          run a' ((now t, stabilityLevel a') :: log) rest
      end
  end.

(** [getStabilizedFrame()], with the reading of [Date.now()] taken by
    the executor and the ticks the page then delivers. *)
Definition getStabilizedFrame (startTime0 : Z) (ticks : list Tick) : Run :=
  run (begin startTime0) [] ticks.

(** The clock reading of the latest sample that was not above 95, if
    there is one. *)
Fixpoint last_below (log : list Sample) : option Z :=
  match log with
  | [] => None
  | (t, s) :: older => if Qltb 95 s then last_below older else Some t
  end.

(** The longest time for which, at the head of the log, the stability
    level can have been above 95 without a break: the time since the
    latest sample that was not above 95, or since the attempt began. *)
Definition dwell (start : Z) (log : list Sample) : Z :=
  match log with
  | [] => 0
  | (t, _) :: _ =>
      t - match last_below log with Some t0 => t0 | None => start end
  end.

Definition SETTLE : Z := 400.

(** The lock rule as the specification words it: a lock happens only
    after the level has been above the threshold for [SETTLE] ms without
    a break. *)
Definition locks_only_after_settling : Prop :=
  forall startTime0 ticks frame a log,
    getStabilizedFrame startTime0 ticks = Done frame true a log ->
    SETTLE <= dwell startTime0 log.

(** A tick that finds every red byte of the small canvas at [v]. *)
Definition tick_at (v : Z) (time : Z) : Tick :=
  {| refsOk := true; currData := Motion.flat v;
     currentFrame := "/9j/4AAQSkZJRg"; now := time |}.

(** A still scene sampled every 85 ms, a small jolt at the fifth sample,
    stillness again at the sixth. *)
Definition jolt : list Tick :=
  [ tick_at 0 1000; tick_at 0 1085; tick_at 0 1170; tick_at 0 1255;
    tick_at 3 1340; tick_at 3 1425 ].

(** Where the frame held after a tick comes from: it is the frame of
    this tick, or the non-empty frame held before. *)
Definition frame_origin (held : string) (a : Attempt) (t : Tick) : Prop :=
  held = currentFrame t \/ (held = bestFrame a /\ is_empty (bestFrame a) = false).

(** A sample that met neither exit condition. *)
Definition went_on (start : Z) (smp : Sample) : Prop :=
  ~ ((95 < snd smp)%Q /\ 400 < fst smp - start) /\
  fst smp - start < MAX_DURATION.

(** The same with an encoding of its own. *)
Definition shot (v : Z) (time : Z) (jpeg : string) : Tick :=
  {| refsOk := true; currData := Motion.flat v; currentFrame := jpeg;
     now := time |}.

(** A camera that never holds still: black and white frames in turn, the
    last one past the time limit. *)
Definition shaky : list Tick :=
  [ shot 255 1000 "/9j/AAAA"; shot 0 1900 "/9j/BBBB"; shot 255 2800 "/9j/CCCC";
    shot 0 3700 "/9j/DDDD"; shot 255 4600 "/9j/EEEE" ].

(** The value a finished attempt resolved with. *)
Definition resolution (r : Run) : option string :=
  match r with Done frame _ _ _ => Some frame | _ => None end.

(** The guarantee as the specification words it: an attempt that
    processes at least one sample, its ticks going on until the time
    limit, resolves with a frame that is not empty. *)
Definition always_some_frame : Prop :=
  forall startTime0 first rest,
    refsOk first = true ->
    Exists (fun t => MAX_DURATION <= now t - startTime0) (first :: rest) ->
    exists frame locked a log,
      getStabilizedFrame startTime0 (first :: rest) =
        Done frame locked a log /\
      frame <> EmptyString.

End Stabilizer.

(* ===================================================================== *)
(** ** Text helpers                                                       *)
(* ===================================================================== *)

(** A text is held as the bytes of its UTF-8 encoding, which is also how
    a string literal of this file holds it.  [s.trim()] removes, at both
    ends, the code points that ECMAScript counts as WhiteSpace or as
    LineTerminator.  They are all below U+10000, so each of them is one
    code unit of the JavaScript string and at most three bytes here
    ([trim_is_trim_of_points] below relates the two readings). *)
Definition WHITE_SPACE : list Z :=
  [ 9; 10; 11; 12; 13; 32;   (* tab, LF, VT, FF, CR, space *)
    160;                      (* U+00A0 no-break space *)
    5760;                     (* U+1680 ogham space mark *)
    8192; 8193; 8194; 8195; 8196; 8197; 8198; 8199; 8200; 8201; 8202;
                              (* U+2000 .. U+200A *)
    8232; 8233;               (* U+2028, U+2029 line and paragraph separator *)
    8239;                     (* U+202F narrow no-break space *)
    8287;                     (* U+205F medium mathematical space *)
    12288;                    (* U+3000 ideographic space *)
    65279 ].                  (* U+FEFF byte order mark *)

Definition byte (n : Z) : Strings.Ascii.ascii :=
  Strings.Ascii.ascii_of_N (Z.to_N n).

(** The UTF-8 encoding of a code point. *)
Definition utf8 (cp : Z) : list Strings.Ascii.ascii :=
  if cp <? 128 then [byte cp]
  else if cp <? 2048 then [byte (192 + cp / 64); byte (128 + cp mod 64)]
  else if cp <? 65536 then
    [ byte (224 + cp / 4096); byte (128 + (cp / 64) mod 64);
      byte (128 + cp mod 64) ]
  else
    [ byte (240 + cp / 262144); byte (128 + (cp / 4096) mod 64);
      byte (128 + (cp / 64) mod 64); byte (128 + cp mod 64) ].

Fixpoint same (p q : list Strings.Ascii.ascii) : bool :=
  match p, q with
  | [], [] => true
  | a :: p', b :: q' => Strings.Ascii.eqb a b && same p' q'
  | _, _ => false
  end.

(** Whether [p] is the encoding of one white space code point. *)
Definition white (p : list Strings.Ascii.ascii) : bool :=
  existsb (fun cp => same (utf8 cp) p) WHITE_SPACE.

(** The same for bytes read from the end of a text backwards. *)
Definition white_end (p : list Strings.Ascii.ascii) : bool := white (rev p).

(** What is left of [l] once the runs of one, two or three bytes that [w]
    accepts have been taken off its front. *)
Fixpoint skip (w : list Strings.Ascii.ascii -> bool)
    (l : list Strings.Ascii.ascii) : list Strings.Ascii.ascii :=
  match l with
  | [] => []
  | a :: l1 =>
      if w [a] then skip w l1 else
      match l1 with
      | [] => l
      | b :: l2 =>
          if w [a; b] then skip w l2 else
          match l2 with
          | [] => l
          | c :: l3 => if w [a; b; c] then skip w l3 else l
          end
      end
  end.

(** [s.trimStart()], [s.trimEnd()] and [s.trim()]. *)
Definition trimStart (s : string) : string :=
  Strings.String.string_of_list_ascii
    (skip white (Strings.String.list_ascii_of_string s)).

Definition trimEnd (s : string) : string :=
  Strings.String.string_of_list_ascii
    (rev (skip white_end (rev (Strings.String.list_ascii_of_string s)))).

Definition trim (s : string) : string := trimEnd (trimStart s).

(* ===================================================================== *)
(** ** Resilient call wrapper: [retryTask]                                *)
(* ===================================================================== *)

Module Retry.

(** How a promise settles. *)
Inductive outcome (T E : Type) : Type :=
| Fulfilled (v : T)
| Rejected (e : E).
Arguments Fulfilled {T E} v.
Arguments Rejected {T E} e.

(** How [retryTask] itself settles: with the value of the task, with an
    error caught from the task, or with the error it makes up after the
    loop, [new Error("Unexpected retry failure")]. *)
Inductive settled (T E : Type) : Type :=
| Returned (v : T)
| Rethrown (e : E)
| Unexpected.
Arguments Returned {T E} v.
Arguments Rethrown {T E} e.
Arguments Unexpected {T E}.

(** The result together with what the call did: how many times it
    invoked the task and which timers it waited for, oldest first. *)
Record report (T E : Type) : Type := MkReport {
  result : settled T E;
  invocations : nat;
  sleeps : list Z
}.
Arguments MkReport {T E} result invocations sleeps.
Arguments result {T E} r.
Arguments invocations {T E} r.
Arguments sleeps {T E} r.

Section Loop.
Context {T E : Type}.

(** A task is known by how each of its invocations settles:
    [task i] is the outcome of invocation number [i], counted from 0.
    Every invocation is taken to settle. *)
Variable task : nat -> outcome T E.

(** The budget and the delay in milliseconds; the budget is a count of
    retries and ranges over the integers. *)
Variables maxRetries delay : Z.

(** The [while] loop, entered with the current values of [attempt],
    of the invocation count and of the timers already waited for. *)
Equations? loop (attempt : Z) (calls : nat) (slept : list Z) : report T E
  by wf (Z.to_nat (maxRetries + 1 - attempt)) lt :=
loop attempt calls slept with Z_le_gt_dec attempt maxRetries := {
  | right _ => MkReport Unexpected calls slept
  | left _ with task calls := {
      | Fulfilled v => MkReport (Returned v) (S calls) slept
      | Rejected e with Z.eq_dec attempt maxRetries := {
          | left _ => MkReport (Rethrown e) (S calls) slept
          | right _ => loop (attempt + 1) (S calls) (slept ++ [delay]) } } }.
Proof. lia. Qed.

End Loop.

Definition retryTask {T E : Type} (task : nat -> outcome T E)
    (maxRetries delay : Z) : report T E :=
  loop task maxRetries delay 0 0%nat [].

(** The default parameters [maxRetries = 2, delay = 1000]. *)
Definition DEFAULT_MAX_RETRIES : Z := 2.
Definition DEFAULT_DELAY : Z := 1000.

Definition retryTask_default {T E : Type} (task : nat -> outcome T E)
    : report T E :=
  retryTask task DEFAULT_MAX_RETRIES DEFAULT_DELAY.

(** "The task fails on its first [N] invocations and then succeeds
    with [v]". *)
Definition fails_then_succeeds {T E : Type} (task : nat -> outcome T E)
    (N : nat) (v : T) : Prop :=
  (forall i, (i < N)%nat -> exists e, task i = Rejected e) /\
  task N = Fulfilled v.

(** A task that fails [N] times with numbered errors, then yields [v]. *)
Definition flaky {T : Type} (N : nat) (v : T) : nat -> outcome T nat :=
  fun i => if (i <? N)%nat then Rejected i else Fulfilled v.

End Retry.

(* ===================================================================== *)
(** ** Visual path: [performOfflineOCR] and [captureAndAnalyze]           *)
(* ===================================================================== *)

Module Visual.
Import Retry.

Inductive Mode : Type := read | summarize | explain.

Definition is_read (mode : Mode) : bool :=
  match mode with read => true | _ => false end.

(** Errors are known by their message. *)
Definition error : Type := string.

(** The state of the component that [captureAndAnalyze] reads and sets,
    and whether [videoRef.current] and [canvasRef.current] are there. *)
Record Component : Type := MkComponent {
  refsPresent : bool;
  isOnline : bool;
  isProcessing : bool;
  isStabilizing : bool;
  stabilityLevel : Q;
  resultText : string
}.

(** What the outside world answers during one capture request. *)
Record World : Type := MkWorld {
  (* the executor's reading of [Date.now()] and the ticks that follow *)
  startTime : Z;
  ticks : list Stabilizer.Tick;
  (* [describeImage(frame, preferences, mode)], invocation by invocation *)
  describeImage : string -> Mode -> nat -> outcome string error;
  (* [generateSpeech(text, voiceName)], invocation by invocation *)
  generateSpeech : string -> nat -> outcome string error;
  (* decoding the audio and starting the buffer source *)
  playAudio : string -> outcome unit error;
  (* the text [Tesseract.recognize] finds in the frame *)
  recognize : string -> outcome string error
}.

(** What the request did besides setting state. *)
Record Effects : Type := MkEffects {
  spokenOffline : option string;    (* argument of [speakOffline] *)
  playedRemote : option string      (* audio payload handed to the speaker *)
}.

Definition silent : Effects :=
  {| spokenOffline := None; playedRemote := None |}.

Definition NO_TEXT : string := "No clear text found in the image.".
Definition FALLBACK_LABEL : string := "(Offline Fallback) ".
Definition BASIC_ONLY_LABEL : string :=
  "Offline Mode: Only basic reading is available. Text found: ".
Definition FAILURE_TEXT : string :=
  "I couldn't process the image. Please try again.".

(** [text.trim() || "No clear text found in the image."] *)
Definition performOfflineOCR (w : World) (base64Image : string)
    : outcome string error :=
  match recognize w base64Image with
  | Fulfilled text =>
      Fulfilled (if is_empty (trim text) then NO_TEXT else trim text)
  | Rejected e => Rejected e
  end.

(** The inner [try] block of the online branch: the text shown and the
    audio played, or the error that reaches the inner [catch]. *)
Definition remotePath (w : World) (frame : string) (mode : Mode)
    : outcome (string * string) error :=
  match result (retryTask_default (describeImage w frame mode)) with
  | Returned text =>
      match result (retryTask_default (generateSpeech w text)) with
      | Returned audioData =>
          match playAudio w audioData with
          | Fulfilled _ => Fulfilled (text, audioData)
          | Rejected e => Rejected e
          end
      | Rethrown e => Rejected e
      | Unexpected => Rejected "Unexpected retry failure"
      end
  | Rethrown e => Rejected e
  | Unexpected => Rejected "Unexpected retry failure"
  end.

(** The outer [try] block after the frame is there: the text that the
    last [setResultText] displays and the effects, or the error that
    reaches the outer [catch]. *)
Definition analyze (w : World) (online : bool) (frame : string) (mode : Mode)
    : outcome (string * Effects) error :=
  if online then
    match remotePath w frame mode with
    | Fulfilled (text, audioData) =>
        Fulfilled (text, {| spokenOffline := None;
                            playedRemote := Some audioData |})
    | Rejected _ =>
        match performOfflineOCR w frame with
        | Fulfilled offlineText =>
            Fulfilled (FALLBACK_LABEL +:+ offlineText,
                       {| spokenOffline := Some offlineText;
                          playedRemote := None |})
        | Rejected e => Rejected e
        end
    end
  else
    match performOfflineOCR w frame with
    | Fulfilled offlineText =>
        let finalDisplay :=
          if negb (is_read mode) then BASIC_ONLY_LABEL +:+ offlineText
          else offlineText in
        Fulfilled (finalDisplay,
                   {| spokenOffline := Some offlineText;
                      playedRemote := None |})
    | Rejected e => Rejected e
    end.

(** [captureAndAnalyze(mode)].  [None]: the stabilizer never resolves
    with the ticks given, so the request never gets past its first
    [await]. *)
Definition captureAndAnalyze (c : Component) (mode : Mode) (w : World)
    : option (Component * Effects) :=
  if negb (refsPresent c) || isProcessing c || isStabilizing c
  then Some (c, silent)
  else
    match Stabilizer.getStabilizedFrame (startTime w) (ticks w) with
    | Stabilizer.Done stabilizedBase64 _ _ _ =>
        let '(text, effects) :=
          match analyze w (isOnline c) stabilizedBase64 mode with
          | Fulfilled r => r
          | Rejected _ => (FAILURE_TEXT, silent)
          end in
        Some ({| refsPresent := refsPresent c; isOnline := isOnline c;
                 isProcessing := false; isStabilizing := false;
                 stabilityLevel := 0; resultText := text |}, effects)
    | _ => None
    end.

(** A request made with nothing else in flight. *)
Definition idle (online : bool) : Component :=
  {| refsPresent := true; isOnline := online; isProcessing := false;
     isStabilizing := false; stabilityLevel := 0; resultText := EmptyString |}.

(** A world in which the remote service answers every call with an
    error, the camera delivers one frame late, and the local engine reads
    a sign. *)
Definition service_down : World :=
  {| startTime := 0;
     ticks := [Stabilizer.shot 0 3000 "/9j/SIGN"];
     describeImage := fun _ _ _ => Rejected "503";
     generateSpeech := fun _ _ => Rejected "503";
     playAudio := fun _ => Fulfilled tt;
     recognize := fun _ => Fulfilled "  EXIT ONLY " |}.

End Visual.

(* ===================================================================== *)
(** ** Audio path: the [onmessage] handler of [HearingAssistant]          *)
(* ===================================================================== *)

Module Hearing.

Inductive Speaker : Type := user | model.

Record TranscriptionEntry : Type := MkEntry {
  text : string;
  timestamp : Z;
  speaker : Speaker
}.

(** One call of [source.start(when)] on a buffer source: the source
    (numbered in order of creation), the duration of its buffer, its
    playback rate and the start time asked for. *)
Record PlaybackSource : Type := MkSource {
  id : nat;
  duration : Q;
  playbackRate : Q;
  startAt : Q
}.

(** The state the handler works on: the three [useState] cells and the
    two refs of the playback scheduler, with a record of what was asked
    of the output context (sources started, oldest first, and sources
    stopped). *)
Record State : Type := MkState {
  transcript : list TranscriptionEntry;
  currentInput : string;
  currentOutput : string;
  nextStartTime : Q;                 (* [nextStartTimeRef.current] *)
  sources : gset nat;                (* [sourcesRef.current] *)
  outputContext : bool;              (* [outputAudioContextRef.current] set *)
  started : list PlaybackSource;
  stopped : gset nat
}.

(** The component as first rendered. *)
Definition initial : State :=
  {| transcript := []; currentInput := EmptyString;
     currentOutput := EmptyString; nextStartTime := 0; sources := ∅;
     outputContext := false; started := []; stopped := ∅ |}.

(** The constants of the render in which [startSession] ran.  The
    handler object is built once, inside that call, and handed to
    [startLiveSession]; wherever its body names [currentInput],
    [currentOutput] or [preferences], it names these. *)
Record Closure : Type := MkClosure {
  cl_currentInput : string;
  cl_currentOutput : string;
  cl_speechRate : Q
}.

(** [startSession()] as far as the handler is concerned: it fixes the
    closure and creates the output context. *)
Definition startSession (speechRate : Q) (st : State) : Closure * State :=
  ({| cl_currentInput := currentInput st;
      cl_currentOutput := currentOutput st;
      cl_speechRate := speechRate |},
   {| transcript := transcript st; currentInput := currentInput st;
      currentOutput := currentOutput st; nextStartTime := nextStartTime st;
      sources := sources st; outputContext := true;
      started := started st; stopped := stopped st |}).

(** The parts of [msg.serverContent] the handler looks at. *)
Record Message : Type := MkMessage {
  inputTranscription : option string;
  outputTranscription : option string;
  audio : option string;             (* [modelTurn.parts[0].inlineData.data] *)
  interrupted : bool;
  turnComplete : bool
}.

(** What the environment answers while one message is handled: the
    output clock, the duration of the decoded buffer ([None]: decoding
    throws), and the two readings of [Date.now()]. *)
Record Env : Type := MkEnv {
  currentTime : Q;
  decoded : option Q;
  nowInput : Z;
  nowOutput : Z
}.

Definition set_turn (st : State) (log : list TranscriptionEntry)
    (input output : string) : State :=
  {| transcript := log; currentInput := input; currentOutput := output;
     nextStartTime := nextStartTime st; sources := sources st;
     outputContext := outputContext st; started := started st;
     stopped := stopped st |}.

Definition set_playback (st : State) (cursor : Q) (live : gset nat)
    (log : list PlaybackSource) (halted : gset nat) : State :=
  {| transcript := transcript st; currentInput := currentInput st;
     currentOutput := currentOutput st; nextStartTime := cursor;
     sources := live; outputContext := outputContext st;
     started := log; stopped := halted |}.

(** Both [setCurrent...(prev => prev + text)] updates. *)
Definition accumulate (msg : Message) (st : State) : State :=
  let st :=
    match inputTranscription msg with
    | Some fragment =>
        set_turn st (transcript st) (currentInput st +:+ fragment)
          (currentOutput st)
    | None => st
    end in
  match outputTranscription msg with
  | Some fragment =>
      set_turn st (transcript st) (currentInput st)
        (currentOutput st +:+ fragment)
  | None => st
  end.

(** A string is truthy when it is not empty. *)
Definition has_audio (msg : Message) : bool :=
  match audio msg with
  | Some base64Audio => negb (is_empty base64Audio)
  | None => false
  end.

(** The playback block.  The flag is [false] when decoding threw: the
    cursor has been clamped already, and the rest of the handler does
    not run.  The handler suspends once, at the [await] of
    [decodeAudioData]; it is taken to resume before the next message is
    delivered, so that the block runs as one step. *)
Definition playback (cl : Closure) (env : Env) (msg : Message) (st : State)
    : State * bool :=
  if has_audio msg && outputContext st then
    let cursor := Qmax (nextStartTime st) (currentTime env) in
    match decoded env with
    | None =>
        (set_playback st cursor (sources st) (started st) (stopped st), false)
    | Some bufferDuration =>
        let source :=
          {| id := length (started st); duration := bufferDuration;
             playbackRate := cl_speechRate cl; startAt := cursor |} in
        (set_playback st
           (cursor + bufferDuration / cl_speechRate cl)%Q
           ({[ id source ]} ∪ sources st)
           (started st ++ [source])
           (stopped st), true)
    end
  else (st, true).

(** The interruption block: stop every live source, clear the set,
    reset the cursor. *)
Definition interrupt (st : State) : State :=
  set_playback st 0 ∅ (started st) (sources st ∪ stopped st).

Definition non_blank (t : TranscriptionEntry) : bool :=
  negb (is_empty (trim (text t))).

(** The turn-complete block.  The two new entries take their text from
    the closure; the filter runs over the whole new array. *)
Definition finalize (cl : Closure) (env : Env) (st : State) : State :=
  set_turn st
    (List.filter non_blank
       (transcript st ++
        [ {| text := cl_currentInput cl; timestamp := nowInput env;
             speaker := user |};
          {| text := cl_currentOutput cl; timestamp := nowOutput env;
             speaker := model |} ]))
    EmptyString EmptyString.

Definition onmessage (cl : Closure) (env : Env) (msg : Message) (st : State)
    : State :=
  let st := accumulate msg st in
  let '(st, ok) := playback cl env msg st in
  if ok then
    let st := if interrupted msg then interrupt st else st in
    if turnComplete msg then finalize cl env st else st
  else st.

(** The ['ended'] listener of a source. *)
Definition onended (source : nat) (st : State) : State :=
  set_playback st (nextStartTime st) (sources st ∖ {[ source ]})
    (started st) (stopped st).

(** Messages handled one after the other, each with its environment. *)
Definition session (cl : Closure) (inbox : list (Env * Message)) (st : State)
    : State :=
  fold_left (fun s em => onmessage cl (fst em) (snd em) s) inbox st.

(** Message shapes. *)
Definition heard (fragment : string) : Message :=
  {| inputTranscription := Some fragment; outputTranscription := None;
     audio := None; interrupted := false; turnComplete := false |}.
Definition said (fragment : string) : Message :=
  {| inputTranscription := None; outputTranscription := Some fragment;
     audio := None; interrupted := false; turnComplete := false |}.
Definition chunk (base64Audio : string) : Message :=
  {| inputTranscription := None; outputTranscription := None;
     audio := Some base64Audio; interrupted := false; turnComplete := false |}.
Definition barge_in : Message :=
  {| inputTranscription := None; outputTranscription := None;
     audio := None; interrupted := true; turnComplete := false |}.
Definition turn_done : Message :=
  {| inputTranscription := None; outputTranscription := None;
     audio := None; interrupted := false; turnComplete := true |}.

Definition at_clock (time : Q) (bufferDuration : Q) (ms : Z) : Env :=
  {| currentTime := time; decoded := Some bufferDuration;
     nowInput := ms; nowOutput := ms |}.








(** A session just opened on a new component, at normal speed. *)
Definition opened : Closure * State := startSession 1 initial.

(** Three chunks of audio; the third arrives after the second has
    played out. *)
Definition three_chunks : list (Env * Message) :=
  [ (at_clock 0 (1 # 2) 1000, chunk "AAAA");
    (at_clock (1 # 10) (1 # 2) 1100, chunk "BBBB");
    (at_clock 2 (1 # 4) 3000, chunk "CCCC") ].

(** The turn of the specification's example: "He" and "llo" heard, an
    empty fragment said, then the end of the turn. *)
Definition hello_turn : list (Env * Message) :=
  [ (at_clock 0 0 1000, heard "He");
    (at_clock 0 0 1100, heard "llo");
    (at_clock 0 0 1200, said EmptyString);
    (at_clock 0 0 1300, turn_done) ].

End Hearing.

(* ===================================================================== *)
(** ** Visual feedback: [getStabilityText]                                *)
(* ===================================================================== *)

Module Feedback.

(** The caption under the stability ring. *)
Definition getStabilityText (stabilityLevel : Q) : string :=
  if Qle_bool 100 stabilityLevel then "CAPTURE LOCKED!"
  else if Qltb 90 stabilityLevel then "PERFECT! HOLD STILL..."
  else if Qltb 70 stabilityLevel then "HOLD STEADY..."
  else if Qltb 40 stabilityLevel then "KEEPING STILL..."
  else "STABILIZING...".

End Feedback.

(* ===================================================================== *)
(** ** The pixels the motion scorer looks at                              *)
(* ===================================================================== *)

Module Sampling.

(** Where the red byte of the pixel in row [row] and column [col] sits
    in the buffer. *)
Definition red_index (row col : Z) : Z := (row * Motion.mSize + col) * 4.

(** A pixel of the 64x64 canvas whose row and column are both even. *)
Definition even_pixel (row col : Z) : Prop :=
  0 <= row < Motion.mSize /\ 0 <= col < Motion.mSize /\
  Z.even row = true /\ Z.even col = true.

(** The same as a test over all such pixels. *)
Definition agree_on_even_pixels (a b : list Z) : bool :=
  forallb (fun row =>
    forallb (fun col =>
      Motion.read a (red_index row col) =? Motion.read b (red_index row col))
      (Motion.evens_below Motion.mSize))
    (Motion.evens_below Motion.mSize).

(** A buffer whose every pixel is [(r, g, b, 255)]. *)
Definition tinted (r g b : Z) : Motion.ImageData :=
  {| Motion.data := concat (repeat [r; g; b; 255] 4096);
     Motion.data_length := eq_refl |}.

(** Every byte of the buffer is a byte. *)
Definition bytes (buf : list Z) : Prop :=
  Forall (fun v => 0 <= v <= 255) buf.

(** Two nested accumulating loops over [ys] and [xs] with term [g]. *)
Definition sum2 (g : Z -> Z -> Z) (ys xs : list Z) (acc : Z) : Z :=
  fold_left (fun acc y => fold_left (fun acc x => acc + g y x) xs acc) ys acc.

(** The term the inner loops of [checkMotion] add for one pixel. *)
Definition pixelDiff (curr prev : list Z) (gy gx y x : Z) : Z :=
  Z.abs (Motion.read curr (Motion.index gy gx y x) -
         Motion.read prev (Motion.index gy gx y x)).

End Sampling.

(* ===================================================================== *)
(** ** Conditions an attempt keeps from tick to tick                      *)
(* ===================================================================== *)

Module Keeps.

(** The filter has positive covariance and the noise parameters of
    [new]. *)
Definition sound_filter (kf : KalmanFilter.t) : Prop :=
  (0 < KalmanFilter.p kf)%Q /\ KalmanFilter.q kf = 1 # 10 /\
  KalmanFilter.r kf = 1 # 2.

(** The attempt holds the non-empty frame [first] with a least filtered
    motion of at most zero, and its estimate is not negative. *)
Definition holds_first (first : string) (a : Stabilizer.Attempt) : Prop :=
  Stabilizer.bestFrame a = first /\ is_empty first = false /\
  (exists least, Stabilizer.minFilteredMotion a = Some least /\
                 (least <= 0)%Q) /\
  (0 <= KalmanFilter.x (Stabilizer.kFilter a))%Q /\
  sound_filter (Stabilizer.kFilter a).

(** The attempt has seen no motion so far: its estimate is zero and the
    buffer it keeps, if any, has the contents [scene]. *)
Definition at_rest (scene : list Z) (a : Stabilizer.Attempt) : Prop :=
  (KalmanFilter.x (Stabilizer.kFilter a) == 0)%Q /\
  sound_filter (Stabilizer.kFilter a) /\
  forall prev, Stabilizer.prevData a = Some prev -> Motion.data prev = scene.

End Keeps.

(* ===================================================================== *)
(** ** More scenes                                                        *)
(* ===================================================================== *)

Module Scenes.

(** A camera on a tripod: the same buffer at every tick. *)
Definition tripod : list Stabilizer.Tick :=
  [ Stabilizer.shot 7 1000 "/9j/AAAA"; Stabilizer.shot 7 1200 "/9j/BBBB";
    Stabilizer.shot 7 1390 "/9j/CCCC"; Stabilizer.shot 7 1480 "/9j/DDDD" ].

(** A tick that finds a ref or a context missing. *)
Definition torn_down (time : Z) : Stabilizer.Tick :=
  {| Stabilizer.refsOk := false; Stabilizer.currData := Motion.flat 0;
     Stabilizer.currentFrame := EmptyString; Stabilizer.now := time |}.

(** A page that is left after the first sample, the timer going on. *)
Definition unplugged : list Stabilizer.Tick :=
  [ Stabilizer.shot 255 1000 "/9j/AAAA"; torn_down 1900;
    Stabilizer.shot 0 2800 "/9j/CCCC"; Stabilizer.shot 0 4600 "/9j/EEEE" ].

(** A camera that has no pixels yet: the canvas is 0 by 0 and the data
    URL has nothing after its comma. *)
Definition dark : list Stabilizer.Tick :=
  [ Stabilizer.shot 0 1000 EmptyString; Stabilizer.shot 0 1900 EmptyString;
    Stabilizer.shot 0 4600 EmptyString ].

End Scenes.

(* ===================================================================== *)
(** ** Texts made of white space                                          *)
(* ===================================================================== *)

Module Text.

(** A text made of white space only (or of nothing): the encoding of a
    sequence of white space code points. *)
Definition white_only (s : string) : Prop :=
  exists points,
    Forall (fun cp => In cp WHITE_SPACE) points /\
    Strings.String.list_ascii_of_string s = flat_map utf8 points.

(** A list of bytes that begins with a run of one to three bytes that
    [w] accepts. *)
Definition starts_white (w : list Strings.Ascii.ascii -> bool)
    (l : list Strings.Ascii.ascii) : Prop :=
  exists p rest,
    l = p ++ rest /\ (1 <= length p <= 3)%nat /\ w p = true.









End Text.

(* ===================================================================== *)
(** ** The remote service: [src/services/geminiService.ts]                *)
(* ===================================================================== *)

Module Service.
Import Retry.

Definition error : Type := string.

(** One part of a request. *)
Inductive Part : Type :=
| InlineData (data mimeType : string)
| TextPart (text : string).

(** What is handed to [ai.models.generateContent]: the model, the parts,
    and the three optional entries of [config] that [chatWithGemini] may
    set (the thinking budget, the maps tool, the location for it). *)
Record Request : Type := MkRequest {
  model : string;
  parts : list Part;
  thinkingBudget : option Z;
  mapsTool : bool;
  latLng : option (Q * Q)
}.

(** [value || fallback] on a string that may be undefined. *)
Definition orElse (value : option string) (fallback : string) : string :=
  match value with
  | Some text => if is_empty text then fallback else text
  | None => fallback
  end.

Definition COULD_NOT_IDENTIFY : string := "I couldn't identify the content.".

(** [describeImage], given how the request settles: with [response.text]
    (possibly undefined) or with an error. *)
Definition describeImage (response : outcome (option string) error)
    : outcome string error :=
  match response with
  | Fulfilled text => Fulfilled (orElse text COULD_NOT_IDENTIFY)
  | Rejected e => Rejected e
  end.

(** [generateSpeech], given how the request settles: with the inline
    audio of the first part of the first candidate (undefined when any
    link of that chain is missing) or with an error. *)
Definition generateSpeech (response : outcome (option string) error)
    : outcome string error :=
  match response with
  | Fulfilled (Some base64Audio) =>
      if is_empty base64Audio then Rejected "Audio generation failed"
      else Fulfilled base64Audio
  | Fulfilled None => Rejected "Audio generation failed"
  | Rejected e => Rejected e
  end.

(** The options of [chatWithGemini]; a flag left out counts as false. *)
Record ChatOptions : Type := MkChatOptions {
  isThinking : bool;
  isMaps : bool;
  location : option (Q * Q);
  file : option (string * string)     (* data, mimeType *)
}.

(** The request [chatWithGemini] builds. *)
Definition chatRequest (message : string) (options : ChatOptions) : Request :=
  {| model := if isMaps options then "gemini-2.5-flash"
              else "gemini-3-pro-preview";
     parts := match file options with
              | Some (data, mimeType) =>
                  [InlineData data mimeType; TextPart message]
              | None => [TextPart message]
              end;
     thinkingBudget :=
       if isThinking options && negb (isMaps options) then Some 32768
       else None;
     mapsTool := isMaps options;
     latLng := if isMaps options then location options else None |}.

(** The [maps.uri] of the grounding chunks that have a non-empty one, in
    order; [chunks = None]: the response has no grounding chunks. *)
Definition groundingUrls (chunks : option (list (option string)))
    : list string :=
  match chunks with
  | Some cs =>
      flat_map (fun uri =>
                  match uri with
                  | Some u => if is_empty u then [] else [u]
                  | None => []
                  end) cs
  | None => []
  end.

Record ChatReply : Type := MkChatReply {
  replyText : string;
  replyUrls : list string
}.

Definition NO_RESPONSE : string := "No response received.".

(** What [chatWithGemini] returns, given how the request settles. *)
Definition chatWithGemini
    (response : outcome (option string * option (list (option string))) error)
    : outcome ChatReply error :=
  match response with
  | Fulfilled (text, chunks) =>
      Fulfilled {| replyText := orElse text NO_RESPONSE;
                   replyUrls := groundingUrls chunks |}
  | Rejected e => Rejected e
  end.

Definition PNG_PREFIX : string := "data:image/png;base64,".

(** The loop of [generateImage] over the parts of the first candidate;
    a part is given by the data of its [inlineData], if it has one. *)
Fixpoint firstInline (parts : list (option string)) : string :=
  match parts with
  | [] => EmptyString
  | Some data :: _ => PNG_PREFIX +:+ data
  | None :: rest => firstInline rest
  end.

(** A world whose remote calls go through the two functions above. *)
Definition served (w : Visual.World) : Prop :=
  (forall frame mode i, exists response,
      Visual.describeImage w frame mode i = describeImage response) /\
  (forall text i, exists response,
      Visual.generateSpeech w text i = generateSpeech response).

(** A service that describes every image alike and speaks every text. *)
Definition chatty : Visual.World :=
  {| Visual.startTime := 0;
     Visual.ticks := [Stabilizer.shot 0 3000 "/9j/SIGN"];
     Visual.describeImage :=
       fun _ _ _ => describeImage (Fulfilled (Some "A green exit sign."));
     Visual.generateSpeech :=
       fun _ _ => generateSpeech (Fulfilled (Some "UklGRg=="));
     Visual.playAudio := fun _ => Fulfilled tt;
     Visual.recognize := fun _ => Fulfilled "  EXIT ONLY " |}.

End Service.

(* ===================================================================== *)
(** ** The rest of [HearingAssistant]: stopping, ended sources            *)
(* ===================================================================== *)

Module Listener.
Import Hearing.

(** The component: the state the message handler works on, the
    [isListening] flag and whether [sessionRef.current] is set. *)
Record Page : Type := MkPage {
  core : State;
  isListening : bool;
  sessionRef : bool
}.

(** [stopSession()]: the session is closed and forgotten, every live
    source is stopped, the set is cleared, the cursor is reset, and the
    flag and both buffers are cleared.  Closing the two audio contexts
    leaves their refs set. *)
Definition stopSession (p : Page) : Page :=
  let st := core p in
  {| core :=
       {| transcript := transcript st; currentInput := EmptyString;
          currentOutput := EmptyString; nextStartTime := 0; sources := ∅;
          outputContext := outputContext st; started := started st;
          stopped := sources st ∪ stopped st |};
     isListening := false;
     sessionRef := false |}.

(** What can happen to the playback side of a session. *)
Inductive Event : Type :=
| Inbound (env : Env) (msg : Message)   (* a message is handled *)
| Ended (source : nat).                 (* a source has played out *)

Definition handle (cl : Closure) (ev : Event) (st : State) : State :=
  match ev with
  | Inbound env msg => onmessage cl env msg st
  | Ended source => onended source st
  end.

Definition replay (cl : Closure) (events : list Event) (st : State) : State :=
  fold_left (fun s ev => handle cl ev s) events st.

(** The sources are numbered in the order they were started, and a
    source that is live or was stopped is one that was started; no live
    source has been stopped. *)
Definition tidy (st : State) : Prop :=
  map id (started st) = seq 0 (length (started st)) /\
  (forall i, i ∈ sources st ∪ stopped st -> (i < length (started st))%nat) /\
  sources st ## stopped st.

(** An entry with something other than white space in it. *)
Definition legible (e : TranscriptionEntry) : Prop :=
  ~ Text.white_only (text e).

(** The fragments of one side that a run of messages carries, joined in
    order. *)
Definition joined (side : Message -> option string)
    (inbox : list (Env * Message)) : string :=
  fold_right (fun em rest =>
                match side (snd em) with
                | Some fragment => fragment +:+ rest
                | None => rest
                end) EmptyString inbox.

End Listener.

(* ===================================================================== *)
(** ** Language tables: [LANGUAGES], [LANG_MAP_OCR], [LANG_MAP_TTS]       *)
(* ===================================================================== *)

Module Languages.

(** [LANGUAGES] of [src/constants.ts], the choices the settings offer. *)
Definition LANGUAGES : list string :=
  [ "English"; "Spanish"; "Urdu"; "Arabic"; "Chinese"; "French"; "Hindi";
    "Japanese" ].

(** The own entries of the two tables of [VisualAssistant.tsx]. *)
Definition LANG_MAP_OCR : gmap string string :=
  list_to_map
    [ ("English", "eng"); ("Spanish", "spa"); ("Urdu", "urd");
      ("Arabic", "ara"); ("Chinese", "chi_sim"); ("French", "fra");
      ("Hindi", "hin"); ("Japanese", "jpn") ].

Definition LANG_MAP_TTS : gmap string string :=
  list_to_map
    [ ("English", "en-US"); ("Spanish", "es-ES"); ("Urdu", "ur-PK");
      ("Arabic", "ar-SA"); ("Chinese", "zh-CN"); ("French", "fr-FR");
      ("Hindi", "hi-IN"); ("Japanese", "ja-JP") ].

(** [LANG_MAP_OCR[language] || 'eng'] *)
Definition ocrCode (language : string) : string :=
  Service.orElse (LANG_MAP_OCR !! language) "eng".

(** [LANG_MAP_TTS[language] || 'en-US'] *)
Definition ttsCode (language : string) : string :=
  Service.orElse (LANG_MAP_TTS !! language) "en-US".

End Languages.

(* ===================================================================== *)
(** ** The chat tab: [src/components/Assistant.tsx]                       *)
(* ===================================================================== *)

Module Chat.
Import Retry.

Inductive Role : Type := user | model.

Record ChatMessage : Type := MkChatMessage {
  role : Role;
  text : string;
  groundingUrls : option (list string)
}.

Record Attachment : Type := MkAttachment {
  data : string;
  mimeType : string;
  name : string
}.

Record State : Type := MkState {
  messages : list ChatMessage;
  input : string;
  isThinking : bool;
  useMaps : bool;
  isSending : bool;
  attachedFile : option Attachment
}.

Definition initial : State :=
  {| messages := []; input := EmptyString; isThinking := false;
     useMaps := false; isSending := false; attachedFile := None |}.

(** The two buttons of the header. *)
Definition toggleThinking (st : State) : State :=
  {| messages := messages st; input := input st;
     isThinking := negb (isThinking st); useMaps := false;
     isSending := isSending st; attachedFile := attachedFile st |}.

Definition toggleMaps (st : State) : State :=
  {| messages := messages st; input := input st; isThinking := false;
     useMaps := negb (useMaps st); isSending := isSending st;
     attachedFile := attachedFile st |}.

Inductive Click : Type := DeepThink | LocalSearch.

Definition click (st : State) (c : Click) : State :=
  match c with DeepThink => toggleThinking st | LocalSearch => toggleMaps st end.

(** What the outside answers during one [onSend]: the position, if it
    is asked for, and the response to the request. *)
Record Env : Type := MkEnv {
  position : outcome (Q * Q) Service.error;
  answer : Service.Request ->
           outcome (option string * option (list (option string)))
             Service.error
}.

Definition APOLOGY : string :=
  "I'm sorry, I encountered an error processing that request.".

(** The [finally] block, after the log has become [log]. *)
Definition settle (st : State) (log : list ChatMessage) : State :=
  {| messages := log; input := EmptyString; isThinking := isThinking st;
     useMaps := useMaps st; isSending := false; attachedFile := None |}.

(** [onSend()]: the new state and the request that went out, if one
    did. *)
Definition onSend (st : State) (env : Env) : State * option Service.Request :=
  if is_empty (input st) &&
     match attachedFile st with Some _ => false | None => true end
  then (st, None)
  else
    let userMsg :=
      {| role := user; text := input st; groundingUrls := None |} in
    let sorry :=
      {| role := model; text := APOLOGY; groundingUrls := None |} in
    let located :=
      if useMaps st then
        match position env with
        | Fulfilled pos => Some (Some pos)
        | Rejected _ => None
        end
      else Some None in
    match located with
    | None => (settle st (messages st ++ [userMsg; sorry]), None)
    | Some location =>
        let request :=
          Service.chatRequest (input st)
            {| Service.isThinking := isThinking st;
               Service.isMaps := useMaps st;
               Service.location := location;
               Service.file :=
                 match attachedFile st with
                 | Some f => Some (data f, mimeType f)
                 | None => None
                 end |} in
        match Service.chatWithGemini (answer env request) with
        | Fulfilled reply =>
            (settle st
               (messages st ++
                [ userMsg;
                  {| role := model; text := Service.replyText reply;
                     groundingUrls := Some (Service.replyUrls reply) |} ]),
             Some request)
        | Rejected _ =>
            (settle st (messages st ++ [userMsg; sorry]), Some request)
        end
    end.

(** What a call of [onSend] keeps of the render it was made in. *)
Record Call : Type := MkCall {
  c_input : string;
  c_isThinking : bool;
  c_useMaps : bool;
  c_file : option Attachment
}.

(** The tab: the state shown, and the calls of [onSend] that have reached
    an [await] and not come back yet. *)
Record Tab : Type := MkTab {
  shown : State;
  waiting : list Call
}.

Definition opened : Tab := {| shown := initial; waiting := [] |}.

(** [onSend()] up to its first [await]. *)
Definition begin (t : Tab) : Tab :=
  let st := shown t in
  if is_empty (input st) &&
     match attachedFile st with Some _ => false | None => true end
  then t
  else
    {| shown :=
         {| messages :=
              messages st ++
              [ {| role := user; text := input st; groundingUrls := None |} ];
            input := EmptyString; isThinking := isThinking st;
            useMaps := useMaps st; isSending := true;
            attachedFile := attachedFile st |};
       waiting :=
         waiting t ++
         [ {| c_input := input st; c_isThinking := isThinking st;
              c_useMaps := useMaps st; c_file := attachedFile st |} ] |}.

(** The [try] block of a call from its first [await] on: the message it
    appends, and the request that went out, if one did. *)
Definition answerTo (c : Call) (env : Env)
    : ChatMessage * option Service.Request :=
  let sorry :=
    {| role := model; text := APOLOGY; groundingUrls := None |} in
  let located :=
    if c_useMaps c then
      match position env with
      | Fulfilled pos => Some (Some pos)
      | Rejected _ => None
      end
    else Some None in
  match located with
  | None => (sorry, None)
  | Some location =>
      let request :=
        Service.chatRequest (c_input c)
          {| Service.isThinking := c_isThinking c;
             Service.isMaps := c_useMaps c;
             Service.location := location;
             Service.file :=
               match c_file c with
               | Some f => Some (data f, mimeType f)
               | None => None
               end |} in
      match Service.chatWithGemini (answer env request) with
      | Fulfilled reply =>
          ({| role := model; text := Service.replyText reply;
              groundingUrls := Some (Service.replyUrls reply) |},
           Some request)
      | Rejected _ => (sorry, Some request)
      end
  end.

(** The [k]-th waiting call comes back: its message is appended and the
    [finally] block runs. *)
Definition finish (k : nat) (env : Env) (t : Tab) : Tab :=
  match nth_error (waiting t) k with
  | None => t
  | Some c =>
      let st := shown t in
      {| shown :=
           {| messages := messages st ++ [fst (answerTo c env)];
              input := input st; isThinking := isThinking st;
              useMaps := useMaps st; isSending := false;
              attachedFile := None |};
         waiting := firstn k (waiting t) ++ skipn (S k) (waiting t) |}
  end.

(** What can happen on the tab.  The send button is disabled while
    [isSending] is on; the Enter key of the text area calls [onSend]
    whatever the flag says. *)
Inductive Event : Type :=
| Press (c : Click)
| Typed (value : string)            (* [onChange] of the text area *)
| Attached (f : Attachment)         (* [reader.onload] of [handleFileUpload] *)
| Detached                          (* the cross beside the file name *)
| Enter                             (* [onKeyDown], Enter without shift *)
| SendButton                        (* [onClick] of the send button *)
| Settled (k : nat) (env : Env).    (* the [k]-th waiting call comes back *)

Definition edit (t : Tab) (st : State) : Tab :=
  {| shown := st; waiting := waiting t |}.

Definition step (t : Tab) (ev : Event) : Tab :=
  let st := shown t in
  match ev with
  | Press c => edit t (click st c)
  | Typed value =>
      edit t
        {| messages := messages st; input := value;
           isThinking := isThinking st; useMaps := useMaps st;
           isSending := isSending st; attachedFile := attachedFile st |}
  | Attached f =>
      edit t
        {| messages := messages st; input := input st;
           isThinking := isThinking st; useMaps := useMaps st;
           isSending := isSending st; attachedFile := Some f |}
  | Detached =>
      edit t
        {| messages := messages st; input := input st;
           isThinking := isThinking st; useMaps := useMaps st;
           isSending := isSending st; attachedFile := None |}
  | Enter => begin t
  | SendButton => if isSending st then t else begin t
  | Settled k env => finish k env t
  end.

Definition play (events : list Event) (t : Tab) : Tab :=
  fold_left step events t.

(** A log made of questions, each followed by a reply that has a text. *)
Fixpoint paired (log : list ChatMessage) : Prop :=
  match log with
  | [] => True
  | question :: reply :: rest =>
      role question = user /\ role reply = model /\
      text reply <> EmptyString /\ paired rest
  | [_] => False
  end.

(** Reading a log from its start with [n] questions still without a
    reply: the number of questions without a reply at its end, or
    nothing if some reply comes with no question before it to answer. *)
Fixpoint owed (n : nat) (log : list ChatMessage) : option nat :=
  match log with
  | [] => Some n
  | m :: rest =>
      match role m with
      | user => owed (S n) rest
      | model => match n with O => None | S k => owed k rest end
      end
  end.

(** What holds of the tab between events: the two toggles are never both
    on, neither now nor in what a waiting call has kept; every reply has
    a text and answers an earlier question, the questions without a reply
    being as many as the waiting calls; and [isSending] is on only while
    a call is waiting. *)
Definition coherent (t : Tab) : Prop :=
  isThinking (shown t) && useMaps (shown t) = false /\
  Forall (fun c => c_isThinking c && c_useMaps c = false) (waiting t) /\
  owed 0 (messages (shown t)) = Some (length (waiting t)) /\
  Forall (fun m => role m = model -> text m <> EmptyString)
    (messages (shown t)) /\
  (isSending (shown t) = true -> waiting t <> []).

(** What holds besides when [onSend] is only ever called by the button:
    at most one call is waiting, and the log is made of pairs, followed
    by the question of the waiting call if there is one. *)
Definition serial (t : Tab) : Prop :=
  (waiting t = [] /\ isSending (shown t) = false /\
   paired (messages (shown t))) \/
  (exists c log question,
     waiting t = [c] /\ isSending (shown t) = true /\
     messages (shown t) = log ++ [question] /\
     paired log /\ role question = user).

(** Two questions sent with the Enter key, the second before the reply
    to the first, and then the two replies. *)
Definition overlapping (env : Env) : list Event :=
  [ Typed "What is a lease?"; Enter; Typed "And a sublease?"; Enter;
    Settled 0 env; Settled 0 env ].

(** A question typed with local search on, and a service that answers
    it with one place. *)
Definition asking : State :=
  {| messages := []; input := "pharmacy near me"; isThinking := false;
     useMaps := true; isSending := false; attachedFile := None |}.

Definition helpful : Env :=
  {| position := Fulfilled (24 # 1, 67 # 1);
     answer := fun _ =>
       Fulfilled (Some "There is one on Main Street.",
                  Some [Some "https://maps.example/1"; None]) |}.

End Chat.

(* ===================================================================== *)
(** ** The creative tab: [Creative] in [VisualAssistant.tsx]              *)
(* ===================================================================== *)

Module Studio.
Import Retry.

(** [s.startsWith(prefix)] *)
Fixpoint startsWith (s prefix : string) : bool :=
  match prefix, s with
  | EmptyString, _ => true
  | String p ps, String c cs =>
      if Strings.Ascii.eqb c p then startsWith cs ps else false
  | String _ _, EmptyString => false
  end.

(** [s.includes(needle)] *)
Fixpoint includes (s needle : string) : bool :=
  startsWith s needle ||
  match s with
  | EmptyString => false
  | String _ rest => includes rest needle
  end.

Record State : Type := MkState {
  prompt : string;
  selectedRatio : string;
  isGenerating : bool;
  resultImage : string;
  hasApiKey : bool;
  isCheckingKey : bool
}.

(** What was thrown: whether it is an [Error], and its message. *)
Record Thrown : Type := MkThrown {
  isError : bool;
  message : string
}.

Inductive Alert : Type :=
| ProjectNotFound       (* "Selected project not found. ..." *)
| GenerationFailed.     (* "Image generation failed. ..." *)

Definition NOT_FOUND : string := "Requested entity was not found".

(** [generateImage], given how the request settles: with the parts of
    the first candidate (each given by the data of its [inlineData], if it
    has one), or with something thrown. *)
Definition generateImage (response : outcome (list (option string)) Thrown)
    : outcome string Thrown :=
  match response with
  | Fulfilled parts => Fulfilled (Service.firstInline parts)
  | Rejected e => Rejected e
  end.

Definition set_result (st : State) (image : string) (key : bool) : State :=
  {| prompt := prompt st; selectedRatio := selectedRatio st;
     isGenerating := false; resultImage := image; hasApiKey := key;
     isCheckingKey := isCheckingKey st |}.

(** [onGenerate()]: the new state and the alert shown, if any. *)
Definition onGenerate (st : State)
    (response : outcome (list (option string)) Thrown)
    : State * option Alert :=
  if is_empty (prompt st) then (st, None)
  else
    match generateImage response with
    | Fulfilled url => (set_result st url (hasApiKey st), None)
    | Rejected e =>
        if isError e && includes (message e) NOT_FOUND
        then (set_result st (resultImage st) false, Some ProjectNotFound)
        else (set_result st (resultImage st) (hasApiKey st),
              Some GenerationFailed)
    end.

(** A studio with a key, a prompt and an earlier picture. *)
Definition ready : State :=
  {| prompt := "a city with ramps"; selectedRatio := "1:1";
     isGenerating := false; resultImage := "data:image/png;base64,AAAA";
     hasApiKey := true; isCheckingKey := false |}.

End Studio.

(* ===================================================================== *)
(** * Properties                                                          *)
(* ===================================================================== *)

(* ===================================================================== *)
(** ** The smoothing filter                                               *)
(* ===================================================================== *)

Section FilterFacts.
Import KalmanFilter.
Local Open Scope Q_scope.

(** With positive covariance and measurement noise the gain lies
    strictly between 0 and 1. *)
Lemma gain_between (p1 r0 : Q) :
  0 < p1 -> 0 < r0 -> 0 < p1 / (p1 + r0) /\ p1 / (p1 + r0) < 1.
Proof.
  intros Hp Hr. split.
  - apply Qlt_shift_div_l; lra.
  - apply Qlt_shift_div_r; lra.
Qed.

(** The noise parameters never change. *)
Lemma filter_keeps_noise (s : t) (m : Q) :
  q (snd (filter s m)) = q s /\ r (snd (filter s m)) = r s.
Proof. split; reflexivity. Qed.

Lemma feed_snoc (s : t) (ms : list Q) (m : Q) :
  feed s (ms ++ [m]) = snd (filter (feed s ms) m).
Proof. unfold feed. rewrite fold_left_app. reflexivity. Qed.

Lemma feed_keeps_noise (s : t) (ms : list Q) :
  q (feed s ms) = q s /\ r (feed s ms) = r s.
Proof.
  revert s. induction ms as [|m ms IH]; intros s; [split; reflexivity|].
  change (feed s (m :: ms)) with (feed (snd (filter s m)) ms).
  destruct (IH (snd (filter s m))) as [Hq Hr].
  rewrite Hq, Hr. apply filter_keeps_noise.
Qed.

(** One step keeps the covariance positive. *)
Lemma filter_keeps_p_positive (s : t) (m : Q) :
  0 < p s -> 0 < q s -> 0 < r s -> 0 < p (snd (filter s m)).
Proof.
  intros Hp Hq Hr. cbn.
  destruct (gain_between (p s + q s) (r s)) as [Hk0 Hk1]; [lra | lra |].
  nra.
Qed.

(** Whatever it has been fed, a filter created by [new] has positive
    covariance. *)
Lemma fresh_p_positive (ms : list Q) : 0 < p (feed new ms).
Proof.
  induction ms as [|m ms IH] using rev_ind.
  - reflexivity.
  - rewrite feed_snoc.
    destruct (feed_keeps_noise new ms) as [Hq Hr].
    apply filter_keeps_p_positive; [exact IH | rewrite Hq | rewrite Hr];
      reflexivity.
Qed.

(** A zero measurement pulls a positive estimate strictly down, but not
    to zero or below, and by a factor of at most 5/6. *)
Lemma zero_measurement_contracts (s : t) :
  0 < p s -> q s = 1 # 10 -> r s = 1 # 2 -> 0 < x s ->
  0 < fst (filter s 0) /\ fst (filter s 0) < x s /\
  fst (filter s 0) <= (5 # 6) * x s.
Proof.
  intros Hp Hq Hr Hx. cbn. rewrite Hq, Hr.
  destruct (gain_between (p s + (1 # 10)) (1 # 2)) as [Hk0 Hk1];
    [lra | lra |].
  assert (Hk : (1 # 6) <= (p s + (1 # 10)) / (p s + (1 # 10) + (1 # 2))).
  { apply Qle_shift_div_l; lra. }
  repeat split; nra.
Qed.

(** A filter created by [new] and fed zeros only never leaves zero. *)
Lemma fresh_zeros_stay_zero (n : nat) :
  x (feed new (repeat 0 n)) == 0.
Proof.
  induction n as [|n IH].
  - reflexivity.
  - replace (repeat 0 (S n)) with (repeat 0 n ++ [0])
      by (rewrite <- repeat_cons; reflexivity).
    rewrite feed_snoc. cbn.
    set (s := feed new (repeat 0 n)) in *.
    rewrite IH. ring.
Qed.

Lemma feed_app (s : t) (ms ms' : list Q) :
  feed s (ms ++ ms') = feed (feed s ms) ms'.
Proof. unfold feed. apply fold_left_app. Qed.

(** A run of [n] zero measurements keeps a positive estimate positive
    and brings it below [(5/6)^n] times what it was. *)
Lemma zeros_decay (history : list Q) (n : nat) :
  0 < x (feed new history) ->
  0 < x (feed new (history ++ repeat 0 n)) /\
  x (feed new (history ++ repeat 0 n)) <= decay n * x (feed new history).
Proof.
  intros Hpos. induction n as [|n [IHpos IHle]].
  - cbn [repeat decay]. rewrite app_nil_r. split; [exact Hpos | lra].
  - replace (repeat 0 (S n)) with (repeat 0 n ++ [0])
      by (rewrite <- repeat_cons; reflexivity).
    rewrite app_assoc, feed_snoc.
    set (s := feed new (history ++ repeat 0 n)) in *.
    destruct (feed_keeps_noise new (history ++ repeat 0 n)) as [Hq Hr].
    destruct (zero_measurement_contracts s) as (H0 & _ & H56);
      [apply fresh_p_positive | exact Hq | exact Hr | exact IHpos |].
    change (x (snd (filter s 0))) with (fst (filter s 0)).
    cbn [decay]. split; [exact H0 | nra].
Qed.

End FilterFacts.

(** C8.  Every call of [filter(measurement)] performs exactly the
    recursion [p <- p + q; k <- p / (p + r); x <- x + k (measurement - x);
    p <- (1 - k) p]: the new estimate and the new covariance are the ones
    the four equations give, the value returned is the new estimate, and
    the noise parameters [q] and [r] (0.1 and 0.5 in a new filter) are left
    as they were. *)
Theorem C8_filter_is_the_recursion (s : KalmanFilter.t) (m : Q) :
  let x0 := KalmanFilter.x s in
  let p0 := KalmanFilter.p s in
  let q0 := KalmanFilter.q s in
  let r0 := KalmanFilter.r s in
  KalmanFilter.filter s m =
    (KalmanFilter.spec_x x0 p0 q0 r0 m,
     {| KalmanFilter.x := KalmanFilter.spec_x x0 p0 q0 r0 m;
        KalmanFilter.p := KalmanFilter.spec_p p0 q0 r0;
        KalmanFilter.q := q0;
        KalmanFilter.r := r0 |}) /\
  KalmanFilter.q KalmanFilter.new = 1 # 10 /\
  KalmanFilter.r KalmanFilter.new = 1 # 2.
Proof.
  cbv zeta. split; [|split]; reflexivity.
Qed.

(* ===================================================================== *)
(** ** The motion scorer                                                  *)
(* ===================================================================== *)

Section MotionFacts.
Import Motion.

Lemma fold_add_zero {A : Type} (f : A -> Z) (l : list A) (acc : Z) :
  (forall a, f a = 0) -> fold_left (fun s a => s + f a) l acc = acc.
Proof.
  intros Hf. revert acc.
  induction l as [|a l IH]; intros acc; cbn; [reflexivity|].
  rewrite Hf, Z.add_0_r. apply IH.
Qed.

Lemma fold_keep {A : Type} (g : Z -> A -> Z) (l : list A) (acc : Z) :
  (forall s a, g s a = s) -> fold_left g l acc = acc.
Proof.
  intros Hg. revert acc.
  induction l as [|a l IH]; intros acc; cbn; [reflexivity|].
  rewrite Hg. apply IH.
Qed.

Lemma blockDiff_same (buf : list Z) (gy gx : Z) : blockDiff buf buf gy gx = 0.
Proof.
  unfold blockDiff. apply fold_keep. intros s y.
  apply (fold_add_zero
           (fun x => Z.abs (read buf (index gy gx y x) -
                            read buf (index gy gx y x)))).
  intros x. rewrite Z.sub_diag. reflexivity.
Qed.

Lemma gridDiff_same (buf : list Z) : gridDiff buf buf = 0.
Proof.
  unfold gridDiff. apply fold_keep. intros s gy.
  apply (fold_add_zero (fun gx => blockDiff buf buf gy gx)).
  intros gx. apply blockDiff_same.
Qed.

(** Every index the loops form lies inside an [ImageData] buffer, so no
    read falls back on the default. *)
Lemma index_in_range (gy gx y x : Z) :
  In gy (upto gridSize) -> In gx (upto gridSize) ->
  In y (evens_below blockSize) -> In x (evens_below blockSize) ->
  0 <= index gy gx y x < dataLength.
Proof.
  intros Hgy Hgx Hy Hx.
  assert (B : forall v, In v (upto gridSize) -> 0 <= v <= 3).
  { intros v Hv. cbv in Hv. intuition lia. }
  assert (C : forall v, In v (evens_below blockSize) -> 0 <= v <= 14).
  { intros v Hv. cbv in Hv. intuition lia. }
  apply B in Hgy, Hgx. apply C in Hy, Hx.
  unfold index, dataLength. change blockSize with 16. change mSize with 64.
  lia.
Qed.

Lemma read_in_range (d : ImageData) (idx : Z) :
  0 <= idx < dataLength ->
  nth_error (data d) (Z.to_nat idx) = Some (read (data d) idx).
Proof.
  intros Hidx. unfold read. apply nth_error_nth'.
  pose proof (data_length d) as Hlen. apply Z.eqb_eq in Hlen. lia.
Qed.

End MotionFacts.

(** C9.  Two identical consecutive frame buffers give MotionScore 0; so
    does the first sample, which has no previous frame.  And whatever a
    filter created by [new] has been fed before, whenever its estimate is
    positive a zero measurement makes the estimate strictly smaller while
    keeping it positive, shrinking it by a factor of at most 5/6; after
    [n] zero measurements in a row the estimate is still positive and at
    most [(5/6)^n] times what it was. *)
Theorem C9_still_frames_settle :
  (forall curr prev : Motion.ImageData,
      Motion.data curr = Motion.data prev ->
      Motion.rawMotionScore curr (Some prev) = 0) /\
  (forall curr : Motion.ImageData, Motion.rawMotionScore curr None = 0) /\
  (forall history : list Q,
      let s := KalmanFilter.feed KalmanFilter.new history in
      (0 < KalmanFilter.x s)%Q ->
      (0 < fst (KalmanFilter.filter s 0) /\
       fst (KalmanFilter.filter s 0) < KalmanFilter.x s /\
       fst (KalmanFilter.filter s 0) <= (5 # 6) * KalmanFilter.x s)%Q) /\
  (forall (history : list Q) (n : nat),
      let s := KalmanFilter.feed KalmanFilter.new history in
      let s' := KalmanFilter.feed KalmanFilter.new (history ++ repeat 0%Q n) in
      (0 < KalmanFilter.x s)%Q ->
      (0 < KalmanFilter.x s' /\
       KalmanFilter.x s' <= KalmanFilter.decay n * KalmanFilter.x s)%Q).
Proof.
  split; [|split; [|split]].
  - intros curr prev Hsame. cbn. rewrite Hsame. apply gridDiff_same.
  - reflexivity.
  - intros history s Hpos.
    destruct (feed_keeps_noise KalmanFilter.new history) as [Hq Hr].
    apply zero_measurement_contracts; [apply fresh_p_positive | | | exact Hpos];
      assumption.
  - intros history n s s' Hpos. apply zeros_decay. exact Hpos.
Qed.

Lemma C9_still_frames_settle_witness :
  Motion.rawMotionScore (Motion.flat 7) (Some (Motion.flat 7)) = 0 /\
  (let s := KalmanFilter.feed KalmanFilter.new [inject_Z 3072] in
   (0 < fst (KalmanFilter.filter s 0) /\
    fst (KalmanFilter.filter s 0) < KalmanFilter.x s /\
    fst (KalmanFilter.filter s 0) <= (5 # 6) * KalmanFilter.x s)%Q).
Proof.
  destruct C9_still_frames_settle as (Hsame & _ & Hdecay & _).
  split.
  - apply Hsame. reflexivity.
  - apply (Hdecay [inject_Z 3072]). reflexivity.
Defined.

(* ===================================================================== *)
(** ** The capture stabilizer                                             *)
(* ===================================================================== *)

Lemma Qltb_lt (a b : Q) : Qltb a b = true <-> (a < b)%Q.
Proof.
  unfold Qltb. rewrite negb_true_iff. split.
  - intros H. apply Qnot_le_lt. intros Hle.
    apply Qle_bool_iff in Hle. congruence.
  - intros H. destruct (Qle_bool b a) eqn:E; [|reflexivity].
    apply Qle_bool_iff in E. apply Qlt_not_le in H. contradiction.
Qed.

Lemma is_empty_true (s : string) : is_empty s = true <-> s = EmptyString.
Proof. destruct s; cbn; split; congruence. Qed.

Section StabilizerFacts.
Import Stabilizer.

Lemma checkMotion_abandons (a : Attempt) (t : Tick) :
  checkMotion a t = Abandoned <-> refsOk t = false.
Proof.
  unfold checkMotion. destruct (refsOk t); cbv [negb].
  - destruct (KalmanFilter.filter _ _) as [fm kf].
    destruct (_ || _); split; discriminate.
  - split; reflexivity.
Qed.

Lemma checkMotion_resolved (a : Attempt) (t : Tick) frame locked level a' :
  checkMotion a t = Resolved frame locked level a' ->
  startTime a' = startTime a /\ bestFrame a' = frame /\
  stabilityLevel a' = 100%Q /\
  locked = lockTest level (now t - startTime a) /\
  (locked = false -> timeoutTest (now t - startTime a) = true) /\
  frame_origin frame a t.
Proof.
  unfold checkMotion, frame_origin.
  destruct (refsOk t); cbv [negb]; [|discriminate].
  destruct (KalmanFilter.filter _ _) as [fm kf].
  destruct (lockTest _ _ || timeoutTest _) eqn:Exit; [|discriminate].
  intros [= <- <- <- <-]; cbn. repeat split.
  - intros Hl. rewrite Hl in Exit. exact Exit.
  - destruct (below_min fm (minFilteredMotion a)); cbn; [left; reflexivity|].
    destruct (is_empty (bestFrame a)) eqn:Em; [left | right; split]; reflexivity.
Qed.

Lemma checkMotion_rescheduled (a : Attempt) (t : Tick) a' :
  checkMotion a t = Rescheduled a' ->
  startTime a' = startTime a /\
  lockTest (stabilityLevel a') (now t - startTime a) = false /\
  timeoutTest (now t - startTime a) = false /\
  frame_origin (bestFrame a') a t.
Proof.
  unfold checkMotion, frame_origin.
  destruct (refsOk t); cbv [negb]; [|discriminate].
  destruct (KalmanFilter.filter _ _) as [fm kf].
  destruct (lockTest _ _ || timeoutTest _) eqn:Exit; [discriminate|].
  apply orb_false_iff in Exit as [Hl Ht].
  intros [= <-]; cbn. repeat split; try assumption.
  destruct (below_min fm (minFilteredMotion a)); cbn; [left; reflexivity|].
  destruct (is_empty (bestFrame a)) eqn:Em; [left | right; split]; reflexivity.
Qed.

Lemma lockTest_true (level : Q) (elapsed : Z) :
  lockTest level elapsed = true <-> (95 < level)%Q /\ 400 < elapsed.
Proof.
  unfold lockTest. rewrite andb_true_iff, Qltb_lt, Z.ltb_lt. reflexivity.
Qed.

Lemma run_exit_rule (ticks : list Tick) (a : Attempt) (log : list Sample)
    frame locked a' log' :
  Forall (went_on (startTime a)) log ->
  run a log ticks = Done frame locked a' log' ->
  exists t level older,
    log' = (t, level) :: older /\
    (locked = true -> (95 < level)%Q /\ 400 < t - startTime a) /\
    (locked = false -> MAX_DURATION <= t - startTime a) /\
    stabilityLevel a' = 100%Q /\
    Forall (went_on (startTime a)) older.
Proof.
  revert a log. induction ticks as [|t rest IH]; intros a log Hlog; cbn.
  - discriminate.
  - destruct (checkMotion a t) as [|f l lev a1|a1] eqn:Step.
    + discriminate.
    + intros [= <- <- <- <-].
      apply checkMotion_resolved in Step
        as (_ & _ & Hlevel & Hlocked & Htimeout & _).
      exists (now t), lev, log.
      split; [reflexivity|]. split; [|split; [|split; assumption]].
      * intros Hl. rewrite Hl in Hlocked. symmetry in Hlocked.
        apply lockTest_true in Hlocked. exact Hlocked.
      * intros Hl. apply Htimeout in Hl. unfold timeoutTest in Hl.
        apply Z.leb_le in Hl. exact Hl.
    + intros Hrun.
      apply checkMotion_rescheduled in Step as (Hstart & Hl & Ht & _).
      rewrite <- Hstart. eapply IH; [|exact Hrun].
      rewrite Hstart. constructor; [|exact Hlog].
      split; cbn.
      * intros Hboth. apply lockTest_true in Hboth. congruence.
      * unfold timeoutTest in Ht. apply Z.leb_gt in Ht. exact Ht.
Qed.

Lemma run_resolves (ticks : list Tick) (a : Attempt) (log : list Sample) :
  Forall (fun t => refsOk t = true) ticks ->
  Exists (fun t => MAX_DURATION <= now t - startTime a) ticks ->
  exists frame locked a' log',
    run a log ticks = Done frame locked a' log' /\
    bestFrame a' = frame /\
    (In frame (map currentFrame ticks) \/
     (frame = bestFrame a /\ is_empty (bestFrame a) = false)).
Proof.
  revert a log. induction ticks as [|t rest IH]; intros a log Hok Hlate.
  - inversion Hlate.
  - cbn. inversion Hok as [|? ? Hok_t Hok_rest]; subst.
    destruct (checkMotion a t) as [|f l lev a1|a1] eqn:Step.
    + apply checkMotion_abandons in Step. congruence.
    + apply checkMotion_resolved in Step as (_ & Hbest & _ & _ & _ & Horigin).
      exists f, l, a1, ((now t, lev) :: log).
      repeat split; [assumption|].
      destruct Horigin as [-> | [-> Hne]]; [left; left; reflexivity|].
      right; split; [reflexivity | exact Hne].
    + apply checkMotion_rescheduled in Step as (Hstart & _ & Ht & Horigin).
      assert (Hlate' : Exists (fun t0 => MAX_DURATION <= now t0 - startTime a1)
                         rest).
      { rewrite Hstart. inversion Hlate as [? ? Hnow | ? ? Hrest]; subst.
        - unfold timeoutTest in Ht. apply Z.leb_gt in Ht. lia.
        - exact Hrest. }
      destruct (IH a1 ((now t, stabilityLevel a1) :: log) Hok_rest Hlate')
        as (f & l & a' & log' & Hrun & Hbest & Hfrom).
      exists f, l, a', log'. repeat split; [assumption | assumption |].
      destruct Hfrom as [Hin | [Heq Hne]]; [left; right; exact Hin|].
      destruct Horigin as [Hcur | [Hold Hne_old]].
      * left; left. congruence.
      * right. split; congruence.
Qed.

End StabilizerFacts.

(** The jolt scene locks at its sixth tick, 425 ms into the attempt,
    although the level was below 95 at the tick 85 ms before. *)
Lemma jolt_locks_at_once :
  match Stabilizer.getStabilizedFrame 1000 Stabilizer.jolt with
  | Stabilizer.Done _ locked _ log =>
      locked = true /\ Stabilizer.dwell 1000 log = 85 /\
      map fst log = [1425; 1340; 1255; 1170; 1085; 1000] /\
      map (fun smp => Qltb 95 (snd smp)) log =
        [true; false; true; true; true; true]
  | _ => False
  end.
Proof. vm_compute. repeat split. Qed.

(** C1, as worded: a lock would need the level to have been above the
    threshold, without a break, for the settle duration.  The jolt scene
    refutes it. *)
Lemma C1_lock_without_settling : ~ Stabilizer.locks_only_after_settling.
Proof.
  intros Hclaim. pose proof jolt_locks_at_once as Hjolt.
  destruct (Stabilizer.getStabilizedFrame 1000 Stabilizer.jolt)
    as [|?|frame locked a log] eqn:Hrun; try contradiction.
  destruct Hjolt as (-> & Hdwell & _).
  pose proof (Hclaim _ _ _ _ _ Hrun) as Hsettled.
  rewrite Hdwell in Hsettled. unfold Stabilizer.SETTLE in Hsettled. lia.
Qed.

(** C1, amended.  An attempt that resolves does so at its latest sample.
    If it locked, then at that sample the stability level was above 95
    and more than 400 ms had passed since the attempt began (however
    briefly the level had been above 95); if it did not lock, at least
    [MAX_DURATION] = 3000 ms had passed.  Either way the stability level
    is then forced to 100, and no earlier sample of the attempt met
    either condition. *)
Theorem C1_lock_rule (start : Z) (ticks : list Stabilizer.Tick)
    (frame : string) (locked : bool) (a : Stabilizer.Attempt)
    (log : list Stabilizer.Sample) :
  Stabilizer.getStabilizedFrame start ticks = Stabilizer.Done frame locked a log ->
  exists t level older,
    log = (t, level) :: older /\
    (locked = true -> (95 < level)%Q /\ 400 < t - start) /\
    (locked = false -> Stabilizer.MAX_DURATION <= t - start) /\
    Stabilizer.stabilityLevel a = 100%Q /\
    Forall (fun smp =>
              ~ ((95 < snd smp)%Q /\ 400 < fst smp - start) /\
              fst smp - start < Stabilizer.MAX_DURATION) older.
Proof.
  intros Hrun.
  apply (run_exit_rule ticks (Stabilizer.begin start) [] frame locked a log);
    [constructor | exact Hrun].
Qed.

Lemma C1_lock_rule_witness :
  exists frame locked a log,
    Stabilizer.getStabilizedFrame 1000 Stabilizer.jolt =
      Stabilizer.Done frame locked a log /\
    exists t level older,
      log = (t, level) :: older /\
      (locked = true -> (95 < level)%Q /\ 400 < t - 1000) /\
      (locked = false -> Stabilizer.MAX_DURATION <= t - 1000) /\
      Stabilizer.stabilityLevel a = 100%Q /\
      Forall (fun smp =>
                ~ ((95 < snd smp)%Q /\ 400 < fst smp - 1000) /\
                fst smp - 1000 < Stabilizer.MAX_DURATION) older.
Proof.
  pose proof jolt_locks_at_once as Hjolt.
  destruct (Stabilizer.getStabilizedFrame 1000 Stabilizer.jolt)
    as [|?|frame locked a log] eqn:Hrun; try contradiction.
  exists frame, locked, a, log. split; [reflexivity|].
  apply (C1_lock_rule 1000 Stabilizer.jolt frame locked a log Hrun).
Defined.

(** The first sample of an attempt always becomes the candidate. *)
Lemma first_sample_is_recorded (start : Z) (t : Stabilizer.Tick) :
  Stabilizer.refsOk t = true ->
  match Stabilizer.checkMotion (Stabilizer.begin start) t with
  | Stabilizer.Abandoned => False
  | Stabilizer.Resolved frame _ _ a' =>
      frame = Stabilizer.currentFrame t /\
      Stabilizer.bestFrame a' = Stabilizer.currentFrame t
  | Stabilizer.Rescheduled a' =>
      Stabilizer.bestFrame a' = Stabilizer.currentFrame t
  end.
Proof.
  intros Hok.
  destruct (Stabilizer.checkMotion (Stabilizer.begin start) t)
    as [|f l lev a1|a1] eqn:Step.
  - apply checkMotion_abandons in Step. congruence.
  - apply checkMotion_resolved in Step as (_ & Hbest & _ & _ & _ & Horigin).
    destruct Horigin as [-> | [_ Hne]]; [split; [reflexivity | exact Hbest]|].
    discriminate Hne.
  - apply checkMotion_rescheduled in Step as (_ & _ & _ & Horigin).
    destruct Horigin as [-> | [_ Hne]]; [reflexivity | discriminate Hne].
Qed.

(* ===================================================================== *)
(** ** The retry wrapper                                                  *)
(* ===================================================================== *)

Section RetryFacts.
Import Retry.
Context {T E : Type}.
Variable task : nat -> outcome T E.
Variables maxRetries delay : Z.

(** The loop body, read off the source. *)
Lemma loop_body (attempt : Z) (calls : nat) (slept : list Z) :
  loop task maxRetries delay attempt calls slept =
  if attempt <=? maxRetries then
    match task calls with
    | Fulfilled v => MkReport (Returned v) (S calls) slept
    | Rejected e =>
        if attempt =? maxRetries
        then MkReport (Rethrown e) (S calls) slept
        else loop task maxRetries delay (attempt + 1) (S calls)
               (slept ++ [delay])
    end
  else MkReport Unexpected calls slept.
Proof.
  rewrite loop_equation_1.
  destruct (Z_le_gt_dec attempt maxRetries) as [Hle|Hgt]; simp loop.
  - destruct (Z.leb_spec attempt maxRetries); [|lia].
    destruct (task calls) as [v|e]; simp loop; [reflexivity|].
    destruct (Z.eq_dec attempt maxRetries) as [Heq|Hne]; simp loop.
    + destruct (Z.eqb_spec attempt maxRetries); [reflexivity|lia].
    + destruct (Z.eqb_spec attempt maxRetries); [lia|reflexivity].
  - destruct (Z.leb_spec attempt maxRetries); [lia|reflexivity].
Qed.

(** [k] failures in a row, with budget to spare, take the loop [k] rounds
    further, waiting [delay] after each. *)
Lemma loop_after_failures (k : nat) (attempt : Z) (calls : nat)
    (slept : list Z) :
  (forall i, (i < k)%nat -> exists e, task (calls + i)%nat = Rejected e) ->
  attempt + Z.of_nat k <= maxRetries ->
  loop task maxRetries delay attempt calls slept =
  loop task maxRetries delay (attempt + Z.of_nat k) (calls + k)%nat
    (slept ++ repeat delay k).
Proof.
  revert attempt calls slept.
  induction k as [|k IH]; intros attempt calls slept Hfail Hroom.
  - cbn. rewrite Z.add_0_r, Nat.add_0_r, app_nil_r. reflexivity.
  - rewrite loop_body.
    destruct (Z.leb_spec attempt maxRetries); [|lia].
    destruct (Hfail 0%nat) as [e He]; [lia|].
    rewrite Nat.add_0_r in He. rewrite He.
    destruct (Z.eqb_spec attempt maxRetries); [lia|].
    rewrite IH.
    + replace (attempt + 1 + Z.of_nat k) with (attempt + Z.of_nat (S k)) by lia.
      replace (S calls + k)%nat with (calls + S k)%nat by lia.
      rewrite <- app_assoc. reflexivity.
    + intros i Hi. destruct (Hfail (S i)) as [e' He']; [lia|].
      exists e'. rewrite <- He'. f_equal. lia.
    + lia.
Qed.

(** Entered with budget left, the loop ends in the value or in the error
    of the last invocation it made, after at most one invocation per
    remaining attempt. *)
Lemma loop_settles (n : nat) :
  forall (attempt : Z) (calls : nat) (slept : list Z),
    attempt <= maxRetries -> Z.to_nat (maxRetries - attempt) = n ->
    let r := loop task maxRetries delay attempt calls slept in
    (calls < invocations r <= calls + n + 1)%nat /\
    ((exists v, result r = Returned v /\
                task (invocations r - 1)%nat = Fulfilled v) \/
     (exists e, result r = Rethrown e /\
                task (invocations r - 1)%nat = Rejected e /\
                invocations r = (calls + n + 1)%nat)).
Proof.
  induction n as [|n IH]; intros attempt calls slept Hle Hn r; subst r;
    rewrite loop_body;
    (destruct (Z.leb_spec attempt maxRetries); [|lia]);
    destruct (task calls) as [v|e] eqn:Hcall; cbn [result invocations].
  - split; [lia|]. left. exists v. rewrite Nat.sub_succ, Nat.sub_0_r. auto.
  - destruct (Z.eqb_spec attempt maxRetries); [|lia]. cbn [result invocations].
    split; [lia|]. right. exists e. rewrite Nat.sub_succ, Nat.sub_0_r.
    repeat split; [assumption | lia].
  - split; [lia|]. left. exists v. rewrite Nat.sub_succ, Nat.sub_0_r. auto.
  - destruct (Z.eqb_spec attempt maxRetries); [lia|].
    destruct (IH (attempt + 1) (S calls) (slept ++ [delay])) as [Hcount Hend];
      [lia | lia |].
    split; [lia|].
    destruct Hend as [(v & Hv & Hlast) | (e' & He' & Hlast & Hall)].
    + left. exists v. auto.
    + right. exists e'. repeat split; [assumption | assumption | lia].
Qed.

(** Without the guard on the budget the made-up error does come out. *)
Lemma negative_budget_is_unexpected :
  maxRetries < 0 ->
  retryTask task maxRetries delay = MkReport Unexpected 0 [].
Proof.
  intros Hneg. unfold retryTask. rewrite loop_body.
  destruct (Z.leb_spec 0 maxRetries); [lia | reflexivity].
Qed.

End RetryFacts.

(** C2.  Let the task fail on its first [N] invocations and then succeed
    with [v], and let the budget [maxRetries] be a count of retries (not
    negative).  If [N <= maxRetries], [retryTask] returns [v] after exactly
    [N + 1] invocations, having waited [delay] after each failure.  If
    [maxRetries < N], it invokes the task exactly [maxRetries + 1] times
    and rethrows the error of the last of these invocations, having waited
    [delay] between them.  The defaults are 2 retries and 1000 ms. *)
Theorem C2_retry_budget {T E : Type} (task : nat -> Retry.outcome T E)
    (N : nat) (v : T) (maxRetries delay : Z) :
  0 <= maxRetries ->
  Retry.fails_then_succeeds task N v ->
  let r := Retry.retryTask task maxRetries delay in
  (Z.of_nat N <= maxRetries ->
     Retry.result r = Retry.Returned v /\
     Retry.invocations r = (N + 1)%nat /\
     Retry.sleeps r = repeat delay N) /\
  (maxRetries < Z.of_nat N ->
     Z.of_nat (Retry.invocations r) = maxRetries + 1 /\
     (exists e, task (Retry.invocations r - 1)%nat = Retry.Rejected e /\
                Retry.result r = Retry.Rethrown e) /\
     Retry.sleeps r = repeat delay (Z.to_nat maxRetries)) /\
  Retry.retryTask_default task = Retry.retryTask task 2 1000.
Proof.
  intros Hbudget [Hfail Hgood] r. subst r. unfold Retry.retryTask.
  split; [|split; [|reflexivity]].
  - intros Hroom.
    rewrite (loop_after_failures task maxRetries delay N 0 0%nat []);
      [| intros i Hi; apply Hfail; exact Hi | lia].
    rewrite loop_body, Z.add_0_l. cbn [Nat.add app].
    destruct (Z.leb_spec (Z.of_nat N) maxRetries); [|lia].
    rewrite Hgood. cbn [Retry.result Retry.invocations Retry.sleeps].
    split; [reflexivity|]. split; [lia | reflexivity].
  - intros Hshort.
    assert (Hm : (Z.to_nat maxRetries < N)%nat) by lia.
    rewrite (loop_after_failures task maxRetries delay (Z.to_nat maxRetries)
               0 0%nat []);
      [| intros i Hi; apply Hfail; lia | lia].
    rewrite loop_body, Z.add_0_l. cbn [Nat.add app].
    destruct (Z.leb_spec (Z.of_nat (Z.to_nat maxRetries)) maxRetries); [|lia].
    destruct (Hfail (Z.to_nat maxRetries) Hm) as [e He]. rewrite He.
    destruct (Z.eqb_spec (Z.of_nat (Z.to_nat maxRetries)) maxRetries); [|lia].
    cbn [Retry.result Retry.invocations Retry.sleeps].
    split; [lia|]. split; [|reflexivity].
    exists e. rewrite Nat.sub_succ, Nat.sub_0_r. auto.
Qed.

Lemma C2_retry_budget_witness :
  let task := Retry.flaky 2 "done" in
  (Retry.result (Retry.retryTask task 2 1000) = Retry.Returned "done" /\
   Retry.invocations (Retry.retryTask task 2 1000) = 3%nat /\
   Retry.sleeps (Retry.retryTask task 2 1000) = [1000; 1000]) /\
  (Z.of_nat (Retry.invocations (Retry.retryTask task 1 1000)) = 2 /\
   (exists e, task (Retry.invocations (Retry.retryTask task 1 1000) - 1)%nat =
                Retry.Rejected e /\
              Retry.result (Retry.retryTask task 1 1000) = Retry.Rethrown e) /\
   Retry.sleeps (Retry.retryTask task 1 1000) = [1000]).
Proof.
  intros task.
  assert (Hflaky : Retry.fails_then_succeeds task 2 "done").
  { split; [|reflexivity].
    intros i Hi. exists i. unfold task, Retry.flaky.
    destruct (Nat.ltb_spec i 2); [reflexivity | lia]. }
  split.
  - apply (C2_retry_budget task 2 "done" 2 1000); [lia | exact Hflaky | lia].
  - apply (C2_retry_budget task 2 "done" 1 1000); [lia | exact Hflaky | lia].
Defined.

(** C10.  With a budget that is not negative, [retryTask] ends after at
    least one and at most [maxRetries + 1] invocations of the task, either
    returning the value the last invocation produced or rethrowing the
    error the last, [maxRetries + 1]-th, invocation threw; it never ends in
    the made-up "Unexpected retry failure". *)
Theorem C10_retry_never_unexpected {T E : Type}
    (task : nat -> Retry.outcome T E) (maxRetries delay : Z) :
  0 <= maxRetries ->
  let r := Retry.retryTask task maxRetries delay in
  (1 <= Retry.invocations r <= Z.to_nat maxRetries + 1)%nat /\
  ((exists v, Retry.result r = Retry.Returned v /\
              task (Retry.invocations r - 1)%nat = Retry.Fulfilled v) \/
   (exists e, Retry.result r = Retry.Rethrown e /\
              task (Retry.invocations r - 1)%nat = Retry.Rejected e /\
              Retry.invocations r = (Z.to_nat maxRetries + 1)%nat)) /\
  Retry.result r <> Retry.Unexpected.
Proof.
  intros Hbudget r.
  destruct (loop_settles task maxRetries delay (Z.to_nat maxRetries)
              0 0%nat []) as [Hcount Hend]; [lia | f_equal; lia |].
  fold (Retry.retryTask task maxRetries delay) in Hcount, Hend. fold r in Hcount, Hend.
  split; [lia|]. split; [exact Hend|].
  destruct Hend as [(v & Hv & _) | (e & He & _)]; congruence.
Qed.

Lemma C10_retry_never_unexpected_witness :
  let r := Retry.retryTask (Retry.flaky 5 "late") 2 1000 in
  (1 <= Retry.invocations r <= 3)%nat /\
  ((exists v, Retry.result r = Retry.Returned v /\
              Retry.flaky 5 "late" (Retry.invocations r - 1)%nat =
                Retry.Fulfilled v) \/
   (exists e, Retry.result r = Retry.Rethrown e /\
              Retry.flaky 5 "late" (Retry.invocations r - 1)%nat =
                Retry.Rejected e /\
              Retry.invocations r = 3%nat)) /\
  Retry.result r <> Retry.Unexpected.
Proof.
  apply (C10_retry_never_unexpected (Retry.flaky 5 "late") 2 1000). lia.
Defined.

(* ===================================================================== *)
(** ** The visual path                                                    *)
(* ===================================================================== *)




(* ===================================================================== *)
(** ** The playback scheduler                                             *)
(* ===================================================================== *)

Section SchedulerFacts.
Import Hearing.
Local Open Scope Q_scope.

(** What a message without the interruption flag does to the scheduler:
    nothing; or it clamps the cursor and decoding throws; or it clamps
    the cursor, starts a new source there and moves the cursor on by the
    duration of the buffer divided by the playback rate. *)
Lemma onmessage_scheduler (cl : Closure) (env : Env) (msg : Message)
    (st : State) :
  interrupted msg = false ->
  let st' := onmessage cl env msg st in
  let cursor := Qmax (nextStartTime st) (currentTime env) in
  (has_audio msg && outputContext st = false /\
   nextStartTime st' = nextStartTime st /\ started st' = started st /\
   sources st' = sources st) \/
  (nextStartTime st' = cursor /\ started st' = started st /\
   sources st' = sources st /\ decoded env = None) \/
  (exists d, decoded env = Some d /\ has_audio msg = true /\
     outputContext st = true /\
     nextStartTime st' = cursor + d / cl_speechRate cl /\
     started st' =
       started st ++
       [ {| id := length (started st); duration := d;
            playbackRate := cl_speechRate cl; startAt := cursor |} ] /\
     sources st' = {[ length (started st) ]} ∪ sources st).
Proof.
  intros Hflag. unfold onmessage, playback. rewrite Hflag.
  destruct msg as [it ot au intr tc]; cbn in *.
  destruct st as [tr ci co nst src ctx sta sto].
  unfold accumulate; cbn.
  destruct it, ot; cbn; destruct (has_audio _ && ctx) eqn:Haud; cbn;
    try (destruct (decoded env) as [d|] eqn:Hdec; cbn); destruct tc; cbn;
    auto 10.
  all: right; right; exists d; apply andb_true_iff in Haud as [-> ->]; auto 10.
Qed.








(** A source that ends by itself leaves the live set; cursor and log
    stay as they are. *)
Lemma onended_only_forgets (source : nat) (st : State) :
  sources (onended source st) = sources st ∖ {[ source ]} /\
  nextStartTime (onended source st) = nextStartTime st /\
  started (onended source st) = started st /\
  stopped (onended source st) = stopped st.
Proof. repeat split. Qed.

End SchedulerFacts.



(** C5.  However many sources have been scheduled, a message carrying the
    interruption flag (whose own audio, if it has any, decodes) leaves the
    set of live sources empty and the cursor at 0, and has called [stop]
    on every source that was live.  A chunk handled next is started at
    [max(0, clock)], hence at or after the clock reading, whatever the
    cursor was before the interruption; it is then the only live
    source. *)
Theorem C5_interruption_resets (cl : Hearing.Closure) (env : Hearing.Env)
    (msg : Hearing.Message) (st : Hearing.State) :
  Hearing.interrupted msg = true ->
  (Hearing.has_audio msg = true -> Hearing.decoded env <> None) ->
  let st' := Hearing.onmessage cl env msg st in
  Hearing.sources st' = ∅ /\
  Hearing.nextStartTime st' = 0%Q /\
  Hearing.sources st ⊆ Hearing.stopped st' /\
  forall (env2 : Hearing.Env) (base64Audio : string) (d : Q),
    is_empty base64Audio = false ->
    Hearing.outputContext st = true ->
    Hearing.decoded env2 = Some d ->
    let st'' := Hearing.onmessage cl env2 (Hearing.chunk base64Audio) st' in
    exists source,
      Hearing.started st'' = Hearing.started st' ++ [source] /\
      Hearing.startAt source = Qmax 0 (Hearing.currentTime env2) /\
      (Hearing.currentTime env2 <= Hearing.startAt source)%Q /\
      Hearing.sources st'' = {[ Hearing.id source ]}.
Proof.
  intros Hflag Hdecodes st'.
  assert (Hreset : Hearing.sources st' = ∅ /\
                   Hearing.nextStartTime st' = 0%Q /\
                   Hearing.sources st ⊆ Hearing.stopped st' /\
                   Hearing.outputContext st' = Hearing.outputContext st).
  { subst st'. unfold Hearing.onmessage, Hearing.playback. rewrite Hflag.
    destruct msg as [it ot au intr tc]; cbn in *.
    destruct st as [tr ci co nst src ctx sta sto].
    unfold Hearing.accumulate; cbn.
    destruct it, ot; cbn; destruct (Hearing.has_audio _ && ctx) eqn:Haud; cbn;
      try (destruct (Hearing.decoded env) as [d|] eqn:Hdec; cbn);
      try (apply andb_true_iff in Haud as [Haud _];
           exfalso; apply (Hdecodes Haud); reflexivity);
      destruct tc; cbn; repeat split; set_solver. }
  destruct Hreset as (Hlive & Hcursor & Hstopped & Hctx).
  repeat split; try assumption.
  intros env2 base64Audio d Hdata Hopen Hdec st''.
  assert (Haudio : Hearing.has_audio (Hearing.chunk base64Audio) = true).
  { cbn. rewrite Hdata. reflexivity. }
  destruct (onmessage_scheduler cl env2 (Hearing.chunk base64Audio) st' eq_refl)
    as [(Hoff & _) | [(_ & _ & _ & Hnone) | (d' & _ & _ & _ & _ & Hs & Hl)]].
  - rewrite Haudio, Hctx, Hopen in Hoff. discriminate Hoff.
  - congruence.
  - eexists. split; [exact Hs|]. cbn. rewrite Hcursor.
    split; [reflexivity|]. split; [apply Q.le_max_r|].
    fold st'' in Hl. rewrite Hl, Hlive. apply union_empty_r_L.
Qed.

Lemma C5_interruption_resets_witness :
  let cl := fst Hearing.opened in
  let st := Hearing.session cl Hearing.three_chunks (snd Hearing.opened) in
  let st' := Hearing.onmessage cl (Hearing.at_clock 3 0 4000) Hearing.barge_in st in
  Hearing.sources st' = ∅ /\
  Hearing.nextStartTime st' = 0%Q /\
  Hearing.sources st ⊆ Hearing.stopped st' /\
  exists source,
    Hearing.started
      (Hearing.onmessage cl (Hearing.at_clock (7 # 2) (1 # 2) 4500)
         (Hearing.chunk "DDDD") st') = Hearing.started st' ++ [source] /\
    Hearing.startAt source = Qmax 0 (7 # 2) /\
    (7 # 2 <= Hearing.startAt source)%Q.
Proof.
  intros cl st st'.
  destruct (C5_interruption_resets cl (Hearing.at_clock 3 0 4000)
              Hearing.barge_in st) as (Hlive & Hcursor & Hstopped & Hnext).
  - reflexivity.
  - discriminate.
  - repeat split; try assumption.
    destruct (Hnext (Hearing.at_clock (7 # 2) (1 # 2) 4500) "DDDD" (1 # 2))
      as (source & Hs & Hat & Hle & _).
    + reflexivity.
    + vm_compute. reflexivity.
    + reflexivity.
    + exists source. auto.
Defined.

(* ===================================================================== *)
(** ** The turn accumulator                                               *)
(* ===================================================================== *)

Section TurnFacts.
Import Hearing.

(** What the turn-complete block does to the log: the old entries pass
    through the filter, then come at most two new ones, the captured side
    first, with the clock readings as timestamps and the texts of the
    closure; both buffers are emptied. *)
Lemma finalize_log (cl : Closure) (env : Env) (st : State) :
  transcript (finalize cl env st) =
    List.filter non_blank (transcript st) ++
    List.filter non_blank
      [ {| text := cl_currentInput cl; timestamp := nowInput env;
           speaker := user |};
        {| text := cl_currentOutput cl; timestamp := nowOutput env;
           speaker := model |} ] /\
  currentInput (finalize cl env st) = EmptyString /\
  currentOutput (finalize cl env st) = EmptyString.
Proof.
  unfold finalize; cbn. rewrite List.filter_app. repeat split.
Qed.

Lemma filter_keeps_all {A : Type} (f : A -> bool) (l : list A) :
  Forall (fun a => f a = true) l -> List.filter f l = l.
Proof.
  induction 1 as [|a l Ha _ IH]; cbn; [reflexivity|].
  rewrite Ha, IH. reflexivity.
Qed.

(** A log without blank entries is kept as it is, and grows by at most
    two entries. *)
Lemma finalize_keeps_clean_log (cl : Closure) (env : Env) (st : State) :
  Forall (fun e => non_blank e = true) (transcript st) ->
  exists added,
    transcript (finalize cl env st) = transcript st ++ added /\
    (length added <= 2)%nat.
Proof.
  intros Hclean. destruct (finalize_log cl env st) as (Hlog & _).
  rewrite Hlog, (filter_keeps_all _ _ Hclean).
  eexists. split; [reflexivity|].
  cbn. repeat (destruct (non_blank _)); cbn; lia.
Qed.

(** A session opened with empty buffers never logs anything: at every
    turn end both new entries carry the empty texts of the closure. *)
Lemma empty_closure_logs_nothing (cl : Closure)
    (inbox : list (Env * Message)) :
  forall st : State,
    cl_currentInput cl = EmptyString -> cl_currentOutput cl = EmptyString ->
    transcript st = [] ->
    transcript (session cl inbox st) = [].
Proof.
  induction inbox as [|[env msg] inbox IH]; intros st Hin Hout Hlog;
    [exact Hlog|].
  change (session cl ((env, msg) :: inbox) st)
    with (session cl inbox (onmessage cl env msg st)).
  apply IH; [assumption | assumption |].
  unfold onmessage, playback, finalize.
  destruct msg as [it ot au intr tc]; cbn.
  destruct st as [tr ci co nst src ctx sta sto]; cbn in *. subst tr.
  rewrite Hin, Hout.
  unfold accumulate; cbn.
  destruct it, ot; cbn; destruct (has_audio _ && ctx); cbn;
    try (destruct (decoded env); cbn); destruct intr, tc; reflexivity.
Qed.

End TurnFacts.

(** C6, on the example of the specification.  In a session opened on a
    new component the fragments "He" and "llo" do accumulate to "Hello"
    in the captured-side buffer, but the end of the turn appends nothing
    to the log: the entries are built from [currentInput] and
    [currentOutput] as they were when [startSession] ran, both empty, and
    the filter drops them.  The buffers are emptied all the same. *)
Theorem C6_hello_turn_is_not_logged :
  let cl := fst Hearing.opened in
  let st0 := snd Hearing.opened in
  Hearing.currentInput
    (Hearing.session cl (firstn 3 Hearing.hello_turn) st0) = "Hello" /\
  Hearing.transcript (Hearing.session cl Hearing.hello_turn st0) = [] /\
  Hearing.currentInput (Hearing.session cl Hearing.hello_turn st0) =
    EmptyString /\
  Hearing.currentOutput (Hearing.session cl Hearing.hello_turn st0) =
    EmptyString.
Proof. vm_compute. repeat split. Qed.

(* ===================================================================== *)
(** * Further properties of the code                                      *)
(* ===================================================================== *)

(* ===================================================================== *)
(** ** More on the smoothing filter                                       *)
(* ===================================================================== *)

Section FilterBounds.
Import KalmanFilter.
Local Open Scope Q_scope.

(** One step with a gain strictly between 0 and 1 lands strictly between
    the old estimate and the measurement. *)
Lemma filter_moves_inside (s : t) (m : Q) :
  0 < p s -> 0 < q s -> 0 < r s ->
  (x s < m -> x s < fst (filter s m) < m) /\
  (m < x s -> m < fst (filter s m) < x s) /\
  (x s == m -> fst (filter s m) == m).
Proof.
  intros Hp Hq Hr. cbn.
  destruct (gain_between (p s + q s) (r s)) as [Hk0 Hk1]; [lra | lra |].
  set (k := (p s + q s) / (p s + q s + r s)) in *.
  split; [|split].
  - intros Hlt. split; nra.
  - intros Hlt. split; nra.
  - intros Heq. rewrite Heq. ring.
Qed.

(** The covariance after a step does not depend on the estimate or on
    the measurement. *)
Lemma filter_p_blind (s s' : t) (m m' : Q) :
  p s = p s' -> q s = q s' -> r s = r s' ->
  p (snd (filter s m)) = p (snd (filter s' m')).
Proof. intros Hp Hq Hr. cbn. rewrite Hp, Hq, Hr. reflexivity. Qed.

Lemma feed_p_blind (ms ms' : list Q) :
  length ms = length ms' ->
  forall s s' : t,
    p s = p s' -> q s = q s' -> r s = r s' ->
    p (feed s ms) = p (feed s' ms').
Proof.
  revert ms'. induction ms as [|m ms IH]; intros [|m' ms'] Hlen s s' Hp Hq Hr;
    try discriminate Hlen; [exact Hp|].
  change (feed s (m :: ms)) with (feed (snd (filter s m)) ms).
  change (feed s' (m' :: ms')) with (feed (snd (filter s' m')) ms').
  apply IH; [injection Hlen; auto | apply filter_p_blind; assumption |
             exact Hq | exact Hr].
Qed.

(** After a step the covariance is below the measurement noise. *)
Lemma filter_p_below_r (s : t) (m : Q) :
  0 < p s -> 0 < q s -> 0 < r s -> p (snd (filter s m)) < r s.
Proof.
  intros Hp Hq Hr. cbn.
  assert (Hk : (p s + q s) / (p s + q s + r s) * (p s + q s + r s)
               == p s + q s).
  { field. lra. }
  destruct (gain_between (p s + q s) (r s)) as [Hk0 Hk1]; [lra | lra |].
  set (k := (p s + q s) / (p s + q s + r s)) in *. nra.
Qed.

(** Measurements that are not negative keep the estimate from going
    negative. *)
Lemma filter_keeps_x_nonneg (s : t) (m : Q) :
  0 < p s -> 0 < q s -> 0 < r s -> 0 <= x s -> 0 <= m ->
  0 <= fst (filter s m).
Proof.
  intros Hp Hq Hr Hx Hm. cbn.
  destruct (gain_between (p s + q s) (r s)) as [Hk0 Hk1]; [lra | lra |].
  set (k := (p s + q s) / (p s + q s + r s)) in *. nra.
Qed.

End FilterBounds.

(** X1.  Whatever a filter created by [new] has been fed, the value
    [filter(measurement)] returns lies strictly between the estimate it
    had and the measurement when these differ, and equals the measurement
    when they agree. *)
Theorem X1_filter_output_between (history : list Q) (m : Q) :
  let s := KalmanFilter.feed KalmanFilter.new history in
  let out := fst (KalmanFilter.filter s m) in
  ((KalmanFilter.x s < m -> KalmanFilter.x s < out < m) /\
   (m < KalmanFilter.x s -> m < out < KalmanFilter.x s) /\
   (KalmanFilter.x s == m -> out == m))%Q.
Proof.
  intros s out. subst s out.
  destruct (feed_keeps_noise KalmanFilter.new history) as [Hq Hr].
  apply filter_moves_inside;
    [apply fresh_p_positive | rewrite Hq | rewrite Hr]; reflexivity.
Qed.

Lemma X1_filter_output_between_witness :
  let s := KalmanFilter.feed KalmanFilter.new [inject_Z 900] in
  (KalmanFilter.x s < fst (KalmanFilter.filter s 3000) < 3000)%Q /\
  (100 < fst (KalmanFilter.filter s 100) < KalmanFilter.x s)%Q.
Proof.
  intros s. split.
  - apply (X1_filter_output_between [inject_Z 900] 3000). reflexivity.
  - apply (X1_filter_output_between [inject_Z 900] 100). reflexivity.
Defined.

(** X2.  The covariance of a filter created by [new] depends only on how
    many measurements it has been fed, not on their values; it is always
    positive and at most 1, and below the measurement noise 1/2 once a
    measurement has been fed. *)
Theorem X2_covariance_is_data_blind (ms ms' : list Q) :
  length ms = length ms' ->
  KalmanFilter.p (KalmanFilter.feed KalmanFilter.new ms) =
  KalmanFilter.p (KalmanFilter.feed KalmanFilter.new ms') /\
  (0 < KalmanFilter.p (KalmanFilter.feed KalmanFilter.new ms) <= 1)%Q /\
  (ms <> [] ->
   (KalmanFilter.p (KalmanFilter.feed KalmanFilter.new ms) < 1 # 2)%Q).
Proof.
  intros Hlen.
  assert (Hstep : forall (l : list Q) (m : Q),
             (KalmanFilter.p (KalmanFilter.feed KalmanFilter.new (l ++ [m]))
              < 1 # 2)%Q).
  { intros l m. rewrite feed_snoc.
    destruct (feed_keeps_noise KalmanFilter.new l) as [Hq Hr].
    pose proof (filter_p_below_r (KalmanFilter.feed KalmanFilter.new l) m)
      as Hlt.
    rewrite Hq, Hr in Hlt.
    exact (Hlt (fresh_p_positive l) eq_refl eq_refl). }
  split; [|split].
  - apply feed_p_blind; [exact Hlen | reflexivity..].
  - split; [apply fresh_p_positive|].
    destruct ms as [|m ms _] using rev_ind.
    + cbn. lra.
    + pose proof (Hstep ms m). lra.
  - intros Hne. destruct ms as [|m ms _] using rev_ind; [contradiction|].
    apply Hstep.
Qed.

Lemma X2_covariance_is_data_blind_witness :
  KalmanFilter.p (KalmanFilter.feed KalmanFilter.new [0%Q; inject_Z 3072]) =
  KalmanFilter.p (KalmanFilter.feed KalmanFilter.new [inject_Z 261120; 7%Q]).
Proof.
  apply (X2_covariance_is_data_blind [0%Q; inject_Z 3072]
           [inject_Z 261120; 7%Q]).
  reflexivity.
Defined.

(* ===================================================================== *)
(** ** More on the motion scorer                                          *)
(* ===================================================================== *)

Section ScoreFacts.
Import Motion Sampling.

Lemma blockDiff_sum2 (curr prev : list Z) (gy gx : Z) :
  blockDiff curr prev gy gx =
  sum2 (pixelDiff curr prev gy gx) (evens_below blockSize)
    (evens_below blockSize) 0.
Proof. unfold blockDiff, sum2, pixelDiff. exact eq_refl. Qed.

Lemma gridDiff_sum2 (curr prev : list Z) :
  gridDiff curr prev =
  sum2 (blockDiff curr prev) (upto gridSize) (upto gridSize) 0.
Proof. unfold gridDiff, sum2. exact eq_refl. Qed.

(** Loops that add the same terms give the same sum. *)
Lemma sum2_ext (g g' : Z -> Z -> Z) (ys xs : list Z) (acc : Z) :
  (forall y x, In y ys -> In x xs -> g y x = g' y x) ->
  sum2 g ys xs acc = sum2 g' ys xs acc.
Proof.
  unfold sum2. revert acc.
  induction ys as [|y ys IH]; intros acc Hsame; [reflexivity|].
  cbn [fold_left].
  assert (Hrow : forall l, incl l xs -> forall a,
             fold_left (fun acc x => acc + g y x) l a =
             fold_left (fun acc x => acc + g' y x) l a).
  { induction l as [|x l IHl]; intros Hl a; [reflexivity|]. cbn.
    rewrite (Hsame y x (or_introl eq_refl) (Hl x (or_introl eq_refl))).
    apply IHl. intros z Hz. apply Hl. right. exact Hz. }
  rewrite (Hrow xs (incl_refl xs)). apply IH.
  intros y' x Hy' Hx. apply Hsame; [right; exact Hy' | exact Hx].
Qed.

(** Larger terms and a larger start give a larger sum. *)
Lemma sum2_mono (g g' : Z -> Z -> Z) (ys xs : list Z) (acc acc' : Z) :
  (forall y x, In y ys -> In x xs -> g y x <= g' y x) ->
  acc <= acc' ->
  sum2 g ys xs acc <= sum2 g' ys xs acc'.
Proof.
  unfold sum2. revert acc acc'.
  induction ys as [|y ys IH]; intros acc acc' Hle Hacc; [exact Hacc|].
  cbn [fold_left].
  assert (Hrow : forall l, incl l xs -> forall a a', a <= a' ->
             fold_left (fun acc x => acc + g y x) l a <=
             fold_left (fun acc x => acc + g' y x) l a').
  { induction l as [|x l IHl]; intros Hl a a' Ha; [exact Ha|]. cbn.
    apply IHl; [intros z Hz; apply Hl; right; exact Hz|].
    pose proof (Hle y x (or_introl eq_refl) (Hl x (or_introl eq_refl))). lia. }
  apply IH.
  - intros y' x Hy' Hx. apply Hle; [right; exact Hy' | exact Hx].
  - apply (Hrow xs (incl_refl xs)). exact Hacc.
Qed.

(** A constant term is added once per pair. *)
Lemma sum2_const (c : Z) (ys xs : list Z) (acc : Z) :
  sum2 (fun _ _ => c) ys xs acc =
  acc + c * (Z.of_nat (length ys) * Z.of_nat (length xs)).
Proof.
  unfold sum2. revert acc.
  induction ys as [|y ys IH]; intros acc; [cbn; lia|].
  cbn [fold_left length].
  assert (Hrow : forall l a,
             fold_left (fun acc (_ : Z) => acc + c) l a =
             a + c * Z.of_nat (length l)).
  { induction l as [|x l IHl]; intros a; [cbn; lia|].
    cbn [fold_left length]. rewrite IHl. lia. }
  rewrite Hrow, IH. lia.
Qed.

Lemma upto_grid (v : Z) : In v (upto gridSize) -> 0 <= v <= 3.
Proof. intros Hv. cbv in Hv. intuition lia. Qed.

Lemma evens_block (v : Z) :
  In v (evens_below blockSize) -> 0 <= v <= 14 /\ Z.even v = true.
Proof.
  intros Hv. cbv in Hv.
  repeat (destruct Hv as [<- | Hv]; [split; [lia | reflexivity]|]).
  contradiction.
Qed.

(** A read from a buffer of bytes is a byte, in range or not. *)
Lemma read_byte (buf : list Z) (idx : Z) :
  bytes buf -> 0 <= read buf idx <= 255.
Proof.
  intros Hbytes. unfold read.
  destruct (Nat.lt_ge_cases (Z.to_nat idx) (length buf)) as [Hin | Hout].
  - unfold bytes in Hbytes. rewrite Forall_nth in Hbytes.
    apply Hbytes. exact Hin.
  - rewrite nth_overflow by exact Hout. lia.
Qed.

Lemma gridDiff_nonneg (curr prev : list Z) : 0 <= gridDiff curr prev.
Proof.
  assert (Hzero : forall ys xs, sum2 (fun _ _ => 0) ys xs 0 = 0).
  { intros ys xs. rewrite sum2_const. lia. }
  assert (Hblock : forall gy gx, 0 <= blockDiff curr prev gy gx).
  { intros gy gx. rewrite blockDiff_sum2.
    rewrite <- (Hzero (evens_below blockSize) (evens_below blockSize)) at 1.
    apply sum2_mono; [|lia]. intros y x _ _. unfold pixelDiff. lia. }
  rewrite gridDiff_sum2.
  rewrite <- (Hzero (upto gridSize) (upto gridSize)) at 1.
  apply sum2_mono; [|lia]. intros gy gx _ _. apply Hblock.
Qed.

Lemma gridDiff_at_most (curr prev : list Z) :
  bytes curr -> bytes prev -> gridDiff curr prev <= 261120.
Proof.
  intros Hc Hp.
  assert (Hblock : forall gy gx, blockDiff curr prev gy gx <= 255 * 64).
  { intros gy gx. rewrite blockDiff_sum2.
    pose proof (sum2_mono (pixelDiff curr prev gy gx) (fun _ _ => 255)
                  (evens_below blockSize) (evens_below blockSize) 0 0)
      as Hmono.
    rewrite sum2_const in Hmono.
    change (Z.of_nat (length (evens_below blockSize))) with 8 in Hmono.
    etransitivity; [apply Hmono; [|lia] | lia].
    intros y x _ _. unfold pixelDiff.
    pose proof (read_byte curr (index gy gx y x) Hc).
    pose proof (read_byte prev (index gy gx y x) Hp). lia. }
  rewrite gridDiff_sum2.
  pose proof (sum2_mono (blockDiff curr prev) (fun _ _ => 255 * 64)
                (upto gridSize) (upto gridSize) 0 0) as Hmono.
  rewrite sum2_const in Hmono.
  change (Z.of_nat (length (upto gridSize))) with 4 in Hmono.
  etransitivity; [apply Hmono; [|lia] | lia].
  intros gy gx _ _. apply Hblock.
Qed.

Lemma gridDiff_sym (curr prev : list Z) : gridDiff curr prev = gridDiff prev curr.
Proof.
  rewrite !gridDiff_sum2. apply sum2_ext. intros gy gx _ _.
  rewrite !blockDiff_sum2. apply sum2_ext. intros y x _ _.
  unfold pixelDiff. lia.
Qed.

(** The indices the loops form are the red bytes of the pixels in even
    rows and columns. *)
Lemma index_is_even_pixel (gy gx y x : Z) :
  In gy (upto gridSize) -> In gx (upto gridSize) ->
  In y (evens_below blockSize) -> In x (evens_below blockSize) ->
  index gy gx y x = red_index (gy * blockSize + y) (gx * blockSize + x) /\
  even_pixel (gy * blockSize + y) (gx * blockSize + x).
Proof.
  intros Hgy Hgx Hy Hx.
  apply upto_grid in Hgy, Hgx.
  apply evens_block in Hy as [Hy Hye], Hx as [Hx Hxe].
  split; [reflexivity|].
  unfold even_pixel. change blockSize with 16. change mSize with 64.
  repeat split; try lia.
  - rewrite Z.even_add, Z.even_mul, Hye.
    change (Z.even 16) with true. rewrite orb_true_r. reflexivity.
  - rewrite Z.even_add, Z.even_mul, Hxe.
    change (Z.even 16) with true. rewrite orb_true_r. reflexivity.
Qed.

(** Buffers that agree on those bytes score alike against any third. *)
Lemma gridDiff_sees_even_pixels_only (curr curr' prev : list Z) :
  (forall row col, even_pixel row col ->
     read curr (red_index row col) = read curr' (red_index row col)) ->
  gridDiff curr prev = gridDiff curr' prev.
Proof.
  intros Hagree.
  rewrite !gridDiff_sum2. apply sum2_ext. intros gy gx Hgy Hgx.
  rewrite !blockDiff_sum2. apply sum2_ext. intros y x Hy Hx.
  unfold pixelDiff.
  destruct (index_is_even_pixel gy gx y x Hgy Hgx Hy Hx) as [-> Hpix].
  rewrite (Hagree _ _ Hpix). reflexivity.
Qed.

(** The test over the even pixels decides the agreement. *)
Lemma agree_on_even_pixels_spec (a b : list Z) :
  agree_on_even_pixels a b = true ->
  forall row col, even_pixel row col ->
    read a (red_index row col) = read b (red_index row col).
Proof.
  unfold agree_on_even_pixels. intros Hall row col (Hr & Hc & Her & Hec).
  assert (Hmem : forall v, 0 <= v < mSize -> Z.even v = true ->
                 In v (evens_below mSize)).
  { intros v Hv He. unfold evens_below. apply in_map_iff.
    exists (Z.to_nat (v / 2)). split.
    - rewrite Z2Nat.id by (apply Z.div_pos; lia).
      apply Zeven_bool_iff in He. apply Zeven_div2 in He.
      rewrite Z.div2_div in He. lia.
    - apply in_seq. change mSize with 64 in *.
      change (Z.to_nat ((64 + 1) / 2)) with 32%nat.
      assert (v / 2 < 32) by (apply Z.div_lt_upper_bound; lia).
      assert (0 <= v / 2) by (apply Z.div_pos; lia). lia. }
  rewrite forallb_forall in Hall.
  specialize (Hall row).
  assert (Hrow : In row (evens_below mSize)) by (apply Hmem; assumption).
  assert (Hcol : In col (evens_below mSize)) by (apply Hmem; assumption).
  specialize (Hall Hrow). rewrite forallb_forall in Hall.
  specialize (Hall col Hcol).
  apply Z.eqb_eq in Hall. exact Hall.
Qed.

(** Flat buffers: every term of the sum is the same. *)
Lemma gridDiff_flat (a b : Z) :
  gridDiff (data (flat a)) (data (flat b)) = 1024 * Z.abs (a - b).
Proof.
  assert (Hread : forall v gy gx y x,
             In gy (upto gridSize) -> In gx (upto gridSize) ->
             In y (evens_below blockSize) -> In x (evens_below blockSize) ->
             read (data (flat v)) (index gy gx y x) = v).
  { intros v gy gx y x Hgy Hgx Hy Hx.
    pose proof (index_in_range gy gx y x Hgy Hgx Hy Hx) as Hidx.
    unfold read, flat, data. apply nth_repeat_lt. lia. }
  rewrite gridDiff_sum2.
  rewrite (sum2_ext _ (fun _ _ => 64 * Z.abs (a - b))).
  - rewrite sum2_const. change (Z.of_nat (length (upto gridSize))) with 4. lia.
  - intros gy gx Hgy Hgx. rewrite blockDiff_sum2.
    rewrite (sum2_ext _ (fun _ _ => Z.abs (a - b))).
    + rewrite sum2_const.
      change (Z.of_nat (length (evens_below blockSize))) with 8. lia.
    + intros y x Hy Hx. unfold pixelDiff.
      rewrite !Hread by assumption. reflexivity.
Qed.

End ScoreFacts.

(** X3.  The motion score is never negative; when both buffers hold
    bytes (0 to 255) it is at most 261120, which is 255 times the 1024
    pixels looked at. *)
Theorem X3_motion_score_range (curr : Motion.ImageData)
    (prevData : option Motion.ImageData) :
  0 <= Motion.rawMotionScore curr prevData /\
  (Sampling.bytes (Motion.data curr) ->
   (forall prev, prevData = Some prev -> Sampling.bytes (Motion.data prev)) ->
   Motion.rawMotionScore curr prevData <= 261120).
Proof.
  destruct prevData as [prev|]; cbn.
  - split; [apply gridDiff_nonneg|].
    intros Hc Hp. apply gridDiff_at_most; [exact Hc | apply Hp; reflexivity].
  - split; [lia | intros _ _; lia].
Qed.

Lemma X3_motion_score_range_witness :
  0 <= Motion.rawMotionScore (Motion.flat 255) (Some (Motion.flat 0))
    <= 261120.
Proof.
  destruct (X3_motion_score_range (Motion.flat 255) (Some (Motion.flat 0)))
    as [Hlo Hhi].
  split; [exact Hlo|]. apply Hhi.
  - apply Forall_forall. intros v Hv. apply list_elem_of_In in Hv.
    apply repeat_spec in Hv. subst v. lia.
  - intros prev [= <-]. apply Forall_forall. intros v Hv.
    apply list_elem_of_In in Hv. apply repeat_spec in Hv. subst v. lia.
Defined.

(** X4.  The motion score of two buffers does not depend on which of
    them is the current one. *)
Theorem X4_motion_score_symmetric (a b : Motion.ImageData) :
  Motion.rawMotionScore a (Some b) = Motion.rawMotionScore b (Some a).
Proof. cbn. apply gridDiff_sym. Qed.

(** X5.  The motion score only sees the red byte of the pixels whose row
    and column are both even: two current buffers that agree on these
    bytes get the same score against any previous buffer, whatever their
    other bytes are; in particular a change confined to the green, blue
    or alpha bytes, or to the other pixels, scores 0. *)
Theorem X5_motion_score_sees_red_of_even_pixels
    (curr curr' prev : Motion.ImageData) :
  (forall row col, Sampling.even_pixel row col ->
     Motion.read (Motion.data curr) (Sampling.red_index row col) =
     Motion.read (Motion.data curr') (Sampling.red_index row col)) ->
  Motion.rawMotionScore curr (Some prev) =
    Motion.rawMotionScore curr' (Some prev) /\
  Motion.rawMotionScore curr (Some curr') = 0.
Proof.
  intros Hagree. cbn. split.
  - apply gridDiff_sees_even_pixels_only. exact Hagree.
  - rewrite (gridDiff_sees_even_pixels_only _ (Motion.data curr') _ Hagree).
    apply gridDiff_same.
Qed.

Lemma X5_motion_score_sees_red_of_even_pixels_witness :
  Motion.rawMotionScore (Sampling.tinted 10 200 30)
    (Some (Sampling.tinted 10 0 90)) = 0.
Proof.
  apply (X5_motion_score_sees_red_of_even_pixels
           (Sampling.tinted 10 200 30) (Sampling.tinted 10 0 90)
           (Sampling.tinted 10 0 90)).
  apply agree_on_even_pixels_spec. vm_compute. reflexivity.
Defined.

(** X6.  Between two buffers that are flat, one at [a] and one at [b],
    the motion score is [1024 * |a - b|]: 1024 bytes are compared. *)
Theorem X6_motion_score_of_flat_buffers (a b : Z) :
  Motion.rawMotionScore (Motion.flat a) (Some (Motion.flat b)) =
  1024 * Z.abs (a - b).
Proof. cbn [Motion.rawMotionScore]. apply gridDiff_flat. Qed.

(* ===================================================================== *)
(** ** More on the capture stabilizer                                     *)
(* ===================================================================== *)

Section LevelFacts.
Import Stabilizer.
Local Open Scope Q_scope.

Lemma stability_scale (fm : Q) :
  100 - fm / STABILITY_THRESHOLD * 100 == 100 - fm * (1 # 180).
Proof. unfold STABILITY_THRESHOLD. field. Qed.

(** The level as a clamped linear function of the filtered motion. *)
Lemma stabilityOf_cases (fm : Q) :
  (fm <= 0 /\ stabilityOf fm == 100) \/
  (0 <= fm <= 18000 /\ stabilityOf fm == 100 - fm * (1 # 180)) \/
  (18000 <= fm /\ stabilityOf fm == 0).
Proof.
  unfold stabilityOf. pose proof (stability_scale fm) as Hv.
  set (v := 100 - fm / STABILITY_THRESHOLD * 100) in *.
  destruct (Q.min_spec 100 v) as [[Hlt Hmin] | [Hle Hmin]];
    destruct (Q.max_spec 0 (Qmin 100 v)) as [[Hlt' Hmax] | [Hle' Hmax]];
    rewrite Hmax; rewrite ?Hmin in *.
  - left. split; lra.
  - lra.
  - right. left. split; lra.
  - right. right. split; lra.
Qed.

Lemma stability_locks_below_900 (fm : Q) :
  Qltb 95 (stabilityOf fm) = true <-> fm < 900.
Proof.
  rewrite Qltb_lt.
  destruct (stabilityOf_cases fm) as [[H Hs] | [[H Hs] | [H Hs]]];
    rewrite Hs; split; intros; lra.
Qed.

End LevelFacts.

(** X7.  The stability level is always between 0 and 100.  It is 100
    exactly when the filtered motion is at most 0, it is 0 exactly when
    the filtered motion is at least 18000, and it is above the lock level
    95 exactly when the filtered motion is below 900. *)
Theorem X7_stability_level_range (filteredMotion : Q) :
  (0 <= Stabilizer.stabilityOf filteredMotion <= 100 /\
   (Stabilizer.stabilityOf filteredMotion == 100 <-> filteredMotion <= 0) /\
   (Stabilizer.stabilityOf filteredMotion == 0 <-> 18000 <= filteredMotion) /\
   (95 < Stabilizer.stabilityOf filteredMotion <-> filteredMotion < 900))%Q.
Proof.
  destruct (stabilityOf_cases filteredMotion)
    as [[H Hs] | [[H Hs] | [H Hs]]]; rewrite Hs;
    repeat split; intros; lra.
Qed.

Section AttemptFacts.
Import Stabilizer.

(** [checkMotion] with the result of the filter taken apart. *)
Lemma checkMotion_body (a : Attempt) (t : Tick) :
  refsOk t = true ->
  let raw := inject_Z (Motion.rawMotionScore (currData t) (prevData a)) in
  let fm := fst (KalmanFilter.filter (kFilter a) raw) in
  let kf := snd (KalmanFilter.filter (kFilter a) raw) in
  let replace :=
    below_min fm (minFilteredMotion a) || is_empty (bestFrame a) in
  let held := if replace then currentFrame t else bestFrame a in
  let least := if replace then Some fm else minFilteredMotion a in
  let elapsed := now t - startTime a in
  checkMotion a t =
    if lockTest (stabilityOf fm) elapsed || timeoutTest elapsed
    then Resolved held (lockTest (stabilityOf fm) elapsed) (stabilityOf fm)
           {| kFilter := kf; bestFrame := held; minFilteredMotion := least;
              prevData := Some (currData t); startTime := startTime a;
              stabilityLevel := 100 |}
    else Rescheduled
           {| kFilter := kf; bestFrame := held; minFilteredMotion := least;
              prevData := Some (currData t); startTime := startTime a;
              stabilityLevel := stabilityOf fm |}.
Proof.
  intros Hok. unfold checkMotion. rewrite Hok. cbv [negb].
  destruct (KalmanFilter.filter (kFilter a) _) as [fm kf]. reflexivity.
Qed.

Lemma sound_filter_new : Keeps.sound_filter KalmanFilter.new.
Proof. repeat split. Qed.

Lemma sound_filter_step (kf : KalmanFilter.t) (m : Q) :
  Keeps.sound_filter kf ->
  Keeps.sound_filter (snd (KalmanFilter.filter kf m)).
Proof.
  intros (Hp & Hq & Hr). repeat split; [|exact Hq | exact Hr].
  apply filter_keeps_p_positive; [exact Hp | rewrite Hq | rewrite Hr];
    reflexivity.
Qed.

Lemma sound_filter_nonneg (kf : KalmanFilter.t) (m : Q) :
  Keeps.sound_filter kf -> (0 <= KalmanFilter.x kf)%Q -> (0 <= m)%Q ->
  (0 <= fst (KalmanFilter.filter kf m))%Q.
Proof.
  intros (Hp & Hq & Hr) Hx Hm.
  apply filter_keeps_x_nonneg; [exact Hp | rewrite Hq | rewrite Hr | |];
    try reflexivity; assumption.
Qed.

Lemma sound_filter_rest (kf : KalmanFilter.t) :
  Keeps.sound_filter kf -> (KalmanFilter.x kf == 0)%Q ->
  (fst (KalmanFilter.filter kf (inject_Z 0)) == 0)%Q.
Proof.
  intros _ Hx. cbn. rewrite Hx. unfold inject_Z. ring.
Qed.

Lemma raw_nonneg (curr : Motion.ImageData) (prev : option Motion.ImageData) :
  (0 <= inject_Z (Motion.rawMotionScore curr prev))%Q.
Proof.
  change 0%Q with (inject_Z 0). rewrite <- Zle_Qle.
  destruct prev as [prev|]; cbn; [apply gridDiff_nonneg | lia].
Qed.

(** A tick of an attempt that holds its first frame keeps holding it, and
    resolves with it if it resolves. *)
Lemma holds_first_step (first : string) (a : Attempt) (t : Tick) :
  refsOk t = true -> Keeps.holds_first first a ->
  match checkMotion a t with
  | Abandoned => False
  | Resolved frame _ _ _ => frame = first
  | Rescheduled a' => Keeps.holds_first first a'
  end.
Proof.
  intros Hok (Hbest & Hfull & (least & Hleast & Hle) & Hx & Hkf).
  rewrite (checkMotion_body a t Hok). cbv zeta.
  set (raw := inject_Z (Motion.rawMotionScore (currData t) (prevData a))).
  pose proof (sound_filter_nonneg (kFilter a) raw Hkf Hx
                (raw_nonneg (currData t) (prevData a))) as Hfm.
  assert (Hkeep : below_min (fst (KalmanFilter.filter (kFilter a) raw))
                    (minFilteredMotion a) || is_empty (bestFrame a) = false).
  { rewrite Hleast, Hbest, Hfull. cbn [below_min].
    rewrite orb_false_r. destruct (Qltb _ least) eqn:Hlt; [|reflexivity].
    apply Qltb_lt in Hlt. lra. }
  rewrite Hkeep.
  destruct (lockTest _ _ || timeoutTest _); [exact Hbest|].
  unfold Keeps.holds_first. cbn [bestFrame minFilteredMotion kFilter].
  split; [exact Hbest|]. split; [exact Hfull|].
  split; [exists least; split; assumption|].
  split; [exact Hfm | apply sound_filter_step; exact Hkf].
Qed.

Lemma holds_first_run (first : string) (ticks : list Tick) :
  forall (a : Attempt) (log : list Sample) frame locked a' log',
    Forall (fun t => refsOk t = true) ticks ->
    Keeps.holds_first first a ->
    run a log ticks = Done frame locked a' log' -> frame = first.
Proof.
  induction ticks as [|t rest IH]; intros a log frame locked a' log' Hok Hinv;
    cbn; [discriminate|].
  inversion Hok as [|? ? Hok_t Hok_rest]; subst.
  pose proof (holds_first_step first a t Hok_t Hinv) as Hstep.
  destruct (checkMotion a t) as [|f l lev a1|a1]; [contradiction | |].
  - intros [= <- _ _ _]. exact Hstep.
  - apply IH; assumption.
Qed.

End AttemptFacts.

(** X8.  An attempt whose ticks all find the refs in place and whose
    first frame has a non-empty encoding resolves, if it resolves, with
    that first frame, whatever the later frames and their motion are: the
    first sample has filtered motion 0, and no later sample can go below
    it. *)
Theorem X8_first_frame_is_returned (start : Z) (first : Stabilizer.Tick)
    (rest : list Stabilizer.Tick) (frame : string) (locked : bool)
    (a : Stabilizer.Attempt) (log : list Stabilizer.Sample) :
  Forall (fun t => Stabilizer.refsOk t = true) (first :: rest) ->
  Stabilizer.currentFrame first <> EmptyString ->
  Stabilizer.getStabilizedFrame start (first :: rest) =
    Stabilizer.Done frame locked a log ->
  frame = Stabilizer.currentFrame first.
Proof.
  intros Hok Hfull. inversion Hok as [|? ? Hok1 Hok_rest]; subst.
  unfold Stabilizer.getStabilizedFrame. cbn [Stabilizer.run].
  rewrite (checkMotion_body (Stabilizer.begin start) first Hok1). cbv zeta.
  cbn [Stabilizer.begin Stabilizer.minFilteredMotion Stabilizer.bestFrame
       Stabilizer.below_min orb Stabilizer.prevData Stabilizer.kFilter
       Stabilizer.startTime Motion.rawMotionScore].
  destruct (Stabilizer.lockTest _ _ || Stabilizer.timeoutTest _).
  - intros [= <- _ _ _]. reflexivity.
  - apply holds_first_run; [exact Hok_rest|].
    unfold Keeps.holds_first.
    cbn [Stabilizer.bestFrame Stabilizer.minFilteredMotion Stabilizer.kFilter].
    split; [reflexivity|]. split.
    { destruct (Stabilizer.currentFrame first); [contradiction | reflexivity]. }
    split.
    { eexists. split; [reflexivity|]. apply Qle_bool_imp_le. reflexivity. }
    split; [apply Qle_bool_imp_le; reflexivity|].
    apply sound_filter_step. apply sound_filter_new.
Qed.

Lemma X8_first_frame_is_returned_witness :
  exists frame locked a log,
    Stabilizer.getStabilizedFrame 1000 Stabilizer.shaky =
      Stabilizer.Done frame locked a log /\
    frame = "/9j/AAAA".
Proof.
  assert (Hok : Forall (fun t => Stabilizer.refsOk t = true) Stabilizer.shaky).
  { repeat (constructor; [reflexivity|]). constructor. }
  destruct (run_resolves Stabilizer.shaky (Stabilizer.begin 1000) [] Hok)
    as (frame & locked & a & log & Hrun & _).
  { do 4 apply Exists_cons_tl. apply Exists_cons_hd.
    unfold Stabilizer.MAX_DURATION. cbn. lia. }
  exists frame, locked, a, log. split; [exact Hrun|].
  apply (X8_first_frame_is_returned 1000 _ _ frame locked a log Hok);
    [discriminate | exact Hrun].
Defined.

Section RestFacts.
Import Stabilizer.

(** A tick on an unchanged scene: the attempt locks if more than 400 ms
    have passed, and goes on at rest otherwise. *)
Lemma at_rest_step (scene : list Z) (a : Attempt) (t : Tick) :
  refsOk t = true -> Motion.data (currData t) = scene ->
  Keeps.at_rest scene a ->
  (400 < now t - startTime a ->
   exists frame level a', checkMotion a t = Resolved frame true level a') /\
  (now t - startTime a <= 400 ->
   exists a', checkMotion a t = Rescheduled a' /\
              Keeps.at_rest scene a' /\ startTime a' = startTime a).
Proof.
  intros Hok Hscene (Hx & Hkf & Hprev).
  rewrite (checkMotion_body a t Hok). cbv zeta.
  assert (Hraw : Motion.rawMotionScore (currData t) (prevData a) = 0).
  { destruct (prevData a) as [prev|] eqn:Hp; [|reflexivity].
    cbn. rewrite Hscene, (Hprev prev eq_refl). apply gridDiff_same. }
  rewrite Hraw.
  pose proof (sound_filter_rest (kFilter a) Hkf Hx) as Hfm.
  set (fm := fst (KalmanFilter.filter (kFilter a) (inject_Z 0))) in *.
  assert (Hlevel : Qltb 95 (stabilityOf fm) = true).
  { apply stability_locks_below_900. rewrite Hfm. reflexivity. }
  unfold lockTest, timeoutTest, MAX_DURATION. rewrite Hlevel. cbn [andb].
  split; intros Htime.
  - destruct (Z.ltb_spec 400 (now t - startTime a)); [|lia].
    cbn [orb]. eauto.
  - destruct (Z.ltb_spec 400 (now t - startTime a)); [lia|].
    destruct (Z.leb_spec 3000 (now t - startTime a)); [lia|].
    cbn [orb]. eexists. split; [reflexivity|].
    split; [|reflexivity].
    unfold Keeps.at_rest. cbn [kFilter prevData].
    split; [exact Hfm|].
    split; [apply sound_filter_step; exact Hkf|].
    intros prev [= <-]. exact Hscene.
Qed.

Lemma at_rest_run (scene : list Z) (ticks : list Tick) :
  forall (a : Attempt) (log : list Sample),
    Forall (fun t => refsOk t = true /\ Motion.data (currData t) = scene)
      ticks ->
    Exists (fun t => 400 < now t - startTime a) ticks ->
    Keeps.at_rest scene a ->
    exists frame a' t level earlier,
      run a log ticks = Done frame true a' ((t, level) :: earlier ++ log) /\
      400 < t - startTime a /\
      Forall (fun smp => fst smp - startTime a <= 400) earlier.
Proof.
  induction ticks as [|t rest IH]; intros a log Hall Hlate Hrest.
  - inversion Hlate.
  - inversion Hall as [|? ? [Hok Hscene] Hall_rest]; subst.
    destruct (at_rest_step (Motion.data (currData t)) a t Hok eq_refl Hrest)
      as [Hlock Hgo].
    cbn [run].
    destruct (Z_lt_le_dec 400 (now t - startTime a)) as [Hnow | Hnow].
    + destruct (Hlock Hnow) as (frame & level & a' & ->).
      exists frame, a', (now t), level, []. repeat split; [exact Hnow|].
      constructor.
    + destruct (Hgo Hnow) as (a' & -> & Hrest' & Hstart).
      assert (Hlate' : Exists (fun t0 => 400 < now t0 - startTime a') rest).
      { rewrite Hstart. inversion Hlate as [? ? Hhd | ? ? Htl]; subst;
          [lia | exact Htl]. }
      destruct (IH a' ((now t, stabilityLevel a') :: log) Hall_rest Hlate'
                  Hrest')
        as (frame & a'' & t' & level & earlier & Hrun & Ht' & Hearly).
      exists frame, a'', t', level, (earlier ++ [(now t, stabilityLevel a')]).
      rewrite Hrun, <- app_assoc. rewrite Hstart in *.
      repeat split; [exact Ht'|].
      apply Forall_app. split; [exact Hearly|].
      constructor; [exact Hnow | constructor].
Qed.

(** Running on from where a run of ticks leaves the attempt. *)
Lemma run_app (pre post : list Tick) :
  forall (a : Attempt) (log : list Sample),
    run a log (pre ++ post) =
    match run a log pre with
    | Pending a' log' => run a' log' post
    | other => other
    end.
Proof.
  induction pre as [|t pre IH]; intros a log; [reflexivity|].
  cbn [app run]. destruct (checkMotion a t); [reflexivity.. | apply IH].
Qed.

End RestFacts.

(** X9.  When every tick finds the refs in place and the same pixel
    buffer, the attempt locks at the first tick that comes more than
    400 ms after its start: it resolves there with the lock flag set, and
    every sample before that one was taken within the first 400 ms. *)
Theorem X9_still_scene_locks (start : Z) (scene : list Z)
    (ticks : list Stabilizer.Tick) :
  Forall (fun t => Stabilizer.refsOk t = true /\
                   Motion.data (Stabilizer.currData t) = scene) ticks ->
  Exists (fun t => 400 < Stabilizer.now t - start) ticks ->
  exists frame a t level earlier,
    Stabilizer.getStabilizedFrame start ticks =
      Stabilizer.Done frame true a ((t, level) :: earlier) /\
    400 < t - start /\
    Forall (fun smp => fst smp - start <= 400) earlier.
Proof.
  intros Hall Hlate.
  destruct (at_rest_run scene ticks (Stabilizer.begin start) [] Hall Hlate)
    as (frame & a & t & level & earlier & Hrun & Ht & Hearly).
  { split; [reflexivity|]. split; [apply sound_filter_new|].
    intros prev Hprev. discriminate Hprev. }
  rewrite app_nil_r in Hrun.
  exists frame, a, t, level, earlier. split; [exact Hrun|]. split; assumption.
Qed.

Lemma X9_still_scene_locks_witness :
  exists frame a t level earlier,
    Stabilizer.getStabilizedFrame 1000 Scenes.tripod =
      Stabilizer.Done frame true a ((t, level) :: earlier) /\
    400 < t - 1000 /\
    Forall (fun smp => fst smp - 1000 <= 400) earlier.
Proof.
  apply (X9_still_scene_locks 1000 (Motion.data (Motion.flat 7)) Scenes.tripod).
  - repeat (constructor; [split; reflexivity|]). constructor.
  - do 3 apply Exists_cons_tl. apply Exists_cons_hd. cbn. lia.
Defined.

(** X10.  A tick that finds a ref or a context missing while the attempt
    is still pending ends the sampling without resolving: whatever ticks
    follow, [getStabilizedFrame] stays unsettled, and a capture request
    waiting for it never completes. *)
Theorem X10_missing_ref_hangs (start : Z) (pre post : list Stabilizer.Tick)
    (t : Stabilizer.Tick) (a : Stabilizer.Attempt)
    (log : list Stabilizer.Sample) :
  Stabilizer.getStabilizedFrame start pre = Stabilizer.Pending a log ->
  Stabilizer.refsOk t = false ->
  Stabilizer.getStabilizedFrame start (pre ++ t :: post) =
    Stabilizer.Hung log /\
  forall (c : Visual.Component) (mode : Visual.Mode) (w : Visual.World),
    Visual.refsPresent c = true ->
    Visual.isProcessing c = false ->
    Visual.isStabilizing c = false ->
    Visual.startTime w = start ->
    Visual.ticks w = pre ++ t :: post ->
    Visual.captureAndAnalyze c mode w = None.
Proof.
  intros Hpre Hmissing.
  assert (Hhung : Stabilizer.getStabilizedFrame start (pre ++ t :: post) =
                  Stabilizer.Hung log).
  { unfold Stabilizer.getStabilizedFrame in *. rewrite run_app, Hpre.
    cbn [Stabilizer.run].
    rewrite (proj2 (checkMotion_abandons a t) Hmissing). reflexivity. }
  split; [exact Hhung|].
  intros c mode w Hrefs Hproc Hstab Hstart Hticks.
  unfold Visual.captureAndAnalyze. rewrite Hrefs, Hproc, Hstab, Hstart, Hticks.
  cbn [negb orb]. rewrite Hhung. reflexivity.
Qed.

Lemma X10_missing_ref_hangs_witness :
  Stabilizer.getStabilizedFrame 1000
    ([] ++ Scenes.torn_down 1000 :: Stabilizer.shaky) = Stabilizer.Hung [].
Proof.
  apply (X10_missing_ref_hangs 1000 [] Stabilizer.shaky
           (Scenes.torn_down 1000) (Stabilizer.begin 1000) []);
    reflexivity.
Defined.

Section CandidateFacts.
Import Stabilizer.

(** An attempt that resolves has taken some of the ticks, one sample for
    each, and the frame it resolves with is the encoding of one of the
    frames it took, or the non-empty frame it held before. *)
Lemma run_samples (ticks : list Tick) :
  forall (a : Attempt) (log : list Sample) frame locked a' log',
    run a log ticks = Done frame locked a' log' ->
    exists n,
      (1 <= n <= length ticks)%nat /\
      length log' = (length log + n)%nat /\
      (In frame (map currentFrame (firstn n ticks)) \/
       (frame = bestFrame a /\ is_empty (bestFrame a) = false)).
Proof.
  induction ticks as [|t rest IH]; intros a log frame locked a' log';
    cbn [run]; [discriminate|].
  destruct (checkMotion a t) as [|f l lev a1|a1] eqn:Step; [discriminate | |].
  - intros [= <- <- <- <-].
    apply checkMotion_resolved in Step as (_ & _ & _ & _ & _ & Horigin).
    exists 1%nat. split; [cbn; lia|]. split; [cbn; lia|].
    destruct Horigin as [-> | Hheld]; [left; left; reflexivity | right; exact Hheld].
  - intros Hrun.
    apply checkMotion_rescheduled in Step as (_ & _ & _ & Horigin).
    destruct (IH _ _ _ _ _ _ Hrun) as (n & Hn & Hlen & Hfrom).
    exists (S n). split; [cbn; lia|]. split; [cbn in Hlen; lia|].
    cbn [firstn map In].
    destruct Hfrom as [Hin | [Heq Hne]]; [left; right; exact Hin|].
    destruct Horigin as [Hcur | [Hold Hne_old]].
    + left; left. congruence.
    + right. split; congruence.
Qed.

(** When the first frame has an encoding, it is the one an attempt
    resolves with. *)
Lemma run_returns_first (start : Z) (first : Tick) (rest : list Tick)
    frame locked a log :
  Forall (fun t => refsOk t = true) (first :: rest) ->
  currentFrame first <> EmptyString ->
  getStabilizedFrame start (first :: rest) = Done frame locked a log ->
  frame = currentFrame first.
Proof.
  intros Hok Hfull. inversion Hok as [|? ? Hok1 Hok_rest]; subst.
  unfold getStabilizedFrame. cbn [run].
  rewrite (checkMotion_body (begin start) first Hok1). cbv zeta.
  cbn [begin minFilteredMotion bestFrame below_min orb prevData kFilter
       startTime Motion.rawMotionScore].
  destruct (lockTest _ _ || timeoutTest _).
  - intros [= <- _ _ _]. reflexivity.
  - apply holds_first_run; [exact Hok_rest|].
    unfold Keeps.holds_first. cbn [bestFrame minFilteredMotion kFilter].
    split; [reflexivity|]. split.
    { destruct (currentFrame first); [contradiction | reflexivity]. }
    split.
    { eexists. split; [reflexivity|]. apply Qle_bool_imp_le. reflexivity. }
    split; [apply Qle_bool_imp_le; reflexivity|].
    apply sound_filter_step. apply sound_filter_new.
Qed.

End CandidateFacts.

(** C3, as worded: one processed sample would be enough for the attempt
    to resolve with a frame that is not empty.  Two scenes refute it.  In
    the first a sample is processed and the next tick finds a ref
    missing: the attempt never resolves, although the timer goes on past
    the time limit.  In the second every tick is processed, but the
    camera has no pixels yet and every encoding is empty: the attempt
    resolves with the empty string. *)
Lemma C3_one_sample_is_not_enough :
  ~ Stabilizer.always_some_frame /\
  Stabilizer.getStabilizedFrame 1000 Scenes.unplugged =
    Stabilizer.Hung [(1000, 100%Q)] /\
  Stabilizer.resolution (Stabilizer.getStabilizedFrame 1000 Scenes.dark) =
    Some EmptyString.
Proof.
  assert (Hhung : Stabilizer.getStabilizedFrame 1000 Scenes.unplugged =
                  Stabilizer.Hung [(1000, 100%Q)]) by (vm_compute; reflexivity).
  split; [|split; [exact Hhung | vm_compute; reflexivity]].
  intros Hclaim.
  destruct (Hclaim 1000 (Stabilizer.shot 255 1000 "/9j/AAAA")
              [ Scenes.torn_down 1900; Stabilizer.shot 0 2800 "/9j/CCCC";
                Stabilizer.shot 0 4600 "/9j/EEEE" ])
    as (frame & locked & a & log & Hrun & _).
  - reflexivity.
  - do 3 apply Exists_cons_tl. apply Exists_cons_hd.
    unfold Stabilizer.MAX_DURATION. cbn. lia.
  - change (Stabilizer.getStabilizedFrame 1000 Scenes.unplugged =
            Stabilizer.Done frame locked a log) in Hrun.
    rewrite Hhung in Hrun. discriminate Hrun.
Qed.

(** C3, amended.  Take an attempt whose ticks all find the video, the
    canvases and their contexts in place, and whose clock at some tick
    shows at least [MAX_DURATION] ms elapsed.  Then [getStabilizedFrame]
    resolves, whatever the motion, at the first sample that meets the
    lock test or the time limit, and with the candidate it holds then.
    The frame of the first sample is that candidate whenever its encoding
    is not empty; in every case the candidate is the encoding of one of
    the frames sampled up to there, so it is not empty when those
    encodings are not. *)
Theorem C3_frame_rule (start : Z) (first : Stabilizer.Tick)
    (rest : list Stabilizer.Tick) :
  Forall (fun t => Stabilizer.refsOk t = true) (first :: rest) ->
  Exists (fun t => Stabilizer.MAX_DURATION <= Stabilizer.now t - start)
    (first :: rest) ->
  exists frame locked a t level older,
    Stabilizer.getStabilizedFrame start (first :: rest) =
      Stabilizer.Done frame locked a ((t, level) :: older) /\
    Stabilizer.bestFrame a = frame /\
    (((95 < level)%Q /\ 400 < t - start) \/
     Stabilizer.MAX_DURATION <= t - start) /\
    Forall (Stabilizer.went_on start) older /\
    (Stabilizer.currentFrame first <> EmptyString ->
     frame = Stabilizer.currentFrame first) /\
    In frame
      (map Stabilizer.currentFrame (firstn (S (length older)) (first :: rest))) /\
    (Forall (fun t => Stabilizer.currentFrame t <> EmptyString)
       (firstn (S (length older)) (first :: rest)) ->
     frame <> EmptyString).
Proof.
  intros Hok Hlate.
  destruct (run_resolves (first :: rest) (Stabilizer.begin start) [] Hok Hlate)
    as (frame & locked & a & log & Hrun & Hbest & _).
  destruct (run_exit_rule (first :: rest) (Stabilizer.begin start) []
              frame locked a log (List.Forall_nil _) Hrun)
    as (t & level & older & -> & Hlock & Htime & _ & Holder).
  destruct (run_samples (first :: rest) (Stabilizer.begin start) []
              frame locked a _ Hrun) as (n & _ & Hlen & Hfrom).
  cbn [length Nat.add] in Hlen. subst n.
  assert (Hin : In frame (map Stabilizer.currentFrame
                            (firstn (S (length older)) (first :: rest)))).
  { destruct Hfrom as [Hin | [_ Hne]]; [exact Hin | discriminate Hne]. }
  exists frame, locked, a, t, level, older.
  split; [exact Hrun|]. split; [exact Hbest|]. split.
  { destruct locked; [left; apply Hlock | right; apply Htime]; reflexivity. }
  split; [exact Holder|]. split.
  { intros Hfull.
    exact (run_returns_first start first rest frame locked a _ Hok Hfull Hrun). }
  split; [exact Hin|].
  intros Hframes. apply in_map_iff in Hin as (u & <- & Hu).
  rewrite List.Forall_forall in Hframes. apply Hframes. exact Hu.
Qed.

Lemma C3_frame_rule_witness :
  exists frame locked a t level older,
    Stabilizer.getStabilizedFrame 1000 Stabilizer.shaky =
      Stabilizer.Done frame locked a ((t, level) :: older) /\
    Stabilizer.bestFrame a = frame /\
    frame = "/9j/AAAA" /\
    Stabilizer.MAX_DURATION <= 4600 - 1000.
Proof.
  destruct (C3_frame_rule 1000 (Stabilizer.shot 255 1000 "/9j/AAAA")
              [ Stabilizer.shot 0 1900 "/9j/BBBB";
                Stabilizer.shot 255 2800 "/9j/CCCC";
                Stabilizer.shot 0 3700 "/9j/DDDD";
                Stabilizer.shot 255 4600 "/9j/EEEE" ])
    as (frame & locked & a & t & level & older & Hrun & Hbest & _ & _ &
        Hfirst & _).
  - repeat (constructor; [reflexivity|]). constructor.
  - do 4 apply Exists_cons_tl. apply Exists_cons_hd.
    unfold Stabilizer.MAX_DURATION. cbn. lia.
  - exists frame, locked, a, t, level, older.
    split; [exact Hrun|]. split; [exact Hbest|].
    split; [apply Hfirst; discriminate|].
    unfold Stabilizer.MAX_DURATION. lia.
Defined.

Lemma caption_locked (level : Q) :
  Feedback.getStabilityText level = "CAPTURE LOCKED!" <-> (100 <= level)%Q.
Proof.
  unfold Feedback.getStabilityText. rewrite <- Qle_bool_iff.
  destruct (Qle_bool 100 level); [split; reflexivity|].
  destruct (Qltb 90 level); [split; discriminate|].
  destruct (Qltb 70 level); [split; discriminate|].
  destruct (Qltb 40 level); split; discriminate.
Qed.

(** X11.  The caption reads "CAPTURE LOCKED!" exactly when the level is
    at least 100.  So it reads that after every attempt that resolved,
    by timeout as well as by lock; and it reads that already at the first
    sample of an attempt, when nothing has resolved yet, because the
    first sample has no motion to show. *)
Theorem X11_caption_says_locked :
  (forall level : Q,
      Feedback.getStabilityText level = "CAPTURE LOCKED!" <->
      (100 <= level)%Q) /\
  (forall start ticks frame locked a log,
      Stabilizer.getStabilizedFrame start ticks =
        Stabilizer.Done frame locked a log ->
      Feedback.getStabilityText (Stabilizer.stabilityLevel a) =
        "CAPTURE LOCKED!") /\
  (forall start t a',
      Stabilizer.checkMotion (Stabilizer.begin start) t =
        Stabilizer.Rescheduled a' ->
      Feedback.getStabilityText (Stabilizer.stabilityLevel a') =
        "CAPTURE LOCKED!").
Proof.
  split; [exact caption_locked|]. split.
  - intros start ticks frame locked a log Hrun.
    destruct (run_exit_rule ticks (Stabilizer.begin start) [] frame locked a
                log (List.Forall_nil _) Hrun)
      as (_ & _ & _ & _ & _ & _ & Hlevel & _).
    rewrite Hlevel. reflexivity.
  - intros start t a' Hstep.
    destruct (Stabilizer.refsOk t) eqn:Hok.
    + rewrite (checkMotion_body (Stabilizer.begin start) t Hok) in Hstep.
      cbv zeta in Hstep.
      destruct (Stabilizer.lockTest _ _ || Stabilizer.timeoutTest _);
        [discriminate|].
      injection Hstep as <-. cbn [Stabilizer.stabilityLevel].
      apply caption_locked. apply Qle_bool_imp_le. reflexivity.
    + rewrite (proj2 (checkMotion_abandons (Stabilizer.begin start) t) Hok)
        in Hstep.
      discriminate Hstep.
Qed.

Lemma X11_caption_says_locked_witness :
  exists frame locked a log,
    Stabilizer.getStabilizedFrame 1000 Stabilizer.shaky =
      Stabilizer.Done frame locked a log /\
    Feedback.getStabilityText (Stabilizer.stabilityLevel a) =
      "CAPTURE LOCKED!".
Proof.
  assert (Hok : Forall (fun t => Stabilizer.refsOk t = true) Stabilizer.shaky).
  { repeat (constructor; [reflexivity|]). constructor. }
  destruct (run_resolves Stabilizer.shaky (Stabilizer.begin 1000) [] Hok)
    as (frame & locked & a & log & Hrun & _).
  { do 4 apply Exists_cons_tl. apply Exists_cons_hd.
    unfold Stabilizer.MAX_DURATION. cbn. lia. }
  exists frame, locked, a, log. split; [exact Hrun|].
  destruct X11_caption_says_locked as (_ & Hdone & _).
  apply (Hdone 1000 Stabilizer.shaky frame locked a log Hrun).
Defined.

(* ===================================================================== *)
(** ** More on the retry wrapper                                          *)
(* ===================================================================== *)

Section RetryTrace.
Import Retry.
Context {T E : Type}.
Variable task : nat -> outcome T E.
Variables maxRetries delay : Z.

(** Entered with budget left, the loop invokes the task until it
    succeeds or the budget is spent: every invocation before the last one
    failed, and it waited [delay] once after each of these. *)
Lemma loop_trace (n : nat) :
  forall (attempt : Z) (calls : nat) (slept : list Z),
    attempt <= maxRetries -> Z.to_nat (maxRetries - attempt) = n ->
    let r := loop task maxRetries delay attempt calls slept in
    (calls < invocations r)%nat /\
    (forall i, (calls <= i < invocations r - 1)%nat ->
               exists e, task i = Rejected e) /\
    sleeps r = slept ++ repeat delay (invocations r - 1 - calls).
Proof.
  induction n as [|n IH]; intros attempt calls slept Hle Hn r; subst r;
    rewrite loop_body;
    (destruct (Z.leb_spec attempt maxRetries); [|lia]);
    destruct (task calls) as [v|e] eqn:Hcall; cbn [sleeps invocations].
  - rewrite Nat.sub_succ, Nat.sub_0_r, Nat.sub_diag. cbn [repeat].
    rewrite app_nil_r. repeat split; [lia | intros i Hi; lia].
  - destruct (Z.eqb_spec attempt maxRetries); [|lia]. cbn [sleeps invocations].
    rewrite Nat.sub_succ, Nat.sub_0_r, Nat.sub_diag. cbn [repeat].
    rewrite app_nil_r. repeat split; [lia | intros i Hi; lia].
  - rewrite Nat.sub_succ, Nat.sub_0_r, Nat.sub_diag. cbn [repeat].
    rewrite app_nil_r. repeat split; [lia | intros i Hi; lia].
  - destruct (Z.eqb_spec attempt maxRetries); [lia|].
    destruct (IH (attempt + 1) (S calls) (slept ++ [delay]))
      as (Hcount & Hfailed & Hslept); [lia | lia |].
    set (r := loop task maxRetries delay (attempt + 1) (S calls)
                (slept ++ [delay])) in *.
    split; [lia|]. split.
    + intros i Hi. destruct (Nat.eq_dec i calls) as [-> | Hne].
      * exists e. exact Hcall.
      * apply Hfailed. lia.
    + rewrite Hslept, <- app_assoc. f_equal.
      replace (invocations r - 1 - calls)%nat
        with (S (invocations r - 1 - S calls)) by lia.
      reflexivity.
Qed.

End RetryTrace.

(** X12.  With a budget that is not negative, [retryTask] stops at the
    first invocation that succeeds: every invocation before its last one
    failed.  Between two invocations it waits [delay] exactly once, and it
    does not wait after the last one. *)
Theorem X12_retry_stops_at_first_success {T E : Type}
    (task : nat -> Retry.outcome T E) (maxRetries delay : Z) :
  0 <= maxRetries ->
  let r := Retry.retryTask task maxRetries delay in
  (forall i, (i < Retry.invocations r - 1)%nat ->
             exists e, task i = Retry.Rejected e) /\
  Retry.sleeps r = repeat delay (Retry.invocations r - 1).
Proof.
  intros Hbudget r.
  destruct (loop_trace task maxRetries delay (Z.to_nat maxRetries) 0 0%nat [])
    as (_ & Hfailed & Hslept); [lia | f_equal; lia |].
  fold (Retry.retryTask task maxRetries delay) in Hfailed, Hslept.
  fold r in Hfailed, Hslept. split.
  - intros i Hi. apply Hfailed. lia.
  - rewrite Hslept, Nat.sub_0_r. reflexivity.
Qed.

Lemma X12_retry_stops_at_first_success_witness :
  let r := Retry.retryTask (Retry.flaky 1 "ok") 5 250 in
  (forall i, (i < Retry.invocations r - 1)%nat ->
             exists e, Retry.flaky 1 "ok" i = Retry.Rejected e) /\
  Retry.sleeps r = repeat 250 (Retry.invocations r - 1).
Proof.
  apply (X12_retry_stops_at_first_success (Retry.flaky 1 "ok") 5 250). lia.
Defined.

(** X13.  With a negative budget [retryTask] never invokes the task and
    never waits: it rejects at once with the error it makes up itself,
    "Unexpected retry failure". *)
Theorem X13_negative_budget_never_calls {T E : Type}
    (task : nat -> Retry.outcome T E) (maxRetries delay : Z) :
  maxRetries < 0 ->
  Retry.result (Retry.retryTask task maxRetries delay) = Retry.Unexpected /\
  Retry.invocations (Retry.retryTask task maxRetries delay) = 0%nat /\
  Retry.sleeps (Retry.retryTask task maxRetries delay) = [].
Proof.
  intros Hneg.
  rewrite (negative_budget_is_unexpected task maxRetries delay Hneg).
  repeat split.
Qed.

Lemma X13_negative_budget_never_calls_witness :
  Retry.result (Retry.retryTask (Retry.flaky 0 "ok") (-1) 1000) =
    Retry.Unexpected /\
  Retry.invocations (Retry.retryTask (Retry.flaky 0 "ok") (-1) 1000) = 0%nat /\
  Retry.sleeps (Retry.retryTask (Retry.flaky 0 "ok") (-1) 1000) = [].
Proof.
  apply (X13_negative_budget_never_calls (Retry.flaky 0 "ok") (-1) 1000). lia.
Defined.

(* ===================================================================== *)
(** ** Trimming and the local reader                                      *)
(* ===================================================================== *)

Section TrimFacts.
Import Text.
Local Abbreviation chars := Strings.String.list_ascii_of_string.
Local Abbreviation text_of := Strings.String.string_of_list_ascii.


Lemma chars_text_of (l : list Strings.Ascii.ascii) : chars (text_of l) = l.
Proof. apply Strings.String.list_ascii_of_string_of_list_ascii. Qed.

Lemma chars_trim (s : string) :
  chars (trim s) = rev (skip white_end (rev (skip white (chars s)))).
Proof.
  unfold trim, trimEnd, trimStart. rewrite !chars_text_of. reflexivity.
Qed.

Lemma chars_empty (s : string) : is_empty s = true <-> chars s = [].
Proof. destruct s; cbn; split; congruence. Qed.

Lemma same_spec (p q : list Strings.Ascii.ascii) : same p q = true <-> p = q.
Proof.
  revert q. induction p as [|a p IH]; intros [|b q]; cbn;
    try (split; congruence).
  rewrite andb_true_iff, IH, Strings.Ascii.eqb_eq.
  split; [intros [-> ->]; reflexivity | intros [= -> ->]; auto].
Qed.

(** [white] accepts the encodings of the white space code points and
    nothing else. *)
Lemma white_spec (p : list Strings.Ascii.ascii) :
  white p = true <-> exists cp, In cp WHITE_SPACE /\ p = utf8 cp.
Proof.
  unfold white. rewrite existsb_exists. split.
  - intros (cp & Hin & Hsame). exists cp. split; [exact Hin|].
    symmetry. apply same_spec. exact Hsame.
  - intros (cp & Hin & ->). exists cp. split; [exact Hin|].
    apply same_spec. reflexivity.
Qed.

Section Skip.
Variable w : list Strings.Ascii.ascii -> bool.

(** The three ways [skip] goes on and the way it stops. *)
Lemma skip_one a l : w [a] = true -> skip w (a :: l) = skip w l.
Proof. intros H. cbn. rewrite H. reflexivity. Qed.

Lemma skip_two a b l :
  w [a] = false -> w [a; b] = true -> skip w (a :: b :: l) = skip w l.
Proof. intros H1 H2. cbn. rewrite H1, H2. reflexivity. Qed.

Lemma skip_three a b c l :
  w [a] = false -> w [a; b] = false -> w [a; b; c] = true ->
  skip w (a :: b :: c :: l) = skip w l.
Proof. intros H1 H2 H3. cbn. rewrite H1, H2, H3. reflexivity. Qed.

(** Induction over the way [skip] reads a list. *)
Lemma skip_ind (P : list Strings.Ascii.ascii -> Prop) :
  P [] ->
  (forall a l, w [a] = true -> P l -> P (a :: l)) ->
  (forall a b l, w [a] = false -> w [a; b] = true -> P l -> P (a :: b :: l)) ->
  (forall a b c l, w [a] = false -> w [a; b] = false -> w [a; b; c] = true ->
                   P l -> P (a :: b :: c :: l)) ->
  (forall l, l <> [] -> skip w l = l -> ~ starts_white w l -> P l) ->
  forall l, P l.
Proof.
  intros Hnil H1 H2 H3 Hstop l.
  assert (Hall : forall n l, (length l <= n)%nat -> P l).
  { clear l. induction n as [|n IH]; intros l Hlen.
    - destruct l; [exact Hnil | cbn in Hlen; lia].
    - destruct l as [|a l1]; [exact Hnil|].
      destruct (w [a]) eqn:Ha.
      { apply H1; [exact Ha|]. apply IH. cbn in Hlen. lia. }
      destruct l1 as [|b l2].
      { apply Hstop; [discriminate | cbn; rewrite Ha; reflexivity|].
        intros (p & rest & Hl & Hlen' & Hp).
        destruct p as [|x [|y p]]; cbn in Hlen'; try lia.
        - injection Hl as <- _. congruence.
        - discriminate Hl. }
      destruct (w [a; b]) eqn:Hb.
      { apply H2; [exact Ha | exact Hb|]. apply IH. cbn in Hlen |- *. lia. }
      destruct l2 as [|c l3].
      { apply Hstop; [discriminate | cbn; rewrite Ha, Hb; reflexivity|].
        intros (p & rest & Hl & Hlen' & Hp).
        destruct p as [|x [|y [|z p]]]; cbn in Hlen'; try lia.
        - injection Hl as <- _. congruence.
        - injection Hl as <- <- _. congruence.
        - discriminate Hl. }
      destruct (w [a; b; c]) eqn:Hc.
      { apply H3; [exact Ha | exact Hb | exact Hc|]. apply IH.
        cbn in Hlen |- *. lia. }
      apply Hstop; [discriminate | cbn; rewrite Ha, Hb, Hc; reflexivity|].
      intros (p & rest & Hl & Hlen' & Hp).
      destruct p as [|x [|y [|z [|u p]]]]; cbn in Hlen'; try lia.
      + injection Hl as <- _. congruence.
      + injection Hl as <- <- _. congruence.
      + injection Hl as <- <- <- _. congruence. }
  apply (Hall (length l)). lia.
Qed.

(** What [skip] takes off is a sequence of runs that [w] accepts, and
    what it leaves does not begin with such a run. *)
Lemma skip_split (l : list Strings.Ascii.ascii) :
  exists runs,
    Forall (fun p => (1 <= length p <= 3)%nat /\ w p = true) runs /\
    l = concat runs ++ skip w l /\
    skip w (skip w l) = skip w l /\
    ~ starts_white w (skip w l).
Proof.
  induction l as [| a l Ha (runs & Hruns & Hl & Hidem & Hclean)
                  | a b l Ha Hb (runs & Hruns & Hl & Hidem & Hclean)
                  | a b c l Ha Hb Hc (runs & Hruns & Hl & Hidem & Hclean)
                  | l Hne Hfix Hclean] using skip_ind.
  - exists []. split; [constructor|]. split; [reflexivity|].
    split; [reflexivity|].
    intros (p & rest & Hl & Hlen & _). destruct p; [cbn in Hlen; lia|].
    discriminate Hl.
  - exists ([a] :: runs). rewrite (skip_one a l Ha).
    split; [constructor; [split; [cbn; lia | exact Ha] | exact Hruns]|].
    split; [cbn; f_equal; exact Hl|]. split; assumption.
  - exists ([a; b] :: runs). rewrite (skip_two a b l Ha Hb).
    split; [constructor; [split; [cbn; lia | exact Hb] | exact Hruns]|].
    split; [cbn; do 2 f_equal; exact Hl|]. split; assumption.
  - exists ([a; b; c] :: runs). rewrite (skip_three a b c l Ha Hb Hc).
    split; [constructor; [split; [cbn; lia | exact Hc] | exact Hruns]|].
    split; [cbn; do 3 f_equal; exact Hl|]. split; assumption.
  - exists []. rewrite !Hfix. split; [constructor|].
    split; [reflexivity|]. split; [reflexivity | exact Hclean].
Qed.

Lemma skip_length (l : list Strings.Ascii.ascii) :
  (length (skip w l) <= length l)%nat.
Proof.
  destruct (skip_split l) as (runs & _ & Hl & _).
  rewrite Hl at 2. rewrite length_app. lia.
Qed.



End Skip.




(** Trimming the end of a front that does not begin with white space
    leaves nothing only if there was nothing. *)
Lemma trim_end_nothing (l : list Strings.Ascii.ascii) :
  ~ starts_white white l -> skip white_end (rev l) = [] -> l = [].
Proof.
  intros Hclean Hnone.
  destruct (skip_split white_end (rev l)) as (runs & Hruns & Hsplit & _).
  rewrite Hnone, app_nil_r in Hsplit.
  destruct runs as [|p runs] using rev_ind.
  - cbn in Hsplit. destruct l as [|a l]; [reflexivity|].
    apply (f_equal (@length _)) in Hsplit.
    rewrite length_rev in Hsplit. discriminate Hsplit.
  - exfalso. apply Hclean.
    apply Forall_app in Hruns as [_ Hp].
    apply Forall_inv in Hp as [Hlen Hp].
    rewrite concat_app in Hsplit. cbn in Hsplit. rewrite app_nil_r in Hsplit.
    apply (f_equal (@rev Strings.Ascii.ascii)) in Hsplit.
    rewrite rev_involutive, rev_app_distr in Hsplit.
    exists (rev p), (rev (concat runs)).
    split; [exact Hsplit|]. split; [rewrite length_rev; exact Hlen | exact Hp].
Qed.

(** The encoding of a white space code point is taken off whole. *)
Lemma skip_white_point (cp : Z) (l : list Strings.Ascii.ascii) :
  In cp WHITE_SPACE -> skip white (utf8 cp ++ l) = skip white l.
Proof.
  intros Hin. unfold WHITE_SPACE in Hin. cbn [In] in Hin.
  repeat (destruct Hin as [<- | Hin];
          [ first [ apply skip_one; reflexivity
                  | apply skip_two; reflexivity
                  | apply skip_three; reflexivity ] |]).
  contradiction.
Qed.

Lemma skip_white_points (points : list Z) :
  Forall (fun cp => In cp WHITE_SPACE) points ->
  skip white (flat_map utf8 points) = [].
Proof.
  induction 1 as [|cp points Hcp _ IH]; [reflexivity|].
  cbn [flat_map]. rewrite (skip_white_point cp _ Hcp). exact IH.
Qed.

Lemma runs_are_points (runs : list (list Strings.Ascii.ascii)) :
  Forall (fun p => (1 <= length p <= 3)%nat /\ white p = true) runs ->
  exists points,
    Forall (fun cp => In cp WHITE_SPACE) points /\
    concat runs = flat_map utf8 points.
Proof.
  induction 1 as [|p runs [_ Hp] _ (points & Hpoints & Hruns)].
  - exists []. split; [constructor | reflexivity].
  - apply white_spec in Hp as (cp & Hcp & ->).
    exists (cp :: points). split; [constructor; assumption|].
    cbn. rewrite Hruns. reflexivity.
Qed.

(** A text trims to nothing exactly when it is white space only. *)
Lemma trim_empty (s : string) : is_empty (trim s) = true <-> white_only s.
Proof.
  rewrite chars_empty, chars_trim. split.
  - intros Hnone.
    apply (f_equal (@rev Strings.Ascii.ascii)) in Hnone.
    rewrite rev_involutive in Hnone. cbn in Hnone.
    destruct (skip_split white (chars s)) as (runs & Hruns & Hsplit & _ & Hclean).
    apply (trim_end_nothing _ Hclean) in Hnone.
    rewrite Hnone, app_nil_r in Hsplit.
    destruct (runs_are_points runs Hruns) as (points & Hpoints & Heq).
    exists points. split; [exact Hpoints|]. rewrite Hsplit. exact Heq.
  - intros (points & Hpoints & ->).
    rewrite (skip_white_points points Hpoints). reflexivity.
Qed.

(** ** The same on code points *)














End TrimFacts.



(* ===================================================================== *)
(** ** More on the visual path                                            *)
(* ===================================================================== *)

Section RequestFacts.
Import Visual Retry.

Lemma append_empty (a b : string) :
  is_empty (a +:+ b) = is_empty a && is_empty b.
Proof. destruct a; reflexivity. Qed.

Lemma not_empty (s : string) : is_empty s = false <-> s <> EmptyString.
Proof. destruct s; cbn; split; congruence. Qed.

(** What [retryTask] returns was produced by an invocation of the task. *)
Lemma returned_is_produced {T E : Type} (task : nat -> outcome T E)
    (maxRetries delay : Z) (v : T) :
  0 <= maxRetries ->
  result (retryTask task maxRetries delay) = Returned v ->
  exists i, task i = Fulfilled v.
Proof.
  intros Hbudget Hret.
  destruct (loop_settles task maxRetries delay (Z.to_nat maxRetries)
              0 0%nat []) as [_ Hend]; [lia | f_equal; lia |].
  fold (retryTask task maxRetries delay) in Hend.
  destruct Hend as [(v' & Hv' & Hlast) | (e & He & _)]; [|congruence].
  rewrite Hret in Hv'. injection Hv' as <-. eauto.
Qed.

(** The text the local reader hands on is not empty. *)
Lemma ocr_not_empty (w : World) (image text : string) :
  performOfflineOCR w image = Fulfilled text -> is_empty text = false.
Proof.
  unfold performOfflineOCR. destruct (recognize w image) as [raw|e];
    [|discriminate].
  destruct (is_empty (trim raw)) eqn:Hraw; intros [= <-];
    [reflexivity | exact Hraw].
Qed.

(** A request that is accepted and whose frame arrives: state and
    effects in terms of [analyze]. *)
Lemma accepted_request (c : Component) (mode : Mode) (w : World) c' effects :
  refsPresent c = true -> isProcessing c = false -> isStabilizing c = false ->
  captureAndAnalyze c mode w = Some (c', effects) ->
  exists frame,
    Stabilizer.resolution
      (Stabilizer.getStabilizedFrame (startTime w) (ticks w)) = Some frame /\
    isProcessing c' = false /\ isStabilizing c' = false /\
    stabilityLevel c' = 0%Q /\ isOnline c' = isOnline c /\
    (resultText c', effects) =
      match analyze w (isOnline c) frame mode with
      | Fulfilled r => r
      | Rejected _ => (FAILURE_TEXT, silent)
      end.
Proof.
  intros Hrefs Hproc Hstab. unfold captureAndAnalyze.
  rewrite Hrefs, Hproc, Hstab. cbn [negb orb].
  destruct (Stabilizer.getStabilizedFrame _ _) as [|?|frame locked a log];
    try discriminate.
  destruct (match analyze w (isOnline c) frame mode with
            | Fulfilled r => r
            | Rejected _ => (FAILURE_TEXT, silent)
            end) as [text eff] eqn:Han.
  intros [= <- <-]. exists frame. cbn. repeat split.
  symmetry. exact Han.
Qed.

End RequestFacts.

(** X15.  While the device is offline a capture request never consults
    the remote service: two worlds that differ only in what
    [describeImage], [generateSpeech] and the audio player would answer
    lead to the same state and the same effects. *)
Theorem X15_offline_never_calls_remote (c : Visual.Component)
    (mode : Visual.Mode) (w w' : Visual.World) :
  Visual.isOnline c = false ->
  Visual.startTime w = Visual.startTime w' ->
  Visual.ticks w = Visual.ticks w' ->
  Visual.recognize w = Visual.recognize w' ->
  Visual.captureAndAnalyze c mode w = Visual.captureAndAnalyze c mode w'.
Proof.
  intros Hoff Hstart Hticks Hocr.
  unfold Visual.captureAndAnalyze, Visual.analyze, Visual.performOfflineOCR.
  rewrite Hoff, Hstart, Hticks, Hocr. reflexivity.
Qed.

Lemma X15_offline_never_calls_remote_witness :
  Visual.captureAndAnalyze (Visual.idle false) Visual.explain
    Visual.service_down =
  Visual.captureAndAnalyze (Visual.idle false) Visual.explain Service.chatty.
Proof.
  apply (X15_offline_never_calls_remote (Visual.idle false) Visual.explain
           Visual.service_down Service.chatty); reflexivity.
Defined.

(** X16.  A capture request that is accepted and completes always leaves
    both busy flags off and the stability level at 0, and ends in exactly
    one of three ways: the remote audio is played and nothing is spoken
    locally (only when online); or the text of the local reader is spoken
    locally, no remote audio is played, and the text displayed is that
    text, bare or behind one of the two labels; or the failure sentence is
    displayed and nothing is spoken or played. *)
Theorem X16_request_ends_one_of_three_ways (c : Visual.Component)
    (mode : Visual.Mode) (w : Visual.World) (c' : Visual.Component)
    (effects : Visual.Effects) :
  Visual.refsPresent c = true ->
  Visual.isProcessing c = false ->
  Visual.isStabilizing c = false ->
  Visual.captureAndAnalyze c mode w = Some (c', effects) ->
  Visual.isProcessing c' = false /\ Visual.isStabilizing c' = false /\
  Visual.stabilityLevel c' = 0%Q /\
  ((exists audio, Visual.playedRemote effects = Some audio /\
                  Visual.spokenOffline effects = None /\
                  Visual.isOnline c = true) \/
   (exists text, Visual.spokenOffline effects = Some text /\
                 Visual.playedRemote effects = None /\
                 text <> EmptyString /\
                 (Visual.resultText c' = text \/
                  Visual.resultText c' = Visual.FALLBACK_LABEL +:+ text \/
                  Visual.resultText c' = Visual.BASIC_ONLY_LABEL +:+ text)) \/
   (Visual.resultText c' = Visual.FAILURE_TEXT /\
    Visual.spokenOffline effects = None /\
    Visual.playedRemote effects = None)).
Proof.
  intros Hrefs Hproc Hstab Hdone.
  destruct (accepted_request c mode w c' effects Hrefs Hproc Hstab Hdone)
    as (frame & _ & Hp & Hs & Hl & _ & Hout).
  split; [exact Hp|]. split; [exact Hs|]. split; [exact Hl|].
  revert Hout. unfold Visual.analyze.
  destruct (Visual.isOnline c).
  - destruct (Visual.remotePath w frame mode) as [[text audio]|e].
    + intros [= -> ->]. left. exists audio. repeat split.
    + destruct (Visual.performOfflineOCR w frame) as [text|e'] eqn:Hocr.
      * intros [= -> ->]. right. left. exists text.
        apply ocr_not_empty, not_empty in Hocr. cbn. auto 6.
      * intros [= -> ->]. right. right. repeat split.
  - destruct (Visual.performOfflineOCR w frame) as [text|e'] eqn:Hocr.
    + intros [= -> ->]. right. left. exists text.
      apply ocr_not_empty, not_empty in Hocr. cbn.
      destruct (Visual.is_read mode); cbn; auto 6.
    + intros [= -> ->]. right. right. repeat split.
Qed.

Lemma X16_request_ends_one_of_three_ways_witness :
  exists c' effects,
    Visual.captureAndAnalyze (Visual.idle true) Visual.read Service.chatty =
      Some (c', effects) /\
    Visual.isProcessing c' = false /\ Visual.isStabilizing c' = false /\
    Visual.stabilityLevel c' = 0%Q.
Proof.
  destruct (Visual.captureAndAnalyze (Visual.idle true) Visual.read
              Service.chatty) as [[c' effects]|] eqn:Hdone;
    [|vm_compute in Hdone; discriminate Hdone].
  exists c', effects. split; [reflexivity|].
  destruct (X16_request_ends_one_of_three_ways (Visual.idle true) Visual.read
              Service.chatty c' effects eq_refl eq_refl eq_refl Hdone)
    as (Hp & Hs & Hl & _).
  auto.
Defined.

Section ServedFacts.
Import Visual Retry.

Lemma orElse_not_empty (value : option string) (fallback : string) :
  is_empty fallback = false ->
  is_empty (Service.orElse value fallback) = false.
Proof.
  intros Hfb. unfold Service.orElse. destruct value as [text|]; [|exact Hfb].
  destruct (is_empty text) eqn:Ht; [exact Hfb | exact Ht].
Qed.

Lemma described_not_empty response (text : string) :
  Service.describeImage response = Fulfilled text -> is_empty text = false.
Proof.
  destruct response as [value|e]; [|discriminate].
  intros [= <-]. apply orElse_not_empty. reflexivity.
Qed.

Lemma spoken_not_empty response (audio : string) :
  Service.generateSpeech response = Fulfilled audio -> is_empty audio = false.
Proof.
  destruct response as [[value|]|e]; cbn; try discriminate.
  destruct (is_empty value) eqn:Hv; [discriminate|].
  intros [= <-]. exact Hv.
Qed.

(** With the service functions behind it, the remote path yields a text
    and an audio payload that are not empty. *)
Lemma remotePath_not_empty (w : World) (frame : string) (mode : Mode)
    (text audio : string) :
  Service.served w ->
  remotePath w frame mode = Fulfilled (text, audio) ->
  is_empty text = false /\ is_empty audio = false.
Proof.
  intros [Hdescribe Hspeak]. unfold remotePath, retryTask_default.
  destruct (result (retryTask (describeImage w frame mode) _ _))
    as [text'| |] eqn:Htext; try discriminate.
  destruct (result (retryTask (generateSpeech w text') _ _))
    as [audio'| |] eqn:Haudio; try discriminate.
  destruct (playAudio w audio'); [|discriminate].
  intros [= <- <-].
  apply returned_is_produced in Htext as [i Hi];
    [|unfold DEFAULT_MAX_RETRIES; lia].
  apply returned_is_produced in Haudio as [j Hj];
    [|unfold DEFAULT_MAX_RETRIES; lia].
  destruct (Hdescribe frame mode i) as [r1 Hr1].
  destruct (Hspeak text' j) as [r2 Hr2].
  rewrite Hr1 in Hi. rewrite Hr2 in Hj.
  split; [exact (described_not_empty _ _ Hi) | exact (spoken_not_empty _ _ Hj)].
Qed.

End ServedFacts.

(** X17.  When the remote calls go through [describeImage] and
    [generateSpeech] of the service module, a capture request that is
    accepted and completes never leaves the result text empty, and the
    remote audio it plays, if any, is never an empty payload. *)
Theorem X17_result_is_never_blank (c : Visual.Component)
    (mode : Visual.Mode) (w : Visual.World) (c' : Visual.Component)
    (effects : Visual.Effects) :
  Service.served w ->
  Visual.refsPresent c = true ->
  Visual.isProcessing c = false ->
  Visual.isStabilizing c = false ->
  Visual.captureAndAnalyze c mode w = Some (c', effects) ->
  Visual.resultText c' <> EmptyString /\
  (forall audio, Visual.playedRemote effects = Some audio ->
                 audio <> EmptyString).
Proof.
  intros Hserved Hrefs Hproc Hstab Hdone.
  destruct (accepted_request c mode w c' effects Hrefs Hproc Hstab Hdone)
    as (frame & _ & _ & _ & _ & _ & Hout).
  revert Hout. unfold Visual.analyze.
  destruct (Visual.isOnline c).
  - destruct (Visual.remotePath w frame mode) as [[text audio]|e] eqn:Hremote.
    + apply (remotePath_not_empty w frame mode text audio Hserved) in Hremote
        as [Ht Ha].
      intros [= -> ->]. cbn. split; [apply not_empty; exact Ht|].
      intros audio' [= <-]. apply not_empty. exact Ha.
    + destruct (Visual.performOfflineOCR w frame) as [text|e'] eqn:Hocr;
        intros [= -> ->]; cbn; (split; [|discriminate]).
      * apply not_empty. rewrite append_empty. reflexivity.
      * discriminate.
  - destruct (Visual.performOfflineOCR w frame) as [text|e'] eqn:Hocr;
      intros [= -> ->]; cbn; (split; [|discriminate]).
    + apply not_empty. destruct (Visual.is_read mode); cbn.
      * exact (ocr_not_empty _ _ _ Hocr).
      * rewrite append_empty. reflexivity.
    + discriminate.
Qed.

Lemma X17_result_is_never_blank_witness :
  exists c' effects,
    Visual.captureAndAnalyze (Visual.idle true) Visual.read Service.chatty =
      Some (c', effects) /\
    Visual.resultText c' <> EmptyString.
Proof.
  destruct (Visual.captureAndAnalyze (Visual.idle true) Visual.read
              Service.chatty) as [[c' effects]|] eqn:Hdone;
    [|vm_compute in Hdone; discriminate Hdone].
  exists c', effects. split; [reflexivity|].
  destruct (X17_result_is_never_blank (Visual.idle true) Visual.read
              Service.chatty c' effects) as [Hfull _].
  - split; intros; eexists; reflexivity.
  - reflexivity.
  - reflexivity.
  - reflexivity.
  - exact Hdone.
  - exact Hfull.
Defined.

(* ===================================================================== *)
(** ** More on the audio path                                             *)
(* ===================================================================== *)

(** X18.  [stopSession] leaves no live source, the cursor at 0, both
    buffers empty, the listening flag off and the session forgotten; it
    has stopped every source that was live and keeps the transcript; and
    running it a second time changes nothing more. *)
Theorem X18_stop_session_resets_and_is_idempotent (p : Listener.Page) :
  let p' := Listener.stopSession p in
  Hearing.sources (Listener.core p') = ∅ /\
  Hearing.nextStartTime (Listener.core p') = 0%Q /\
  Hearing.currentInput (Listener.core p') = EmptyString /\
  Hearing.currentOutput (Listener.core p') = EmptyString /\
  Listener.isListening p' = false /\ Listener.sessionRef p' = false /\
  Hearing.sources (Listener.core p) ⊆ Hearing.stopped (Listener.core p') /\
  Hearing.transcript (Listener.core p') = Hearing.transcript (Listener.core p) /\
  Listener.stopSession p' = p'.
Proof.
  cbv zeta. repeat split.
  - cbn. set_solver.
  - unfold Listener.stopSession. cbn. rewrite union_empty_l_L. reflexivity.
Qed.

Section LogFacts.
Import Hearing Listener.

Lemma non_blank_legible (e : TranscriptionEntry) :
  non_blank e = true <-> legible e.
Proof.
  unfold non_blank, legible. rewrite <- trim_empty.
  destruct (is_empty (trim (text e))); cbn; split; congruence.
Qed.

(** What the handler does to the log: nothing, or the turn-complete
    block. *)
Lemma onmessage_log (cl : Closure) (env : Env) (msg : Message) (st : State) :
  transcript (onmessage cl env msg st) = transcript st \/
  transcript (onmessage cl env msg st) =
    List.filter non_blank
      (transcript st ++
       [ {| text := cl_currentInput cl; timestamp := nowInput env;
            speaker := user |};
         {| text := cl_currentOutput cl; timestamp := nowOutput env;
            speaker := model |} ]).
Proof.
  unfold onmessage, playback, finalize.
  destruct msg as [it ot au intr tc]; cbn.
  destruct st as [tr ci co nst src ctx sta sto]; cbn.
  unfold accumulate; cbn.
  destruct it, ot; cbn; destruct (has_audio _ && ctx); cbn;
    try (destruct (decoded env); cbn); destruct intr, tc; cbn; auto.
Qed.

Lemma session_cons (cl : Closure) (env : Env) (msg : Message)
    (inbox : list (Env * Message)) (st : State) :
  session cl ((env, msg) :: inbox) st =
  session cl inbox (onmessage cl env msg st).
Proof. reflexivity. Qed.

End LogFacts.

(** X19.  The turn-complete block leaves only entries that have
    something other than white space in them, whatever the log held
    before; and a log that has only such entries keeps having only such
    entries through any run of messages. *)
Theorem X19_log_has_no_blank_entries (cl : Hearing.Closure) :
  (forall env st,
      Forall Listener.legible
        (Hearing.transcript (Hearing.finalize cl env st))) /\
  (forall inbox st,
      Forall Listener.legible (Hearing.transcript st) ->
      Forall Listener.legible
        (Hearing.transcript (Hearing.session cl inbox st))).
Proof.
  assert (Hfilter : forall l, Forall Listener.legible
                                (List.filter Hearing.non_blank l)).
  { intros l. apply List.Forall_forall. intros e He.
    apply filter_In in He as [_ He]. apply non_blank_legible. exact He. }
  split.
  - intros env st. unfold Hearing.finalize. cbn. apply Hfilter.
  - intros inbox. induction inbox as [|[env msg] inbox IH]; intros st Hst;
      [exact Hst|].
    rewrite session_cons. apply IH.
    destruct (onmessage_log cl env msg st) as [-> | ->];
      [exact Hst | apply Hfilter].
Qed.

Lemma X19_log_has_no_blank_entries_witness :
  Forall Listener.legible
    (Hearing.transcript
       (Hearing.session (fst Hearing.opened) Hearing.hello_turn
          (snd Hearing.opened))).
Proof.
  destruct (X19_log_has_no_blank_entries (fst Hearing.opened)) as [_ Hkeep].
  apply Hkeep. constructor.
Defined.

(** X20.  Whatever fragments arrive, every entry a session adds to the
    log carries one of the two texts its handler captured when the session
    was started: the captured-side one for the speaker [user], the
    produced-side one for the speaker [model]. *)
Theorem X20_logged_text_is_the_captured_one (cl : Hearing.Closure)
    (inbox : list (Hearing.Env * Hearing.Message)) (st : Hearing.State)
    (e : Hearing.TranscriptionEntry) :
  In e (Hearing.transcript (Hearing.session cl inbox st)) ->
  In e (Hearing.transcript st) \/
  (Hearing.text e = Hearing.cl_currentInput cl /\
   Hearing.speaker e = Hearing.user) \/
  (Hearing.text e = Hearing.cl_currentOutput cl /\
   Hearing.speaker e = Hearing.model).
Proof.
  revert st. induction inbox as [|[env msg] inbox IH]; intros st He;
    [left; exact He|].
  rewrite session_cons in He.
  destruct (IH _ He) as [Hold | Hnew]; [|right; exact Hnew].
  destruct (onmessage_log cl env msg st) as [Hlog | Hlog];
    rewrite Hlog in Hold; [left; exact Hold|].
  apply filter_In in Hold as [Hold _].
  apply in_app_or in Hold as [Hold | [<- | [<- | []]]]; cbn; auto.
Qed.

Lemma X20_logged_text_is_the_captured_one_witness :
  let cl := {| Hearing.cl_currentInput := "stale";
               Hearing.cl_currentOutput := EmptyString;
               Hearing.cl_speechRate := 1 |} in
  let e := {| Hearing.text := "stale"; Hearing.timestamp := 1300;
              Hearing.speaker := Hearing.user |} in
  In e (Hearing.transcript
          (Hearing.session cl Hearing.hello_turn Hearing.initial)) /\
  (In e (Hearing.transcript Hearing.initial) \/
   (Hearing.text e = Hearing.cl_currentInput cl /\
    Hearing.speaker e = Hearing.user) \/
   (Hearing.text e = Hearing.cl_currentOutput cl /\
    Hearing.speaker e = Hearing.model)).
Proof.
  intros cl e.
  assert (Hin : In e (Hearing.transcript
                        (Hearing.session cl Hearing.hello_turn
                           Hearing.initial))).
  { vm_compute. left. reflexivity. }
  split; [exact Hin|].
  apply (X20_logged_text_is_the_captured_one cl Hearing.hello_turn
           Hearing.initial e Hin).
Defined.

Section BufferFacts.
Import Hearing Listener.

Lemma append_assoc (a b c : string) : (a +:+ b) +:+ c = a +:+ (b +:+ c).
Proof.
  induction a as [|ch a IH]; [reflexivity|].
  change ((String ch a +:+ b) +:+ c) with (String ch ((a +:+ b) +:+ c)).
  rewrite IH. reflexivity.
Qed.

Lemma append_nil_r (a : string) : a +:+ EmptyString = a.
Proof.
  induction a as [|ch a IH]; [reflexivity|].
  change (String ch a +:+ EmptyString) with (String ch (a +:+ EmptyString)).
  rewrite IH. reflexivity.
Qed.

(** What a message without the turn-complete flag does to the buffers. *)
Lemma onmessage_buffers (cl : Closure) (env : Env) (msg : Message)
    (st : State) :
  turnComplete msg = false ->
  currentInput (onmessage cl env msg st) =
    match inputTranscription msg with
    | Some fragment => currentInput st +:+ fragment
    | None => currentInput st
    end /\
  currentOutput (onmessage cl env msg st) =
    match outputTranscription msg with
    | Some fragment => currentOutput st +:+ fragment
    | None => currentOutput st
    end.
Proof.
  intros Hflag. unfold onmessage, playback. rewrite Hflag.
  destruct msg as [it ot au intr tc]; cbn.
  destruct st as [tr ci co nst src ctx sta sto]; cbn.
  unfold accumulate; cbn.
  destruct it, ot; cbn; destruct (has_audio _ && ctx); cbn;
    try (destruct (decoded env); cbn); destruct intr; cbn; auto.
Qed.

End BufferFacts.

(** X21.  Through a run of messages none of which ends the turn, each
    buffer grows by exactly the fragments of its side, joined in the order
    of arrival; audio, failed decoding and interruptions do not touch the
    buffers. *)
Theorem X21_buffers_collect_fragments (cl : Hearing.Closure)
    (inbox : list (Hearing.Env * Hearing.Message)) (st : Hearing.State) :
  Forall (fun em => Hearing.turnComplete (snd em) = false) inbox ->
  Hearing.currentInput (Hearing.session cl inbox st) =
    Hearing.currentInput st +:+
    Listener.joined Hearing.inputTranscription inbox /\
  Hearing.currentOutput (Hearing.session cl inbox st) =
    Hearing.currentOutput st +:+
    Listener.joined Hearing.outputTranscription inbox.
Proof.
  revert st. induction inbox as [|[env msg] inbox IH]; intros st Hall.
  - cbn. rewrite !append_nil_r. split; reflexivity.
  - inversion Hall as [|? ? Hflag Hrest]; subst. cbn in Hflag.
    rewrite session_cons.
    destruct (IH (Hearing.onmessage cl env msg st) Hrest) as [Hin Hout].
    destruct (onmessage_buffers cl env msg st Hflag) as [Hi Ho].
    rewrite Hin, Hout, Hi, Ho. cbn [Listener.joined fold_right snd].
    split.
    + destruct (Hearing.inputTranscription msg);
        [apply append_assoc | reflexivity].
    + destruct (Hearing.outputTranscription msg);
        [apply append_assoc | reflexivity].
Qed.

Lemma X21_buffers_collect_fragments_witness :
  Hearing.currentInput
    (Hearing.session (fst Hearing.opened) (firstn 3 Hearing.hello_turn)
       (snd Hearing.opened)) =
  EmptyString +:+
  Listener.joined Hearing.inputTranscription (firstn 3 Hearing.hello_turn).
Proof.
  apply (X21_buffers_collect_fragments (fst Hearing.opened)
           (firstn 3 Hearing.hello_turn) (snd Hearing.opened)).
  repeat (constructor; [reflexivity|]). constructor.
Defined.

(** X22.  When a message carries audio whose decoding throws, the
    handler stops there: the cursor has been moved up to the clock and the
    fragments of the message have been added to the buffers, but its
    interruption flag and its turn-complete flag are not acted on, so the
    live sources, the stopped sources, the started sources and the log
    stay as they are and the buffers are not cleared. *)
Theorem X22_failed_decoding_skips_the_flags (cl : Hearing.Closure)
    (env : Hearing.Env) (msg : Hearing.Message) (st : Hearing.State) :
  Hearing.has_audio msg = true ->
  Hearing.outputContext st = true ->
  Hearing.decoded env = None ->
  let st' := Hearing.onmessage cl env msg st in
  Hearing.sources st' = Hearing.sources st /\
  Hearing.stopped st' = Hearing.stopped st /\
  Hearing.started st' = Hearing.started st /\
  Hearing.transcript st' = Hearing.transcript st /\
  Hearing.nextStartTime st' =
    Qmax (Hearing.nextStartTime st) (Hearing.currentTime env) /\
  Hearing.currentInput st' =
    Hearing.currentInput (Hearing.accumulate msg st) /\
  Hearing.currentOutput st' =
    Hearing.currentOutput (Hearing.accumulate msg st).
Proof.
  intros Haudio Hctx Hdec. unfold Hearing.onmessage, Hearing.playback.
  assert (Hacc : Hearing.outputContext (Hearing.accumulate msg st) =
                 Hearing.outputContext st /\
                 Hearing.sources (Hearing.accumulate msg st) =
                 Hearing.sources st /\
                 Hearing.stopped (Hearing.accumulate msg st) =
                 Hearing.stopped st /\
                 Hearing.started (Hearing.accumulate msg st) =
                 Hearing.started st /\
                 Hearing.transcript (Hearing.accumulate msg st) =
                 Hearing.transcript st /\
                 Hearing.nextStartTime (Hearing.accumulate msg st) =
                 Hearing.nextStartTime st).
  { unfold Hearing.accumulate.
    destruct (Hearing.inputTranscription msg),
             (Hearing.outputTranscription msg); cbn; repeat split. }
  destruct Hacc as (Hc & Hs & Hp & Ha & Ht & Hn).
  rewrite Haudio, Hc, Hctx, Hdec. cbn.
  rewrite Hs, Hp, Ha, Ht, Hn. repeat split.
Qed.

Lemma X22_failed_decoding_skips_the_flags_witness :
  let st := Hearing.session (fst Hearing.opened) Hearing.three_chunks
              (snd Hearing.opened) in
  let env := {| Hearing.currentTime := 3; Hearing.decoded := None;
                Hearing.nowInput := 4000; Hearing.nowOutput := 4000 |} in
  let msg := {| Hearing.inputTranscription := None;
                Hearing.outputTranscription := None;
                Hearing.audio := Some "!!!!"; Hearing.interrupted := true;
                Hearing.turnComplete := true |} in
  Hearing.sources (Hearing.onmessage (fst Hearing.opened) env msg st) =
    Hearing.sources st.
Proof.
  intros st env msg.
  apply (X22_failed_decoding_skips_the_flags (fst Hearing.opened) env msg st);
    [reflexivity | vm_compute; reflexivity | reflexivity].
Defined.

Section TidyFacts.
Import Hearing Listener.

(** What a message does to the sources: nothing; or one more source is
    started and live; or every live source is stopped; or both, in that
    order. *)
Lemma onmessage_sources (cl : Closure) (env : Env) (msg : Message)
    (st : State) :
  let st' := onmessage cl env msg st in
  let n := length (started st) in
  (started st' = started st /\ sources st' = sources st /\
   stopped st' = stopped st) \/
  (exists source, started st' = started st ++ [source] /\ id source = n /\
     sources st' = {[ n ]} ∪ sources st /\ stopped st' = stopped st) \/
  (started st' = started st /\ sources st' = ∅ /\
   stopped st' = sources st ∪ stopped st) \/
  (exists source, started st' = started st ++ [source] /\ id source = n /\
     sources st' = ∅ /\ stopped st' = ({[ n ]} ∪ sources st) ∪ stopped st).
Proof.
  unfold onmessage, playback.
  destruct msg as [it ot au intr tc]; cbn.
  destruct st as [tr ci co nst src ctx sta sto]; cbn.
  unfold accumulate; cbn.
  destruct it, ot; cbn; destruct (has_audio _ && ctx); cbn;
    try (destruct (decoded env); cbn); destruct intr, tc; cbn;
    eauto 10.
Qed.

Lemma tidy_started_more (st st' : State) (source : PlaybackSource) :
  tidy st ->
  started st' = started st ++ [source] ->
  id source = length (started st) ->
  (forall i, i ∈ sources st' ∪ stopped st' ->
             i = length (started st) \/ i ∈ sources st ∪ stopped st) ->
  (forall i, i ∈ sources st' -> i ∈ stopped st' ->
             i ∈ sources st /\ i ∈ stopped st) ->
  tidy st'.
Proof.
  intros (Hids & Hbound & Hdisj) Hstarted Hid Hmembers Hboth.
  unfold tidy. rewrite Hstarted, length_app, map_app, Hids. cbn [length map].
  rewrite Hid, Nat.add_1_r, seq_S. split; [reflexivity|]. split.
  - intros i Hi. destruct (Hmembers i Hi) as [-> | Hold]; [lia|].
    specialize (Hbound i Hold). lia.
  - intros i Hi1 Hi2. destruct (Hboth i Hi1 Hi2) as [H1 H2].
    exact (Hdisj i H1 H2).
Qed.

Lemma tidy_started_same (st st' : State) :
  tidy st ->
  started st' = started st ->
  (forall i, i ∈ sources st' ∪ stopped st' -> i ∈ sources st ∪ stopped st) ->
  (forall i, i ∈ sources st' -> i ∈ stopped st' ->
             i ∈ sources st /\ i ∈ stopped st) ->
  tidy st'.
Proof.
  intros (Hids & Hbound & Hdisj) Hstarted Hmembers Hboth.
  unfold tidy. rewrite Hstarted. split; [exact Hids|]. split.
  - intros i Hi. apply Hbound, Hmembers, Hi.
  - intros i Hi1 Hi2. destruct (Hboth i Hi1 Hi2) as [H1 H2].
    exact (Hdisj i H1 H2).
Qed.

Lemma tidy_onmessage (cl : Closure) (env : Env) (msg : Message) (st : State) :
  tidy st -> tidy (onmessage cl env msg st).
Proof.
  intros Htidy. pose proof Htidy as (Hids & Hbound & Hdisj).
  destruct (onmessage_sources cl env msg st)
    as [(Hs & Hl & Hp) | [(source & Hs & Hid & Hl & Hp) |
        [(Hs & Hl & Hp) | (source & Hs & Hid & Hl & Hp)]]].
  - apply (tidy_started_same st _ Htidy Hs); rewrite Hl, Hp; auto.
  - apply (tidy_started_more st _ source Htidy Hs Hid); rewrite Hl, Hp.
    + intros i Hi. (set_unfold; intuition (subst; eauto)).
    + intros i Hi1 Hi2. apply elem_of_union in Hi1 as [Hnew | Hold].
      * apply elem_of_singleton in Hnew. subst i.
        assert (Hlt : (length (started st) < length (started st))%nat)
          by (apply Hbound; set_unfold; intuition (subst; eauto)).
        lia.
      * split; assumption.
  - apply (tidy_started_same st _ Htidy Hs); rewrite Hl, Hp.
    + intros i Hi. (set_unfold; intuition (subst; eauto)).
    + intros i Hi1 _. (set_unfold; intuition (subst; eauto)).
  - apply (tidy_started_more st _ source Htidy Hs Hid); rewrite Hl, Hp.
    + intros i Hi. (set_unfold; intuition (subst; eauto)).
    + intros i Hi1 _. (set_unfold; intuition (subst; eauto)).
Qed.

Lemma tidy_onended (source : nat) (st : State) :
  tidy st -> tidy (onended source st).
Proof.
  intros Htidy. apply (tidy_started_same st (onended source st) Htidy eq_refl); cbn.
  - intros i Hi. (set_unfold; intuition (subst; eauto)).
  - intros i Hi1 Hi2. (set_unfold; intuition (subst; eauto)).
Qed.

Lemma started_grows (cl : Closure) (ev : Event) (st : State) :
  exists more, started (handle cl ev st) = started st ++ more.
Proof.
  destruct ev as [env msg | source]; cbn [handle].
  - destruct (onmessage_sources cl env msg st)
      as [(Hs & _) | [(src & Hs & _) | [(Hs & _) | (src & Hs & _)]]];
      rewrite Hs; [exists [] | exists [src] | exists [] | exists [src]];
      rewrite ?app_nil_r; reflexivity.
  - exists []. rewrite app_nil_r. reflexivity.
Qed.

End TidyFacts.

(** X23.  Through any run of handled messages and ended sources, the
    started sources stay numbered in the order they were started, so no
    number is used twice; a source that is live or was stopped is one that
    was started; no live source has been stopped; and the list of started
    sources only grows at its end.  All this holds from the state a new
    component starts in. *)
Theorem X23_sources_stay_tidy (cl : Hearing.Closure)
    (events : list Listener.Event) (st : Hearing.State) :
  Listener.tidy st ->
  let st' := Listener.replay cl events st in
  Listener.tidy st' /\
  List.NoDup (map Hearing.id (Hearing.started st')) /\
  (exists more, Hearing.started st' = Hearing.started st ++ more) /\
  Listener.tidy Hearing.initial.
Proof.
  intros Htidy st'.
  assert (Hrun : Listener.tidy st' /\
                 exists more, Hearing.started st' = Hearing.started st ++ more).
  { subst st'. revert st Htidy.
    induction events as [|ev events IH]; intros st Htidy.
    - split; [exact Htidy|]. exists []. rewrite app_nil_r. reflexivity.
    - change (Listener.replay cl (ev :: events) st)
        with (Listener.replay cl events (Listener.handle cl ev st)).
      assert (Hstep : Listener.tidy (Listener.handle cl ev st)).
      { destruct ev as [env msg | source]; cbn [Listener.handle];
          [apply tidy_onmessage | apply tidy_onended]; exact Htidy. }
      destruct (IH _ Hstep) as [Hfinal (more & Hmore)].
      split; [exact Hfinal|].
      destruct (started_grows cl ev st) as (first & Hfirst).
      exists (first ++ more). rewrite Hmore, Hfirst, app_assoc. reflexivity. }
  destruct Hrun as [Hfinal Hmore].
  split; [exact Hfinal|]. split; [|split; [exact Hmore|]].
  - destruct Hfinal as (Hids & _). rewrite Hids. apply List.seq_NoDup.
  - repeat split; [intros i Hi; set_unfold; intuition (subst; eauto) | set_unfold; intuition (subst; eauto)].
Qed.

Lemma X23_sources_stay_tidy_witness :
  let st' := Listener.replay (fst Hearing.opened)
               [ Listener.Inbound (Hearing.at_clock 0 (1 # 2) 1000)
                   (Hearing.chunk "AAAA");
                 Listener.Ended 0;
                 Listener.Inbound (Hearing.at_clock 3 0 4000) Hearing.barge_in;
                 Listener.Inbound (Hearing.at_clock 4 (1 # 2) 5000)
                   (Hearing.chunk "BBBB") ]
               (snd Hearing.opened) in
  Listener.tidy st' /\ List.NoDup (map Hearing.id (Hearing.started st')).
Proof.
  intros st'.
  destruct (X23_sources_stay_tidy (fst Hearing.opened)
              [ Listener.Inbound (Hearing.at_clock 0 (1 # 2) 1000)
                  (Hearing.chunk "AAAA");
                Listener.Ended 0;
                Listener.Inbound (Hearing.at_clock 3 0 4000) Hearing.barge_in;
                Listener.Inbound (Hearing.at_clock 4 (1 # 2) 5000)
                  (Hearing.chunk "BBBB") ]
              (snd Hearing.opened)) as (Htidy & Hnodup & _).
  - repeat split; [intros i Hi; set_unfold; intuition (subst; eauto) | set_unfold; intuition (subst; eauto)].
  - split; assumption.
Defined.

(* ===================================================================== *)
(** ** The language tables                                                *)
(* ===================================================================== *)

Section LanguageFacts.

Lemma offered_cases (P : string -> Prop) :
  P "English" -> P "Spanish" -> P "Urdu" -> P "Arabic" -> P "Chinese" ->
  P "French" -> P "Hindi" -> P "Japanese" ->
  forall language, In language Languages.LANGUAGES -> P language.
Proof.
  intros H1 H2 H3 H4 H5 H6 H7 H8 language Hin.
  unfold Languages.LANGUAGES in Hin. cbn [In] in Hin.
  repeat (destruct Hin as [<- | Hin]; [assumption|]).
  contradiction.
Qed.

Lemma ocr_keys_are_offered (language code : string) :
  Languages.LANG_MAP_OCR !! language = Some code ->
  In language Languages.LANGUAGES.
Proof.
  intros Hl. unfold Languages.LANG_MAP_OCR in Hl.
  apply elem_of_list_to_map_2 in Hl.
  unfold Languages.LANGUAGES.
  repeat (apply elem_of_cons in Hl as [Hl | Hl];
          [injection Hl as -> _; cbn [In]; tauto|]).
  apply elem_of_nil in Hl. contradiction.
Qed.

Lemma tts_keys_are_offered (language code : string) :
  Languages.LANG_MAP_TTS !! language = Some code ->
  In language Languages.LANGUAGES.
Proof.
  intros Hl. unfold Languages.LANG_MAP_TTS in Hl.
  apply elem_of_list_to_map_2 in Hl.
  unfold Languages.LANGUAGES.
  repeat (apply elem_of_cons in Hl as [Hl | Hl];
          [injection Hl as -> _; cbn [In]; tauto|]).
  apply elem_of_nil in Hl. contradiction.
Qed.

End LanguageFacts.

(** X24. The two tables of [VisualAssistant.tsx] and the list of
    [constants.ts] agree: every language the settings offer has an entry
    of its own in both tables, so that neither ['eng'] nor ['en-US'] is
    ever reached as a fall-back for it; no two offered languages share an
    OCR code or a speech code; and the tables have no entry for anything
    else. *)
Theorem X24_offered_languages_have_codes (language : string) :
  In language Languages.LANGUAGES ->
  Languages.LANG_MAP_OCR !! language = Some (Languages.ocrCode language) /\
  Languages.LANG_MAP_TTS !! language = Some (Languages.ttsCode language) /\
  (forall other, In other Languages.LANGUAGES ->
     Languages.ocrCode other = Languages.ocrCode language \/
     Languages.ttsCode other = Languages.ttsCode language ->
     other = language) /\
  (forall key code,
     Languages.LANG_MAP_OCR !! key = Some code \/
     Languages.LANG_MAP_TTS !! key = Some code ->
     In key Languages.LANGUAGES).
Proof.
  intros Hin. split; [|split; [|split]].
  - revert language Hin. apply offered_cases; vm_compute; reflexivity.
  - revert language Hin. apply offered_cases; vm_compute; reflexivity.
  - intros other Hother. pattern language. revert language Hin.
    apply offered_cases; cbv beta; pattern other; revert other Hother;
      apply offered_cases; vm_compute; intros [H | H];
      solve [reflexivity | discriminate H].
  - intros key code [H | H].
    + exact (ocr_keys_are_offered key code H).
    + exact (tts_keys_are_offered key code H).
Qed.

Lemma X24_offered_languages_have_codes_witness :
  In "Urdu" Languages.LANGUAGES /\
  Languages.LANG_MAP_OCR !! "Urdu" = Some "urd" /\
  Languages.LANG_MAP_TTS !! "Urdu" = Some "ur-PK".
Proof.
  assert (Hin : In "Urdu" Languages.LANGUAGES) by (vm_compute; tauto).
  destruct (X24_offered_languages_have_codes "Urdu" Hin) as (Hocr & Htts & _).
  split; [exact Hin|]. split.
  - rewrite Hocr. vm_compute. reflexivity.
  - rewrite Htts. vm_compute. reflexivity.
Defined.

(* ===================================================================== *)
(** ** The chat service: [chatWithGemini]                                 *)
(* ===================================================================== *)

Section ChatRequestFacts.

Lemma urls_cons (uri : option string) (cs : list (option string)) :
  Service.groundingUrls (Some (uri :: cs)) =
  match uri with
  | Some u => if is_empty u then [] else [u]
  | None => []
  end ++ Service.groundingUrls (Some cs).
Proof. reflexivity. Qed.

End ChatRequestFacts.

(** X25. Whatever the options, the request [chatWithGemini] builds never
    carries a thinking budget together with the maps tool; a thinking
    budget goes only to the Gemini 3 model and the maps tool only to the
    2.5 one; a location is passed only with the maps tool; and the message
    is the last part and the only text part, an attached file coming
    before it. *)
Theorem X25_chat_request_is_coherent
    (message : string) (options : Service.ChatOptions) :
  let request := Service.chatRequest message options in
  (Service.thinkingBudget request <> None ->
     Service.mapsTool request = false /\
     Service.model request = "gemini-3-pro-preview") /\
  (Service.mapsTool request = true <->
     Service.model request = "gemini-2.5-flash") /\
  (Service.latLng request <> None -> Service.mapsTool request = true) /\
  (exists front,
     Service.parts request = front ++ [Service.TextPart message] /\
     (forall part, In part front ->
        exists data mimeType,
          part = Service.InlineData data mimeType /\
          Service.file options = Some (data, mimeType)) /\
     (length front <= 1)%nat).
Proof.
  destruct options as [thinking maps loc file].
  unfold Service.chatRequest. cbn.
  split; [|split; [|split]].
  - destruct thinking, maps; cbn; intros H; try congruence; split; reflexivity.
  - destruct maps; split; intros H; try reflexivity; discriminate H.
  - destruct maps; intros H; [reflexivity | congruence].
  - destruct file as [[data mimeType]|].
    + exists [Service.InlineData data mimeType]. split; [reflexivity|].
      split; [|cbn; lia].
      intros part [<- | []]. exists data, mimeType. split; reflexivity.
    + exists []. split; [reflexivity|]. split; [|cbn; lia].
      intros part [].
Qed.

Lemma X25_chat_request_is_coherent_witness :
  Service.thinkingBudget
    (Service.chatRequest "Why is the sky blue?"
       {| Service.isThinking := true; Service.isMaps := false;
          Service.location := None; Service.file := None |}) <> None /\
  Service.model
    (Service.chatRequest "Why is the sky blue?"
       {| Service.isThinking := true; Service.isMaps := false;
          Service.location := None; Service.file := None |}) =
  "gemini-3-pro-preview".
Proof.
  assert (Hbudget :
    Service.thinkingBudget
      (Service.chatRequest "Why is the sky blue?"
         {| Service.isThinking := true; Service.isMaps := false;
            Service.location := None; Service.file := None |}) <> None)
    by (cbn; discriminate).
  split; [exact Hbudget|].
  exact (proj2 (proj1 (X25_chat_request_is_coherent "Why is the sky blue?"
           {| Service.isThinking := true; Service.isMaps := false;
              Service.location := None; Service.file := None |}) Hbudget)).
Defined.

(** X26. The links [chatWithGemini] returns are the non-empty [maps.uri]
    of the grounding chunks, in the order of the chunks: the list is a
    subsequence of the chunks' uris, it contains exactly the non-empty
    ones, and it is empty when the response has no grounding chunks. *)
Theorem X26_grounding_urls_are_the_chunks
    (chunks : option (list (option string))) :
  (forall u, In u (Service.groundingUrls chunks) <->
     u <> EmptyString /\ exists cs, chunks = Some cs /\ In (Some u) cs) /\
  (forall cs, chunks = Some cs ->
     sublist (map Some (Service.groundingUrls chunks)) cs) /\
  (chunks = None -> Service.groundingUrls chunks = []).
Proof.
  split; [|split].
  - intros u. destruct chunks as [cs|].
    + induction cs as [|uri cs IH].
      * cbn. split; [intros [] | intros (_ & cs' & Hcs & Hin)].
        injection Hcs as <-. destruct Hin.
      * rewrite urls_cons, in_app_iff, IH. split.
        -- intros [Hhere | (Hne & cs' & Hcs & Hin)].
           ++ destruct uri as [v|]; [|destruct Hhere].
              destruct (is_empty v) eqn:Hv; [destruct Hhere|].
              destruct Hhere as [<- | []].
              split; [apply not_empty; exact Hv|].
              exists (Some v :: cs). split; [reflexivity | left; reflexivity].
           ++ injection Hcs as <-. split; [exact Hne|].
              exists (uri :: cs). split; [reflexivity | right; exact Hin].
        -- intros (Hne & cs' & Hcs & Hin). injection Hcs as <-.
           destruct Hin as [-> | Hin].
           ++ left. apply not_empty in Hne. rewrite Hne.
              left. reflexivity.
           ++ right. split; [exact Hne|]. exists cs.
              split; [reflexivity | exact Hin].
    + cbn. split; [intros [] | intros (_ & cs & Hcs & _); discriminate Hcs].
  - intros cs ->. induction cs as [|uri cs IH].
    + cbn. constructor.
    + rewrite urls_cons. destruct uri as [v|].
      * destruct (is_empty v); cbn [app map].
        -- apply sublist_cons. exact IH.
        -- apply sublist_skip. exact IH.
      * cbn [app]. apply sublist_cons. exact IH.
  - intros ->. reflexivity.
Qed.

Lemma X26_grounding_urls_are_the_chunks_witness :
  In "https://maps.example/1"
    (Service.groundingUrls
       (Some [None; Some "https://maps.example/1"; Some EmptyString])).
Proof.
  apply (proj1 (X26_grounding_urls_are_the_chunks
                  (Some [None; Some "https://maps.example/1";
                         Some EmptyString]))).
  split; [discriminate|].
  eexists. split; [reflexivity|]. cbn. tauto.
Defined.

(* ===================================================================== *)
(** ** The chat tab: [onSend] and the two toggles                         *)
(* ===================================================================== *)

Section ChatFacts.

Lemma onSend_blocked (st : Chat.State) (env : Chat.Env) :
  Chat.input st = EmptyString -> Chat.attachedFile st = None ->
  Chat.onSend st env = (st, None).
Proof.
  intros Hin Hfile. unfold Chat.onSend. rewrite Hin, Hfile. reflexivity.
Qed.

(** What an accepted [onSend] does, on each of its three paths. *)
Lemma onSend_accepted (st : Chat.State) (env : Chat.Env) :
  Chat.input st <> EmptyString \/ Chat.attachedFile st <> None ->
  exists reply,
    fst (Chat.onSend st env) =
      Chat.settle st
        (Chat.messages st ++
         [ {| Chat.role := Chat.user; Chat.text := Chat.input st;
              Chat.groundingUrls := None |}; reply ]) /\
    Chat.role reply = Chat.model /\
    Chat.text reply <> EmptyString /\
    (snd (Chat.onSend st env) = None ->
       Chat.useMaps st = true /\ Chat.text reply = Chat.APOLOGY) /\
    (forall request, snd (Chat.onSend st env) = Some request ->
       Service.thinkingBudget request =
         (if Chat.isThinking st && negb (Chat.useMaps st)
          then Some 32768 else None) /\
       Service.mapsTool request = Chat.useMaps st).
Proof.
  intros Hguard. unfold Chat.onSend.
  assert (Hg : is_empty (Chat.input st) &&
               match Chat.attachedFile st with
               | Some _ => false | None => true end = false).
  { destruct Hguard as [Hin | Hfile].
    - apply not_empty in Hin. rewrite Hin. reflexivity.
    - destruct (Chat.attachedFile st); [apply andb_false_r | congruence]. }
  rewrite Hg. clear Hg.
  destruct (Chat.useMaps st) eqn:Hmaps.
  - destruct (Chat.position env) as [pos|e].
    + match goal with
      | |- context [Service.chatWithGemini ?r] =>
          destruct (Service.chatWithGemini r) as [reply|e] eqn:Hreply
      end.
      * eexists. cbn [fst snd]. split; [reflexivity|]. cbn.
        split; [reflexivity|]. split.
        -- match type of Hreply with
           | Service.chatWithGemini ?r = _ => destruct r as [[t c]|e']
           end; [|discriminate Hreply].
           injection Hreply as <-. cbn. apply not_empty.
           apply orElse_not_empty. reflexivity.
        -- split; [discriminate|]. intros request [= <-]. cbn.
           rewrite andb_false_r. split; reflexivity.
      * eexists. cbn [fst snd]. split; [reflexivity|]. cbn.
        split; [reflexivity|]. split; [discriminate|].
        split; [discriminate|]. intros request [= <-]. cbn.
        rewrite andb_false_r. split; reflexivity.
    + eexists. cbn [fst snd]. split; [reflexivity|]. cbn.
      split; [reflexivity|]. split; [discriminate|].
      split; [intros _; split; reflexivity|]. intros request H. discriminate H.
  - match goal with
    | |- context [Service.chatWithGemini ?r] =>
        destruct (Service.chatWithGemini r) as [reply|e] eqn:Hreply
    end.
    + eexists. cbn [fst snd]. split; [reflexivity|]. cbn.
      split; [reflexivity|]. split.
      * match type of Hreply with
        | Service.chatWithGemini ?r = _ => destruct r as [[t c]|e']
        end; [|discriminate Hreply].
        injection Hreply as <-. cbn. apply not_empty.
        apply orElse_not_empty. reflexivity.
      * split; [discriminate|]. intros request [= <-]. cbn.
        split; reflexivity.
    + eexists. cbn [fst snd]. split; [reflexivity|]. cbn.
      split; [reflexivity|]. split; [discriminate|].
      split; [discriminate|]. intros request [= <-]. cbn.
      split; reflexivity.
Qed.

Lemma paired_snoc (n : nat) :
  forall (log : list Chat.ChatMessage) (question reply : Chat.ChatMessage),
    (length log <= n)%nat ->
    Chat.paired log ->
    Chat.role question = Chat.user -> Chat.role reply = Chat.model ->
    Chat.text reply <> EmptyString ->
    Chat.paired (log ++ [question; reply]).
Proof.
  induction n as [|n IH]; intros log question reply Hlen Hlog Hq Hr Ht.
  - destruct log; [|cbn in Hlen; lia]. cbn. tauto.
  - destruct log as [|a [|b log]].
    + cbn. tauto.
    + destruct Hlog.
    + cbn in Hlog. destruct Hlog as (Ha & Hb & Hbt & Hrest).
      cbn [app Chat.paired]. split; [exact Ha|]. split; [exact Hb|].
      split; [exact Hbt|]. apply IH; try assumption. cbn in Hlen. lia.
Qed.

End ChatFacts.

(** X27. An [onSend] with something to send (a typed text or an attached
    file) appends exactly two messages to the log, on every path: the
    question as typed, then one reply of the model whose text is never
    empty; it empties the input, drops the attachment, ends with
    [isSending] off and leaves both toggles as they were.  No request
    goes out only when local search is on and the position is refused,
    and the reply is then the apology. *)
Theorem X27_send_appends_question_and_reply
    (st : Chat.State) (env : Chat.Env) :
  Chat.input st <> EmptyString \/ Chat.attachedFile st <> None ->
  let st' := fst (Chat.onSend st env) in
  exists reply,
    Chat.messages st' =
      Chat.messages st ++
      [ {| Chat.role := Chat.user; Chat.text := Chat.input st;
           Chat.groundingUrls := None |}; reply ] /\
    Chat.role reply = Chat.model /\
    Chat.text reply <> EmptyString /\
    Chat.input st' = EmptyString /\
    Chat.attachedFile st' = None /\
    Chat.isSending st' = false /\
    Chat.isThinking st' = Chat.isThinking st /\
    Chat.useMaps st' = Chat.useMaps st /\
    (snd (Chat.onSend st env) = None ->
       Chat.useMaps st = true /\ Chat.text reply = Chat.APOLOGY).
Proof.
  intros Hguard st'.
  destruct (onSend_accepted st env Hguard)
    as (reply & Hst & Hrole & Htext & Hnone & _).
  exists reply. subst st'. rewrite Hst. cbn.
  split; [reflexivity|]. split; [exact Hrole|]. split; [exact Htext|].
  split; [reflexivity|]. split; [reflexivity|]. split; [reflexivity|].
  split; [reflexivity|]. split; [reflexivity|]. exact Hnone.
Qed.

Lemma X27_send_appends_question_and_reply_witness :
  (Chat.input Chat.asking <> EmptyString \/
   Chat.attachedFile Chat.asking <> None) /\
  exists reply,
    Chat.messages (fst (Chat.onSend Chat.asking Chat.helpful)) =
      [ {| Chat.role := Chat.user; Chat.text := "pharmacy near me";
           Chat.groundingUrls := None |}; reply ] /\
    Chat.role reply = Chat.model.
Proof.
  assert (Hguard : Chat.input Chat.asking <> EmptyString \/
                   Chat.attachedFile Chat.asking <> None)
    by (left; cbn; discriminate).
  split; [exact Hguard|].
  destruct (X27_send_appends_question_and_reply Chat.asking Chat.helpful
              Hguard) as (reply & Hlog & Hrole & _).
  exists reply. split; [exact Hlog | exact Hrole].
Defined.

Section TabFacts.
Import Chat.

(** The message a call appends is a reply of the model with a text, and
    the request it sends, if any, follows the toggles it has kept. *)
Lemma answerTo_reply (c : Call) (env : Env) :
  role (fst (answerTo c env)) = model /\
  text (fst (answerTo c env)) <> EmptyString /\
  (forall request, snd (answerTo c env) = Some request ->
     Service.thinkingBudget request =
       (if c_isThinking c && negb (c_useMaps c) then Some 32768 else None) /\
     Service.mapsTool request = c_useMaps c).
Proof.
  unfold answerTo.
  destruct (c_useMaps c) eqn:Hmaps.
  - destruct (position env) as [pos|e].
    + match goal with
      | |- context [Service.chatWithGemini ?r] =>
          destruct (Service.chatWithGemini r) as [reply|e] eqn:Hreply
      end; cbn [fst snd role text].
      * split; [reflexivity|]. split.
        -- match type of Hreply with
           | Service.chatWithGemini ?r = _ => destruct r as [[t u]|e']
           end; [|discriminate Hreply].
           injection Hreply as <-. cbn. apply not_empty.
           apply orElse_not_empty. reflexivity.
        -- intros request [= <-]. cbn. rewrite andb_false_r.
           split; reflexivity.
      * split; [reflexivity|]. split; [discriminate|].
        intros request [= <-]. cbn. rewrite andb_false_r. split; reflexivity.
    + cbn [fst snd role text]. split; [reflexivity|].
      split; [discriminate|]. intros request H. discriminate H.
  - match goal with
    | |- context [Service.chatWithGemini ?r] =>
        destruct (Service.chatWithGemini r) as [reply|e] eqn:Hreply
    end; cbn [fst snd role text].
    + split; [reflexivity|]. split.
      * match type of Hreply with
        | Service.chatWithGemini ?r = _ => destruct r as [[t u]|e']
        end; [|discriminate Hreply].
        injection Hreply as <-. cbn. apply not_empty.
        apply orElse_not_empty. reflexivity.
      * intros request [= <-]. cbn. split; reflexivity.
    + split; [reflexivity|]. split; [discriminate|].
      intros request [= <-]. cbn. split; reflexivity.
Qed.

(** A call of [onSend] that comes back before anything else happens is
    the whole of [onSend]. *)
Lemma onSend_is_begin_then_finish (st : State) (env : Env) :
  input st <> EmptyString \/ attachedFile st <> None ->
  fst (onSend st env) =
    shown (finish 0 env (begin {| shown := st; waiting := [] |})) /\
  waiting (finish 0 env (begin {| shown := st; waiting := [] |})) = [].
Proof.
  intros Hguard.
  assert (Hg : is_empty (input st) &&
               match attachedFile st with
               | Some _ => false | None => true end = false).
  { destruct Hguard as [Hin | Hfile].
    - apply not_empty in Hin. rewrite Hin. reflexivity.
    - destruct (attachedFile st); [apply andb_false_r | congruence]. }
  unfold onSend, begin, finish, settle. cbn [shown waiting]. rewrite Hg.
  cbn [app nth_error shown waiting firstn skipn messages input isThinking
       useMaps].
  unfold answerTo. cbn [c_useMaps c_input c_isThinking c_file].
  split; [|reflexivity].
  destruct (useMaps st).
  - destruct (position env) as [pos|e].
    + match goal with
      | |- context [Service.chatWithGemini ?r] =>
          destruct (Service.chatWithGemini r) as [reply|e]
      end; cbn; rewrite <- app_assoc; reflexivity.
    + cbn. rewrite <- app_assoc. reflexivity.
  - match goal with
    | |- context [Service.chatWithGemini ?r] =>
        destruct (Service.chatWithGemini r) as [reply|e]
    end; cbn; rewrite <- app_assoc; reflexivity.
Qed.

Lemma owed_app (log more : list ChatMessage) :
  forall n,
    owed n (log ++ more) =
    match owed n log with Some k => owed k more | None => None end.
Proof.
  induction log as [|m log IH]; intros n; [reflexivity|].
  cbn. destruct (role m); [apply IH|]. destruct n; [reflexivity | apply IH].
Qed.

Lemma waiting_without (k : nat) (calls : list Call) (c : Call) :
  nth_error calls k = Some c ->
  length calls = S (length (firstn k calls ++ skipn (S k) calls)) /\
  forall c', In c' (firstn k calls ++ skipn (S k) calls) -> In c' calls.
Proof.
  intros Hk. split.
  - assert (Hlt : (k < length calls)%nat)
      by (apply nth_error_Some; congruence).
    rewrite length_app, length_firstn, length_skipn. lia.
  - intros c' Hin. apply in_app_or in Hin as [Hin | Hin].
    + rewrite <- (firstn_skipn k calls). apply in_or_app. left. exact Hin.
    + rewrite <- (firstn_skipn (S k) calls). apply in_or_app. right. exact Hin.
Qed.

Lemma begin_cases (t : Tab) :
  begin t = t \/
  (messages (shown (begin t)) =
     messages (shown t) ++
     [ {| role := user; text := input (shown t); groundingUrls := None |} ] /\
   isThinking (shown (begin t)) = isThinking (shown t) /\
   useMaps (shown (begin t)) = useMaps (shown t) /\
   isSending (shown (begin t)) = true /\
   waiting (begin t) =
     waiting t ++
     [ {| c_input := input (shown t); c_isThinking := isThinking (shown t);
          c_useMaps := useMaps (shown t);
          c_file := attachedFile (shown t) |} ]).
Proof.
  unfold begin. destruct (is_empty _ && _); [left; reflexivity|].
  right. cbn. repeat split; reflexivity.
Qed.

Lemma begin_keeps_coherence (t : Tab) : coherent t -> coherent (begin t).
Proof.
  intros Ht.
  destruct (begin_cases t) as [-> | (Hlog & Hthink & Hmaps & Hsend & Hwait)];
    [exact Ht|].
  destruct Ht as (Hflags & Hcalls & Howed & Htexts & _).
  unfold coherent. rewrite Hlog, Hthink, Hmaps, Hwait.
  split; [exact Hflags|]. split.
  { apply Forall_app. split; [exact Hcalls|].
    constructor; [exact Hflags | constructor]. }
  split.
  { rewrite owed_app, Howed, length_app. cbn. f_equal. lia. }
  split.
  { apply Forall_app. split; [exact Htexts|].
    constructor; [discriminate | constructor]. }
  intros _ Hnone. apply app_eq_nil in Hnone as [_ Hnone]. discriminate Hnone.
Qed.

Lemma finish_keeps_coherence (k : nat) (env : Env) (t : Tab) :
  coherent t -> coherent (finish k env t).
Proof.
  intros Ht. unfold finish.
  destruct (nth_error (waiting t) k) as [c|] eqn:Hk; [|exact Ht].
  destruct Ht as (Hflags & Hcalls & Howed & Htexts & _).
  destruct (waiting_without k (waiting t) c Hk) as [Hlen Hsub].
  destruct (answerTo_reply c env) as (Hrole & Htext & _).
  unfold coherent. cbn [shown waiting messages isThinking useMaps isSending].
  split; [exact Hflags|]. split.
  { apply List.Forall_forall. intros c' Hc'.
    rewrite List.Forall_forall in Hcalls. apply Hcalls. apply Hsub. exact Hc'. }
  split.
  { rewrite owed_app, Howed, Hlen. cbn. rewrite Hrole. reflexivity. }
  split.
  { apply Forall_app. split; [exact Htexts|].
    constructor; [intros _; exact Htext | constructor]. }
  discriminate.
Qed.

Lemma step_keeps_coherence (t : Tab) (ev : Event) :
  coherent t -> coherent (step t ev).
Proof.
  intros Ht. destruct ev as [[|]|value|f| | | |k env]; cbn [step].
  - destruct Ht as (Hflags & Hcalls & Howed & Htexts & Hsend).
    unfold coherent. cbn. split; [apply andb_false_r|]. repeat split; assumption.
  - destruct Ht as (Hflags & Hcalls & Howed & Htexts & Hsend).
    unfold coherent. cbn. split; [reflexivity|]. repeat split; assumption.
  - exact Ht.
  - exact Ht.
  - exact Ht.
  - apply begin_keeps_coherence. exact Ht.
  - destruct (isSending (shown t)); [exact Ht|].
    apply begin_keeps_coherence. exact Ht.
  - apply finish_keeps_coherence. exact Ht.
Qed.

Lemma play_keeps_coherence (events : list Event) (t : Tab) :
  coherent t -> coherent (play events t).
Proof.
  revert t. induction events as [|ev events IH]; intros t Ht; [exact Ht|].
  cbn. apply IH. apply step_keeps_coherence. exact Ht.
Qed.

Lemma step_keeps_serial (t : Tab) (ev : Event) :
  ev <> Enter -> serial t -> serial (step t ev).
Proof.
  intros Hev Ht. destruct ev as [[|]|value|f| | | |k env]; cbn [step];
    try exact Ht; try contradiction.
  - destruct (isSending (shown t)) eqn:Hsend; [exact Ht|].
    destruct Ht as [(Hwait & _ & Hlog) | (c & log & q & _ & Hon & _)];
      [|congruence].
    destruct (begin_cases t) as [-> | (Hlog' & _ & _ & Hsend' & Hwait')].
    + left. split; [exact Hwait|]. split; assumption.
    + right. rewrite Hwait in Hwait'.
      eexists _, (messages (shown t)), _.
      split; [exact Hwait'|]. split; [exact Hsend'|].
      split; [exact Hlog'|]. split; [exact Hlog | reflexivity].
  - unfold finish.
    destruct (nth_error (waiting t) k) as [c|] eqn:Hk; [|exact Ht].
    destruct Ht as [(Hwait & _) | (c0 & log & q & Hwait & _ & Hlog & Hpairs & Hq)].
    + rewrite Hwait in Hk. destruct k; discriminate Hk.
    + rewrite Hwait in Hk |- *. destruct k as [|k];
        [|destruct k; discriminate Hk].
      left. cbn [shown waiting messages isSending firstn skipn app].
      split; [reflexivity|]. split; [reflexivity|].
      rewrite Hlog, <- app_assoc. cbn [app].
      destruct (answerTo_reply c env) as (Hrole & Htext & _).
      apply (paired_snoc (length log)); auto.
Qed.

Lemma play_keeps_serial (events : list Event) (t : Tab) :
  Forall (fun ev => ev <> Enter) events -> serial t -> serial (play events t).
Proof.
  revert t. induction events as [|ev events IH]; intros t Hevs Ht; [exact Ht|].
  inversion Hevs as [|? ? Hev Hrest]; subst.
  cbn. apply IH; [exact Hrest|]. apply step_keeps_serial; assumption.
Qed.

End TabFacts.

(** X28.  Whatever is pressed, typed and attached, however [onSend] is
    called and in whatever order the calls come back, sends that overlap
    included, starting from the tab as it opens: Deep Think and Local
    Search are never on together; the request of a waiting call carries
    the thinking budget exactly when Deep Think was on when the call was
    made, and the maps tool exactly when Local Search was, so that the
    [!options.isMaps] test of [chatWithGemini] never withholds a budget
    this tab asks for; every reply in the log has a text and answers an
    earlier question, the questions still without a reply being as many
    as the calls that wait; and [isSending] is on only while a call
    waits.  When [onSend] is only ever called by the send button, at
    most one call waits at a time and, once none waits, the log is a
    sequence of pairs, a question followed by its reply. *)
Theorem X28_chat_toggles_exclude_each_other (events : list Chat.Event) :
  let t := Chat.play events Chat.opened in
  let st := Chat.shown t in
  Chat.isThinking st && Chat.useMaps st = false /\
  (forall c env request,
     In c (Chat.waiting t) ->
     snd (Chat.answerTo c env) = Some request ->
     (Service.thinkingBudget request = Some 32768 <->
        Chat.c_isThinking c = true) /\
     Service.mapsTool request = Chat.c_useMaps c) /\
  Forall (fun m => Chat.role m = Chat.model -> Chat.text m <> EmptyString)
    (Chat.messages st) /\
  Chat.owed 0 (Chat.messages st) = Some (length (Chat.waiting t)) /\
  (Chat.isSending st = true -> Chat.waiting t <> []) /\
  (Forall (fun ev => ev <> Chat.Enter) events ->
   (length (Chat.waiting t) <= 1)%nat /\
   (Chat.waiting t = [] -> Chat.paired (Chat.messages st))).
Proof.
  intros t st.
  assert (Ht : Chat.coherent t).
  { apply play_keeps_coherence. unfold Chat.coherent. cbn.
    split; [reflexivity|]. split; [constructor|]. split; [reflexivity|].
    split; [constructor | discriminate]. }
  destruct Ht as (Hflags & Hcalls & Howed & Htexts & Hsend).
  split; [exact Hflags|]. split.
  { intros c env request Hc Hsent.
    destruct (answerTo_reply c env) as (_ & _ & Hreq).
    destruct (Hreq request Hsent) as [Hbudget Htool].
    split; [|exact Htool]. rewrite Hbudget.
    rewrite List.Forall_forall in Hcalls. specialize (Hcalls c Hc).
    destruct (Chat.c_isThinking c), (Chat.c_useMaps c); cbn in *;
      split; congruence. }
  split; [exact Htexts|]. split; [exact Howed|]. split; [exact Hsend|].
  intros Hbutton.
  assert (Hserial : Chat.serial t).
  { apply play_keeps_serial; [exact Hbutton|]. left. cbn.
    split; [reflexivity|]. split; [reflexivity | exact I]. }
  destruct Hserial as [(Hwait & _ & Hlog) | (c & log & q & Hwait & _)].
  - fold st in Hlog. rewrite Hwait. split; [cbn; lia | intros _; exact Hlog].
  - rewrite Hwait. split; [cbn; lia | discriminate].
Qed.

Lemma X28_chat_toggles_exclude_each_other_witness :
  map Chat.role
    (Chat.messages
       (Chat.shown (Chat.play (Chat.overlapping Chat.helpful) Chat.opened))) =
    [Chat.user; Chat.user; Chat.model; Chat.model] /\
  Chat.owed 0
    (Chat.messages
       (Chat.shown (Chat.play (Chat.overlapping Chat.helpful) Chat.opened))) =
    Some 0%nat /\
  Chat.paired
    (Chat.messages
       (Chat.shown
          (Chat.play [ Chat.Typed "What is a lease?"; Chat.SendButton;
                       Chat.Typed "And a sublease?"; Chat.SendButton;
                       Chat.Settled 0 Chat.helpful; Chat.SendButton;
                       Chat.Settled 0 Chat.helpful ] Chat.opened))).
Proof.
  split; [reflexivity|]. split.
  - exact (proj1 (proj2 (proj2 (proj2
             (X28_chat_toggles_exclude_each_other
                (Chat.overlapping Chat.helpful)))))).
  - apply (proj2 (proj2 (proj2 (proj2 (proj2
             (X28_chat_toggles_exclude_each_other
                [ Chat.Typed "What is a lease?"; Chat.SendButton;
                  Chat.Typed "And a sublease?"; Chat.SendButton;
                  Chat.Settled 0 Chat.helpful; Chat.SendButton;
                  Chat.Settled 0 Chat.helpful ])))))).
    + repeat (constructor; [discriminate|]). constructor.
    + reflexivity.
Defined.

(* ===================================================================== *)
(** ** The creative tab: [generateImage] and [onGenerate]                 *)
(* ===================================================================== *)

Section StudioFacts.

Lemma append_cons (c : Strings.Ascii.ascii) (a b : string) :
  String c a +:+ b = String c (a +:+ b).
Proof. reflexivity. Qed.

Lemma append_nil (b : string) : EmptyString +:+ b = b.
Proof. reflexivity. Qed.

Lemma append_is_empty (a b : string) :
  a +:+ b = EmptyString -> a = EmptyString /\ b = EmptyString.
Proof.
  destruct a as [|c a]; [rewrite append_nil; auto|].
  rewrite append_cons. discriminate.
Qed.

Lemma startsWith_spec (prefix : string) :
  forall s, Studio.startsWith s prefix = true <->
            exists rest, s = prefix +:+ rest.
Proof.
  induction prefix as [|p prefix IH]; intros s.
  - split; [intros _; exists s; reflexivity|]. intros _. destruct s; reflexivity.
  - destruct s as [|c s]; cbn [Studio.startsWith].
    + split; [discriminate|]. intros [rest H]. rewrite append_cons in H.
      discriminate H.
    + destruct (Strings.Ascii.eqb_spec c p) as [-> | Hne].
      * rewrite IH. split; intros [rest H]; exists rest.
        -- rewrite append_cons, H. reflexivity.
        -- rewrite append_cons in H. injection H as H. exact H.
      * split; [discriminate|]. intros [rest H]. rewrite append_cons in H.
        injection H as Hc _. contradiction.
Qed.

Lemma includes_step (s needle : string) :
  Studio.includes s needle =
  Studio.startsWith s needle ||
  match s with
  | EmptyString => false
  | String _ rest => Studio.includes rest needle
  end.
Proof. destruct s; reflexivity. Qed.

Lemma includes_spec (needle : string) :
  forall s, Studio.includes s needle = true <->
            exists before after, s = before +:+ needle +:+ after.
Proof.
  induction s as [|c s IH]; rewrite includes_step, orb_true_iff.
  - split.
    + intros [H | H]; [|discriminate H].
      apply startsWith_spec in H as [rest H].
      exists EmptyString, rest. rewrite append_nil. exact H.
    + intros (before & after & H). left. symmetry in H.
      apply append_is_empty in H as [-> H].
      apply append_is_empty in H as [-> ->]. reflexivity.
  - rewrite IH. split.
    + intros [H | (before & after & H)].
      * apply startsWith_spec in H as [rest H].
        exists EmptyString, rest. rewrite append_nil. exact H.
      * exists (String c before), after. rewrite append_cons, H. reflexivity.
    + intros (before & after & H). destruct before as [|b before].
      * left. apply startsWith_spec. exists after.
        rewrite append_nil in H. exact H.
      * right. rewrite append_cons in H. injection H as _ H.
        exists before, after. exact H.
Qed.

Lemma firstInline_cases (parts : list (option string)) :
  (Service.firstInline parts = EmptyString /\ List.Forall (eq None) parts) \/
  (exists before data after,
     parts = before ++ Some data :: after /\
     List.Forall (eq None) before /\
     Service.firstInline parts = Service.PNG_PREFIX +:+ data).
Proof.
  induction parts as [|[data|] parts IH].
  - left. split; [reflexivity | constructor].
  - right. exists [], data, parts.
    split; [reflexivity|]. split; [constructor | reflexivity].
  - destruct IH as [[He Hall] | (before & data & after & Hp & Hb & Hf)].
    + left. split; [exact He | constructor; [reflexivity | exact Hall]].
    + right. exists (None :: before), data, after.
      split; [rewrite Hp; reflexivity|].
      split; [constructor; [reflexivity | exact Hb] | exact Hf].
Qed.

End StudioFacts.

(** X29. What [generateImage] hands back when the request succeeds is
    decided by the first part of the first candidate that has inline
    data: the PNG data URL of that part, the parts before it counting
    for nothing and those after it not being looked at; and the empty
    string, without any error, when no part has inline data. *)
Theorem X29_image_is_the_first_inline_part
    (response : Retry.outcome (list (option string)) Studio.Thrown)
    (url : string) :
  Studio.generateImage response = Retry.Fulfilled url ->
  exists parts,
    response = Retry.Fulfilled parts /\
    ((url = EmptyString /\ List.Forall (eq None) parts) \/
     (exists before data after,
        parts = before ++ Some data :: after /\
        List.Forall (eq None) before /\
        url = Service.PNG_PREFIX +:+ data /\
        Studio.startsWith url "data:image/png;base64," = true)).
Proof.
  destruct response as [parts|e]; cbn; [|discriminate].
  intros [= <-]. exists parts. split; [reflexivity|].
  destruct (firstInline_cases parts)
    as [[He Hall] | (before & data & after & Hp & Hb & Hf)].
  - left. split; assumption.
  - right. exists before, data, after.
    split; [exact Hp|]. split; [exact Hb|]. split; [exact Hf|].
    rewrite Hf. apply startsWith_spec. exists data. reflexivity.
Qed.

Lemma X29_image_is_the_first_inline_part_witness :
  Studio.generateImage (Retry.Fulfilled [None; Some "iVBORw0KGgo="; Some "AAAA"])
  = Retry.Fulfilled "data:image/png;base64,iVBORw0KGgo=" /\
  exists parts,
    Retry.Fulfilled [None; Some "iVBORw0KGgo="; Some "AAAA"]
    = Retry.Fulfilled (E := Studio.Thrown) parts.
Proof.
  assert (H : Studio.generateImage
                (Retry.Fulfilled [None; Some "iVBORw0KGgo="; Some "AAAA"])
              = Retry.Fulfilled "data:image/png;base64,iVBORw0KGgo=")
    by reflexivity.
  split; [exact H|].
  destruct (X29_image_is_the_first_inline_part _ _ H) as (parts & Hp & _).
  exists parts. exact Hp.
Defined.

(** X30. An [onGenerate] with a prompt always ends with [isGenerating]
    off and leaves the prompt and the ratio alone.  On success it shows
    no alert and replaces the picture by what [generateImage] returned,
    the empty string included.  On failure it keeps the picture and
    shows one of the two alerts; the key is withdrawn, and the
    project-not-found alert shown, exactly when what was thrown is an
    [Error] whose message contains "Requested entity was not found". *)
Theorem X30_generate_outcome
    (st : Studio.State)
    (response : Retry.outcome (list (option string)) Studio.Thrown) :
  Studio.prompt st <> EmptyString ->
  let st' := fst (Studio.onGenerate st response) in
  let alert := snd (Studio.onGenerate st response) in
  Studio.isGenerating st' = false /\
  Studio.prompt st' = Studio.prompt st /\
  Studio.selectedRatio st' = Studio.selectedRatio st /\
  match response with
  | Retry.Fulfilled parts =>
      alert = None /\
      Studio.resultImage st' = Service.firstInline parts /\
      Studio.hasApiKey st' = Studio.hasApiKey st
  | Retry.Rejected e =>
      let not_found :=
        Studio.isError e = true /\
        exists before after,
          Studio.message e = before +:+ Studio.NOT_FOUND +:+ after in
      Studio.resultImage st' = Studio.resultImage st /\
      (not_found ->
         alert = Some Studio.ProjectNotFound /\ Studio.hasApiKey st' = false) /\
      (~ not_found ->
         alert = Some Studio.GenerationFailed /\
         Studio.hasApiKey st' = Studio.hasApiKey st)
  end.
Proof.
  intros Hprompt st' alert. subst st' alert. unfold Studio.onGenerate.
  apply not_empty in Hprompt. rewrite Hprompt.
  destruct response as [parts|e]; cbn [Studio.generateImage].
  - cbn. repeat split; reflexivity.
  - destruct (Studio.isError e && Studio.includes (Studio.message e)
                                     Studio.NOT_FOUND) eqn:Hnf; cbn.
    + split; [reflexivity|]. split; [reflexivity|]. split; [reflexivity|].
      split; [reflexivity|]. split; [intros _; split; reflexivity|].
      intros Hno. exfalso. apply Hno.
      apply andb_true_iff in Hnf as [He Hi]. split; [exact He|].
      apply includes_spec. exact Hi.
    + split; [reflexivity|]. split; [reflexivity|]. split; [reflexivity|].
      split; [reflexivity|]. split; [|intros _; split; reflexivity].
      intros [He Hi]. apply includes_spec in Hi.
      rewrite He, Hi in Hnf. discriminate Hnf.
Qed.

Lemma X30_generate_outcome_witness :
  Studio.prompt Studio.ready <> EmptyString /\
  Studio.hasApiKey
    (fst (Studio.onGenerate Studio.ready
            (Retry.Rejected
               {| Studio.isError := true;
                  Studio.message :=
                    "404: Requested entity was not found." |}))) = false.
Proof.
  assert (Hprompt : Studio.prompt Studio.ready <> EmptyString)
    by (cbn; discriminate).
  split; [exact Hprompt|].
  destruct (X30_generate_outcome Studio.ready
              (Retry.Rejected
                 {| Studio.isError := true;
                    Studio.message :=
                      "404: Requested entity was not found." |}) Hprompt)
    as (_ & _ & _ & _ & Hnf & _).
  apply Hnf. cbn [Studio.isError Studio.message]. split; [reflexivity|].
  exists "404: ", ".". reflexivity.
Defined.
